(** * Verification of the d2l notebooks: SSD detector and softmax regression

    The notebooks are glue code around MXNet.  The development models
    - Python exceptions with an error monad [result],
    - MXNet's array and layer operations as the interfaces [NDArrayOps] and
      [GluonOps], with two implementations: shape inference (an array is its
      shape) and arrays with contents,
    - float32 numbers through the relative errors of their operations, with
      IEEE 754 binary32 as an implementation,
    - the functions of the notebooks on top of these interfaces, and
    - the training loops in a state and error monad that logs the library
      calls. *)

From Stdlib Require Import ZArith QArith Qabs Reals Lra Lia List String.
From Stdlib Require Import FunctionalExtensionality Floats.SpecFloat.
From stdpp Require Import base option list strings gmap pretty.

Open Scope Z_scope.

(** ** Exceptions and the error monad *)

(** The exceptions the modelled code can see: MXNet's own error, and the
    Python errors of attribute access, subscripts and unpacking. *)
Inductive exn : Type :=
| MXNetError (msg : string)
| AttributeError (name : string)
| IndexError
| TypeError
| ValueError
| ZeroDivisionError.

Inductive result (A : Type) : Type :=
| Ok (a : A)
| Raise (e : exn).
Arguments Ok {A} a.
Arguments Raise {A} e.

#[global] Instance result_ret : MRet result := λ A a, Ok a.
#[global] Instance result_bind : MBind result := λ A B f m,
  match m with
  | Ok a => f a
  | Raise e => Raise e
  end.
#[global] Instance result_fmap : FMap result := λ A B f m,
  match m with
  | Ok a => Ok (f a)
  | Raise e => Raise e
  end.

(** The code is written once, for every monad [m] that can raise an
    exception: [result] for pure library functions, and the monad [M]
    below, which threads the state of the library and logs its calls. *)
Class MRaise (m : Type → Type) : Type := mraise : ∀ {A}, exn → m A.
#[global] Instance result_raise : MRaise result := λ A e, Raise e.

(** [try] in the monad: [mtry c] runs [c] and returns its outcome, a value
    or an exception, to the code that follows.  The notebooks have no [try]
    statement; the [with] statement below is built on it. *)
Class MTry (m : Type → Type) : Type := mtry : ∀ {A}, m A → m (result A).
#[global] Instance result_try : MTry result := λ A c, Ok c.

(** Evaluation of the monad operations at [result]. *)
Ltac simpl_result :=
  cbn [mbind result_bind fmap result_fmap] in *;
  change (@mret result _ ?A ?a) with (@Ok A a) in *;
  change (@mraise result _ ?A ?e) with (@Raise A e) in *.

(** The laws of a monad that the comparison of two programs uses. *)
Class MonadLaws (m : Type → Type) `{!MRet m, !MBind m} : Prop := {
  mbind_ret_l {A B} (a : A) (f : A → m B) : mret a ≫= f = f a;
  mbind_assoc {A B C} (c : m A) (f : A → m B) (g : B → m C) :
    (c ≫= f) ≫= g = c ≫= (λ a, f a ≫= g);
}.

#[global] Instance result_laws : MonadLaws result.
Proof. split; [done|]. by intros A B C [a|e] f g. Qed.

Lemma mbind_ext {m : Type → Type} `{!MBind m} {A B} (c : m A)
    (f g : A → m B) :
  (∀ a, f a = g a) → c ≫= f = c ≫= g.
Proof. intros Hfg. f_equal. by apply functional_extensionality. Qed.

(** [range(n)] *)
Definition range (n : nat) : list nat := seq 0 n.

Section python.
Context {m : Type → Type} `{!MRet m, !MBind m, !MRaise m, !MTry m}.

(** [mapR f l] runs [f] on the elements of [l] from left to right and
    stops at the first exception: a list comprehension
    [[f(x) for x in l]]. *)
Fixpoint mapR {A B} (f : A → m B) (l : list A) : m (list B) :=
  match l with
  | [] => mret []
  | x :: l => y ← f x; ys ← mapR f l; mret (y :: ys)
  end.

(** [foldR f l a] is a [for x in l] loop with loop state [a]. *)
Fixpoint foldR {A B} (f : B → A → m B) (l : list A) (b : B) : m B :=
  match l with
  | [] => mret b
  | x :: l => b' ← f b x; foldR f l b'
  end.

(** [l[i]] on a Python list *)
Definition subscript {A} (l : list A) (i : nat) : m A :=
  match l !! i with
  | Some x => mret x
  | None => mraise IndexError
  end.

(** [l[i] = v] on a Python list *)
Definition setitem {A} (l : list A) (i : nat) (v : A) : m (list A) :=
  if decide (i < length l)%nat then mret (<[i := v]> l)
  else mraise IndexError.

(** The arguments [*l] of a library call: an entry that is still [None]
    is not an array. *)
Definition star {A} (l : list (option A)) : m (list A) :=
  mapR (λ o, match o with Some x => mret x | None => mraise TypeError end) l.

(** [with cm: body], for a context manager whose [__exit__] returns
    nothing, as the scope of [autograd.record()] does: [enter] runs first;
    when it raises, neither [body] nor [exit] runs.  [exit] runs when [body]
    has returned and when it has raised, and then the exception of [body]
    goes on; an exception of [exit] itself takes its place. *)
Definition with_ {A} (enter exit_ : m unit) (body : m A) : m A :=
  _ ← enter;
  r ← mtry body;
  _ ← exit_;
  match r with
  | Ok a => mret a
  | Raise e => mraise e
  end.
End python.

(** ** The layers of [mxnet.gluon.nn] that the notebooks build *)

#[warnings="-register-all"]
Inductive layer : Type :=
| Conv2D (channels kernel_size padding : Z)
| BatchNorm (in_channels : Z)
| Activation (act : string)
| MaxPool2D (pool_size : Z)
| GlobalMaxPool2D
| Sequential (children : list layer).

(** [blk.add(l1, ..., ln)] on an [nn.Sequential] *)
Definition add (blk : layer) (ls : list layer) : layer :=
  match blk with
  | Sequential children => Sequential (children ++ ls)
  | _ => blk
  end.

(** ** The library interfaces *)

(** The array operations the detector uses.  [T] is the type of arrays and
    [m] the monad the library runs in. *)
Class NDArrayOps (m : Type → Type) (T : Type) : Type := {
  (** [x.transpose(axes)] *)
  nd_transpose : T → list nat → m T;
  (** [x.flatten()] *)
  nd_flatten : T → m T;
  (** [nd.concat( *xs, dim=d)] *)
  nd_concat : list T → nat → m T;
  (** [x.reshape(shape)] *)
  nd_reshape : T → list Z → m T;
}.

(** Running a layer, and the anchor box generator. *)
Class GluonOps (m : Type → Type) (T : Type) : Type := {
  (** [blk(X)] *)
  call : layer → T → m T;
  (** [contrib.ndarray.MultiBoxPrior(Y, sizes=size, ratios=ratio)] *)
  MultiBoxPrior : T → list Q → list Q → m T;
}.

(** ** ssd.ipynb: the model *)

Definition cls_predictor (num_anchors num_classes : Z) : layer :=
  Conv2D (num_anchors * (num_classes + 1)) 3 1.

Definition bbox_predictor (num_anchors : Z) : layer :=
  Conv2D (num_anchors * 4) 3 1.

Definition down_sample_blk (num_channels : Z) : layer :=
  let blk := Sequential [] in
  let blk := fold_left (λ blk _,
    add blk [Conv2D num_channels 3 1; BatchNorm num_channels;
             Activation "relu"]) (range 2) blk in
  let blk := add blk [MaxPool2D 2] in
  blk.

Definition base_net : layer :=
  let blk := Sequential [] in
  let blk := fold_left (λ blk num_filters,
    add blk [down_sample_blk num_filters]) [16; 32; 64] blk in
  blk.

Definition get_blk (i : nat) : layer :=
  if decide (i = 0%nat) then base_net
  else if decide (i = 4%nat) then GlobalMaxPool2D
  else down_sample_blk 128.

Definition sizes : list (list Q) :=
  [[0.2; 0.272]; [0.37; 0.447]; [0.54; 0.619]; [0.71; 0.79];
   [0.88; 0.961]]%Q.
Definition ratios : list (list Q) := replicate 5 [1; 2; 0.5]%Q.
Definition num_anchors : Z :=
  Z.of_nat (length (sizes !!! 0%nat)) + Z.of_nat (length (ratios !!! 0%nat)) - 1.

Section model.
Context {m : Type → Type} `{!MRet m, !MBind m, !MRaise m}.
Context {T : Type} `{!NDArrayOps m T, !GluonOps m T}.

Definition flatten_pred (pred : T) : m T :=
  t ← nd_transpose pred [0; 2; 3; 1]%nat; nd_flatten t.

Definition concat_preds (preds : list T) : m T :=
  flat ← mapR flatten_pred preds; nd_concat flat 1.

Definition blk_forward (X : T) (blk : layer) (size ratio : list Q)
    (cls_predictor bbox_predictor : layer) : m (T * T * T * T) :=
  Y ← call blk X;
  anchors ← MultiBoxPrior Y size ratio;
  cls_preds ← call cls_predictor Y;
  bbox_preds ← call bbox_predictor Y;
  mret (Y, anchors, cls_preds, bbox_preds).
End model.

(** The formatted attribute name ['blk_%d' % i]. *)
Definition fmt_d (prefix : string) (i : nat) : string := prefix +:+ pretty i.

(** A [TinySSD] object: the field [num_classes] and the sub-layers that
    [setattr] registered, by attribute name. *)
Record TinySSD : Type := {
  num_classes : Z;
  attrs : gmap string layer;
}.

Definition setattr (self : TinySSD) (name : string) (v : layer) : TinySSD :=
  {| num_classes := num_classes self; attrs := <[name := v]> (attrs self) |}.

(** [getattr(self, name)] for the name of a sub-layer.  The other
    attributes of the object (the field [num_classes], what [nn.Block] has)
    are not looked up through it. *)
Definition getattr {m : Type → Type} `{!MRet m, !MRaise m}
    (self : TinySSD) (name : string) : m layer :=
  match attrs self !! name with
  | Some v => mret v
  | None => mraise (AttributeError name)
  end.

(** [TinySSD.__init__] *)
Definition TinySSD_init (num_classes : Z) : TinySSD :=
  let self := {| num_classes := num_classes; attrs := ∅ |} in
  fold_left (λ self i,
    let self := setattr self (fmt_d "blk_" i) (get_blk i) in
    let self := setattr self (fmt_d "cls_" i)
                  (cls_predictor num_anchors num_classes) in
    setattr self (fmt_d "bbox_" i) (bbox_predictor num_anchors))
    (range 5) self.

Section forward.
Context {m : Type → Type} `{!MRet m, !MBind m, !MRaise m}.
Context {T : Type} `{!NDArrayOps m T, !GluonOps m T}.

(** One iteration of the loop of [TinySSD.forward]. *)
Definition forward_step (self : TinySSD)
    (st : T * list (option T) * list (option T) * list (option T))
    (i : nat) :
    m (T * list (option T) * list (option T) * list (option T)) :=
  let '(X, anchors, cls_preds, bbox_preds) := st in
  blk ← getattr self (fmt_d "blk_" i);
  size ← subscript sizes i;
  ratio ← subscript ratios i;
  cls ← getattr self (fmt_d "cls_" i);
  bbox ← getattr self (fmt_d "bbox_" i);
  '(X, a, c, b) ← blk_forward X blk size ratio cls bbox;
  anchors ← setitem anchors i (Some a);
  cls_preds ← setitem cls_preds i (Some c);
  bbox_preds ← setitem bbox_preds i (Some b);
  mret (X, anchors, cls_preds, bbox_preds).

(** What [TinySSD.forward] returns from the three filled lists. *)
Definition forward_outputs (num_classes : Z)
    (anchors cls_preds bbox_preds : list (option T)) : m (T * T * T) :=
  anchors ← star anchors;
  anchors ← nd_concat anchors 1;
  cls_preds ← star cls_preds;
  cls_preds ← concat_preds cls_preds;
  cls_preds ← nd_reshape cls_preds [0; -1; num_classes + 1];
  bbox_preds ← star bbox_preds;
  bbox_preds ← concat_preds bbox_preds;
  mret (anchors, cls_preds, bbox_preds).

(** [TinySSD.forward] *)
Definition forward (self : TinySSD) (X : T) : m (T * T * T) :=
  let anchors := replicate 5 None in
  let cls_preds := replicate 5 None in
  let bbox_preds := replicate 5 None in
  '(X, anchors, cls_preds, bbox_preds) ←
    foldR (forward_step self) (range 5) (X, anchors, cls_preds, bbox_preds);
  forward_outputs (num_classes self) anchors cls_preds bbox_preds.
End forward.

(** ** Shape inference: an array is its shape *)

Abbreviation shape := (list Z) (only parsing).

(** The number of elements of an array of shape [s]. *)
Definition size_of (s : list Z) : Z := foldr Z.mul 1 s.

Definition sumZ (l : list Z) : Z := foldr Z.add 0 l.

Module Shape.

Definition transpose (s : shape) (axes : list nat) : result shape :=
  if decide (axes ≡ₚ seq 0 (length s))
  then Ok ((λ a, s !!! a) <$> axes)
  else Raise (MXNetError "transpose: axes")%string.

Definition flatten (s : shape) : result shape :=
  match s with
  | [] => Raise (MXNetError "flatten: no axis")%string
  | d :: rest => Ok [d; size_of rest]
  end.

(** Two shapes that [concat] along [dim] accepts: equal but at [dim]. *)
Definition agree_but (dim : nat) (s1 s2 : shape) : Prop :=
  length s1 = length s2 ∧ <[dim := 0]> s1 = <[dim := 0]> s2.
#[global] Instance agree_but_dec dim s1 s2 : Decision (agree_but dim s1 s2).
Proof. unfold agree_but. apply _. Defined.

Definition concat (ss : list shape) (dim : nat) : result shape :=
  match ss with
  | [] => Raise (MXNetError "concat: no input")%string
  | s :: _ =>
      if decide ((dim < length s)%nat ∧ Forall (agree_but dim s) ss)
      then Ok (<[dim := sumZ ((λ s, s !!! dim) <$> ss)]> s)
      else Raise (MXNetError "concat: shapes")%string
  end.

(** [reshape] with the special codes [0] (copy this dimension from the
    input) and [-1] (infer it from the rest); the other negative codes are
    not used by the notebooks. *)
Definition reshape_dim (s : shape) (i : nat) (code : Z) : result Z :=
  if decide (code = 0) then subscript s i
  else if decide (code = -1) then Ok (-1)
  else if decide (0 < code) then Ok code
  else Raise (MXNetError "reshape: code")%string.

Definition reshape (s : shape) (codes : list Z) : result shape :=
  dims ← mapR (λ '(i, code), reshape_dim s i code) (imap pair codes);
  let known := size_of (filter (λ d, d ≠ -1) dims) in
  let unknown := length (filter (λ d, d = -1) dims) in
  if decide (unknown = 0%nat) then
    if decide (known = size_of s) then Ok dims
    else Raise (MXNetError "reshape: size")%string
  else if decide (unknown = 1%nat ∧ known ≠ 0 ∧ size_of s `mod` known = 0) then
    Ok ((λ d, if decide (d = -1) then size_of s / known else d) <$> dims)
  else Raise (MXNetError "reshape: infer")%string.

#[global] Instance shape_nd_ops : NDArrayOps result shape := {
  nd_transpose := transpose;
  nd_flatten := flatten;
  nd_concat := concat;
  nd_reshape := reshape;
}.

(** The output extent of a convolution or pooling window along one axis. *)
Definition window (extent kernel stride padding : Z) : result Z :=
  if decide (0 < kernel ∧ kernel ≤ extent + 2 * padding)
  then Ok ((extent + 2 * padding - kernel) / stride + 1)
  else Raise (MXNetError "kernel size exceeds input")%string.

(** The shape that a layer returns.  A convolution has one output channel
    at least: MXNet refuses [nn.Conv2D(0, ...)]. *)
Fixpoint infer (l : layer) (s : shape) : result shape :=
  match l, s with
  | Conv2D channels kernel_size padding, [n; c; h; w] =>
      if decide (0 < channels) then
        h' ← window h kernel_size 1 padding;
        w' ← window w kernel_size 1 padding;
        Ok [n; channels; h'; w']
      else Raise (MXNetError "Conv2D: channels")%string
  | BatchNorm in_channels, n :: c :: rest =>
      if decide (in_channels = 0 ∨ in_channels = c)
      then Ok s else Raise (MXNetError "BatchNorm: channels")%string
  | Activation _, _ => Ok s
  | MaxPool2D pool_size, [n; c; h; w] =>
      h' ← window h pool_size pool_size 0;
      w' ← window w pool_size pool_size 0;
      Ok [n; c; h'; w']
  | GlobalMaxPool2D, [n; c; h; w] => Ok [n; c; 1; 1]
  | Sequential children, _ =>
      (fix go (ls : list layer) (s : shape) : result shape :=
         match ls with
         | [] => Ok s
         | l :: ls => s' ← infer l s; go ls s'
         end) children s
  | _, _ => Raise (MXNetError "layer: input rank")%string
  end.

Definition multibox_prior (s : shape) (size ratio : list Q) : result shape :=
  match s, size, ratio with
  | [n; c; h; w], _ :: _, _ :: _ =>
      Ok [1; h * w * (Z.of_nat (length size) + Z.of_nat (length ratio) - 1); 4]
  | _, _, _ => Raise (MXNetError "MultiBoxPrior")%string
  end.

#[global] Instance shape_gluon_ops : GluonOps result shape := {
  call := infer;
  MultiBoxPrior := multibox_prior;
}.

End Shape.

(** ** Shapes of the layers *)

Section shape_lemmas.
Import Shape.

Lemma window_ok extent kernel stride padding :
  0 < kernel → kernel ≤ extent + 2 * padding →
  window extent kernel stride padding
  = Ok ((extent + 2 * padding - kernel) / stride + 1).
Proof. intros. unfold window. rewrite decide_True; [done | lia]. Qed.

(** A 3x3 convolution with padding 1 keeps height and width. *)
Lemma conv3_shape channels n c h w :
  0 < channels → 0 < h → 0 < w →
  infer (Conv2D channels 3 1) [n; c; h; w] = Ok [n; channels; h; w].
Proof.
  intros Hc Hh Hw. cbn [infer]. rewrite decide_True by done.
  rewrite !window_ok by lia. cbn.
  rewrite !Z.div_1_r.
  replace (h + 2 * 1 - 3 + 1) with h by lia.
  by replace (w + 2 * 1 - 3 + 1) with w by lia.
Qed.

(** A 2x2 maximum pooling with stride 2 halves even heights and widths. *)
Lemma maxpool2_shape n c h w :
  0 < h → 0 < w → Z.even h → Z.even w →
  infer (MaxPool2D 2) [n; c; h; w] = Ok [n; c; h / 2; w / 2].
Proof.
  intros Hh Hw Eh Ew. cbn [infer].
  apply Is_true_true, Z.even_spec in Eh as [h' ->].
  apply Is_true_true, Z.even_spec in Ew as [w' ->].
  rewrite !window_ok by lia. cbn [mbind result_bind mret result_ret].
  assert (∀ x, (2 * x + 2 * 0 - 2) / 2 + 1 = 2 * x / 2) as Hhalf.
  { intros x. rewrite (Z.mul_comm 2 x), Z.div_mul by lia.
    replace (x * 2 + 2 * 0 - 2) with ((x - 1) * 2) by lia.
    rewrite Z.div_mul by lia. lia. }
  by rewrite !Hhalf.
Qed.

Lemma batchnorm_shape k n c rest :
  c = k → infer (BatchNorm k) (n :: c :: rest) = Ok (n :: c :: rest).
Proof. intros ->. cbn. rewrite decide_True; [done | by right]. Qed.

Lemma activation_shape act s : infer (Activation act) s = Ok s.
Proof. by destruct s as [|? [|? [|? [|? [|? ?]]]]]. Qed.

Lemma infer_nil s : infer (Sequential []) s = Ok s.
Proof. done. Qed.

Lemma infer_cons l ls s :
  infer (Sequential (l :: ls)) s = s' ← infer l s; infer (Sequential ls) s'.
Proof. done. Qed.

Lemma down_sample_blk_shape k n c h w :
  0 < k → 0 < h → 0 < w → Z.even h → Z.even w →
  infer (down_sample_blk k) [n; c; h; w] = Ok [n; k; h / 2; w / 2].
Proof.
  intros Hk Hh Hw Eh Ew.
  change (down_sample_blk k) with
    (Sequential [Conv2D k 3 1; BatchNorm k; Activation "relu";
                 Conv2D k 3 1; BatchNorm k; Activation "relu";
                 MaxPool2D 2]).
  rewrite infer_cons, conv3_shape by done. cbn [mbind result_bind mret result_ret].
  rewrite infer_cons, batchnorm_shape by done. cbn [mbind result_bind mret result_ret].
  rewrite infer_cons, activation_shape. cbn [mbind result_bind mret result_ret].
  rewrite infer_cons, conv3_shape by done. cbn [mbind result_bind mret result_ret].
  rewrite infer_cons, batchnorm_shape by done. cbn [mbind result_bind mret result_ret].
  rewrite infer_cons, activation_shape. cbn [mbind result_bind mret result_ret].
  rewrite infer_cons, maxpool2_shape by done. done.
Qed.

Lemma base_net_shape n c h w :
  0 < h → 0 < w → h `mod` 8 = 0 → w `mod` 8 = 0 →
  infer base_net [n; c; h; w] = Ok [n; 64; h / 8; w / 8].
Proof.
  intros Hh Hw Mh Mw.
  apply Z.mod_divide in Mh as [h' ->]; [|done].
  apply Z.mod_divide in Mw as [w' ->]; [|done].
  rewrite !Z.div_mul by done.
  change base_net with
    (Sequential [down_sample_blk 16; down_sample_blk 32; down_sample_blk 64]).
  replace (h' * 8) with (2 * (2 * (2 * h'))) by lia.
  replace (w' * 8) with (2 * (2 * (2 * w'))) by lia.
  assert (∀ x, Z.even (2 * x)) as Ev
    by (intros x; apply Is_true_true, Z.even_spec; by exists x).
  assert (∀ x, 2 * x / 2 = x) as Hdiv
    by (intros x; rewrite Z.mul_comm; apply Z.div_mul; lia).
  rewrite infer_cons, down_sample_blk_shape by (try apply Ev; lia).
  cbn [mbind result_bind mret result_ret]. rewrite !Hdiv.
  rewrite infer_cons, down_sample_blk_shape by (try apply Ev; lia).
  cbn [mbind result_bind mret result_ret]. rewrite !Hdiv.
  rewrite infer_cons, down_sample_blk_shape by (try apply Ev; lia).
  cbn [mbind result_bind mret result_ret]. by rewrite !Hdiv.
Qed.
End shape_lemmas.

(** C8: on an input of shape (N, C, H, W) with H and W even (and positive, as
    the extents of an array are), [down_sample_blk k], for a number k > 0 of
    channels, gives shape (N, k, H/2, W/2); and [base_net] maps shape
    (N, 3, 256, 256) to (N, 64, 32, 32). *)
Theorem down_sample_blk_halves :
  (∀ k N C H W, 0 < k → 0 < H → 0 < W → Z.even H → Z.even W →
     call (down_sample_blk k) ([N; C; H; W] : shape)
     = Ok [N; k; H / 2; W / 2]) ∧
  (∀ N, call base_net ([N; 3; 256; 256] : shape) = Ok [N; 64; 32; 32]).
Proof.
  split.
  - intros. by apply down_sample_blk_shape.
  - intros N. exact (base_net_shape N 3 256 256 eq_refl eq_refl eq_refl eq_refl).
Qed.

(** ** The attributes that [TinySSD.__init__] sets *)

Lemma getattr_Some {m : Type → Type} `{!MRet m, !MRaise m} self name v :
  attrs self !! name = Some v → getattr (m:=m) self name = mret v.
Proof. intros Hv. unfold getattr. by rewrite Hv. Qed.

Lemma attrs_init_blk nc i :
  (i < 5)%nat → attrs (TinySSD_init nc) !! fmt_d "blk_" i = Some (get_blk i).
Proof.
  intros Hi.
  destruct i as [|[|[|[|[|i]]]]]; [by vm_compute..|lia].
Qed.

Lemma attrs_init_cls nc i :
  (i < 5)%nat →
  attrs (TinySSD_init nc) !! fmt_d "cls_" i
  = Some (cls_predictor num_anchors nc).
Proof.
  intros Hi.
  destruct i as [|[|[|[|[|i]]]]]; [by vm_compute..|lia].
Qed.

Lemma attrs_init_bbox nc i :
  (i < 5)%nat →
  attrs (TinySSD_init nc) !! fmt_d "bbox_" i
  = Some (bbox_predictor num_anchors).
Proof.
  intros Hi.
  destruct i as [|[|[|[|[|i]]]]]; [by vm_compute..|lia].
Qed.

Lemma num_classes_init nc : num_classes (TinySSD_init nc) = nc.
Proof. done. Qed.

(** ** Shapes of the concatenated predictions *)

Section shape_concat.
Import Shape.

Lemma transpose_0231_shape n c h w :
  transpose [n; c; h; w] [0; 2; 3; 1]%nat = Ok [n; h; w; c].
Proof. done. Qed.

Lemma flatten_pred_shape n c h w :
  flatten_pred ([n; c; h; w] : shape) = Ok [n; h * w * c].
Proof.
  unfold flatten_pred.
  change (nd_transpose ?s ?a) with (transpose s a).
  rewrite transpose_0231_shape. cbn -[Z.mul]. do 3 f_equal. lia.
Qed.

(** Arrays of shapes (n, k1), ..., (n, km) concatenate along dimension 1
    to shape (n, k1 + ... + km). *)
Lemma concat_rows_shape n k ks :
  concat ((λ k, [n; k]) <$> (k :: ks)) 1 = Ok [n; sumZ (k :: ks)].
Proof.
  unfold concat.
  destruct ((λ k, [n; k]) <$> (k :: ks)) as [|s ss] eqn:E; [done|].
  assert (s = [n; k]) as -> by (by injection E).
  rewrite <- E. clear E ss.
  rewrite decide_True.
  - rewrite <- list_fmap_compose.
    replace (((λ s : shape, s !!! 1%nat) ∘ (λ k0 : Z, [n; k0])) <$> k :: ks)
      with (k :: ks); [done|].
    symmetry. etrans; [|apply list_fmap_id]. by apply list_fmap_ext.
  - split; [cbn; lia|].
    apply Forall_fmap, Forall_forall.
    by intros k' _.
Qed.

(** The per-example length of a flattened prediction of shape
    (n, c, h, w). *)
Definition pred_len (s : shape) : Z :=
  match s with
  | [_; c; h; w] => h * w * c
  | _ => 0
  end.

Lemma mapR_flatten_pred_shape n (chws : list (Z * Z * Z)) :
  mapR flatten_pred ((λ '(c, h, w), [n; c; h; w] : shape) <$> chws)
  = Ok ((λ '(c, h, w), [n; h * w * c]) <$> chws).
Proof.
  induction chws as [|[[c h] w] chws IH]; [done|].
  rewrite !fmap_cons. cbn [mapR]. rewrite flatten_pred_shape, IH. done.
Qed.

Lemma concat_preds_shape n chw (chws : list (Z * Z * Z)) :
  concat_preds ((λ '(c, h, w), [n; c; h; w] : shape) <$> (chw :: chws))
  = Ok [n; sumZ ((λ '(c, h, w), h * w * c) <$> (chw :: chws))].
Proof.
  unfold concat_preds. rewrite mapR_flatten_pred_shape.
  cbn [mbind result_bind mret result_ret].
  change (nd_concat ?l 1) with (concat l 1).
  replace ((λ '(c, h, w), [n; h * w * c]) <$> chw :: chws)
    with ((λ k, [n; k]) <$> ((λ '(c, h, w), h * w * c) <$> (chw :: chws))).
  - rewrite fmap_cons. apply concat_rows_shape.
  - rewrite <- list_fmap_compose. apply list_fmap_ext.
    by intros _ [[c h] w] _.
Qed.

Lemma reshape_dim_pos s i k : 0 < k → reshape_dim s i k = Ok k.
Proof.
  intros Hk. unfold reshape_dim.
  rewrite (decide_False (P := k = 0)), (decide_False (P := k = -1)) by lia.
  by rewrite decide_True.
Qed.

(** [x.reshape((0, -1, k))] of a matrix of shape (n, m * k). *)
Lemma reshape_0_m1_shape n m k :
  0 < n → 0 < k →
  reshape [n; m * k] [0; -1; k] = Ok [n; m; k].
Proof.
  intros Hn Hk. unfold reshape.
  change (imap pair [0; -1; k]) with [(0%nat, 0); (1%nat, -1); (2%nat, k)].
  cbn [mapR]. rewrite reshape_dim_pos by done.
  change (reshape_dim [n; m * k] 0 0) with (Ok (A:=Z) n).
  change (reshape_dim [n; m * k] 1 (-1)) with (Ok (A:=Z) (-1)).
  cbn [mbind result_bind mret result_ret].
  assert (filter (λ d, d ≠ -1) [n; -1; k] = [n; k]) as ->.
  { rewrite filter_cons_True by lia. rewrite filter_cons_False by (intros ?; done).
    by rewrite filter_cons_True by lia. }
  assert (filter (λ d, d = -1) [n; -1; k] = [-1]) as ->.
  { rewrite filter_cons_False by lia. rewrite filter_cons_True by done.
    by rewrite filter_cons_False by lia. }
  cbn [length]. rewrite (decide_False (P := 1%nat = 0%nat)) by done.
  cbn [size_of foldr].
  replace (n * (m * k * 1)) with (m * (n * (k * 1))) by lia.
  rewrite decide_True.
  - rewrite Z.div_mul by lia. cbn [fmap list_fmap].
    rewrite (decide_False (P := n = -1)), (decide_False (P := k = -1)) by lia.
    done.
  - split; [done|]. split; [lia|]. apply Z.mod_mul. lia.
Qed.
End shape_concat.

Section shape_forward.
Import Shape.

Lemma multibox_prior_shape n c h w (size ratio : list Q) :
  size ≠ [] → ratio ≠ [] →
  multibox_prior [n; c; h; w] size ratio
  = Ok [1; h * w * (Z.of_nat (length size) + Z.of_nat (length ratio) - 1); 4].
Proof. by destruct size, ratio. Qed.

(** The four shapes one scale of the detector produces. *)
Lemma blk_forward_shape (X : shape) blk size ratio nc n c h w :
  0 ≤ nc → call blk X = Ok [n; c; h; w] → 0 < h → 0 < w →
  length size = 2%nat → length ratio = 3%nat →
  blk_forward X blk size ratio
    (cls_predictor num_anchors nc) (bbox_predictor num_anchors)
  = Ok ([n; c; h; w], [1; h * w * 4; 4],
        [n; 4 * (nc + 1); h; w], [n; 16; h; w]).
Proof.
  intros Hnc HY Hh Hw Hs Hr. unfold blk_forward.
  rewrite HY. cbn [mbind result_bind mret result_ret].
  change (MultiBoxPrior ?Y ?s ?r) with (multibox_prior Y s r).
  rewrite multibox_prior_shape by (intros ->; done).
  rewrite Hs, Hr. cbn [mbind result_bind mret result_ret].
  change (call ?l ?s) with (infer l s).
  unfold cls_predictor, bbox_predictor. change num_anchors with 4.
  rewrite !conv3_shape by (done || lia). done.
Qed.

Lemma get_blk_shapes n c :
  call (get_blk 0) ([n; c; 256; 256] : shape) = Ok [n; 64; 32; 32] ∧
  call (get_blk 1) ([n; 64; 32; 32] : shape) = Ok [n; 128; 16; 16] ∧
  call (get_blk 2) ([n; 128; 16; 16] : shape) = Ok [n; 128; 8; 8] ∧
  call (get_blk 3) ([n; 128; 8; 8] : shape) = Ok [n; 128; 4; 4] ∧
  call (get_blk 4) ([n; 128; 4; 4] : shape) = Ok [n; 128; 1; 1].
Proof.
  split_and!.
  - exact (base_net_shape n c 256 256 eq_refl eq_refl eq_refl eq_refl).
  - exact (down_sample_blk_shape 128 n 64 32 32 eq_refl eq_refl eq_refl I I).
  - exact (down_sample_blk_shape 128 n 128 16 16 eq_refl eq_refl eq_refl I I).
  - exact (down_sample_blk_shape 128 n 128 8 8 eq_refl eq_refl eq_refl I I).
  - done.
Qed.

Lemma subscript_sizes i :
  (i < 5)%nat → ∃ size, subscript sizes i = Ok size ∧ length size = 2%nat.
Proof.
  intros Hi. destruct i as [|[|[|[|[|i]]]]]; [by eexists..|lia].
Qed.

Lemma subscript_ratios i :
  (i < 5)%nat → ∃ ratio, subscript ratios i = Ok ratio ∧ length ratio = 3%nat.
Proof.
  intros Hi. destruct i as [|[|[|[|[|i]]]]]; [by eexists..|lia].
Qed.

Lemma setitem_ok {A} (l : list A) i v :
  (i < length l)%nat → setitem l i v = Ok (<[i := v]> l).
Proof. intros. unfold setitem. by rewrite decide_True. Qed.

(** One iteration of [forward] on the object that [__init__] built. *)
Lemma forward_step_shape nc i (X : shape) anchors cls_preds bbox_preds n c h w :
  0 ≤ nc →
  (i < 5)%nat → call (get_blk i) X = Ok [n; c; h; w] → 0 < h → 0 < w →
  length anchors = 5%nat → length cls_preds = 5%nat →
  length bbox_preds = 5%nat →
  forward_step (TinySSD_init nc) (X, anchors, cls_preds, bbox_preds) i
  = Ok ([n; c; h; w],
        <[i := Some [1; h * w * 4; 4]]> anchors,
        <[i := Some [n; 4 * (nc + 1); h; w]]> cls_preds,
        <[i := Some [n; 16; h; w]]> bbox_preds).
Proof.
  intros Hnc Hi HY Hh Hw La Lc Lb. unfold forward_step.
  rewrite (getattr_Some _ _ _ (attrs_init_blk nc i Hi)),
    (getattr_Some _ _ _ (attrs_init_cls nc i Hi)),
    (getattr_Some _ _ _ (attrs_init_bbox nc i Hi)).
  destruct (subscript_sizes i Hi) as (size & -> & Hs).
  destruct (subscript_ratios i Hi) as (ratio & -> & Hr).
  cbn [mbind result_bind mret result_ret].
  rewrite (blk_forward_shape X _ size ratio nc n c h w) by done.
  cbn [mbind result_bind mret result_ret].
  rewrite !setitem_ok by lia. done.
Qed.

Lemma forward_shape nc n c :
  0 < n → 0 ≤ nc →
  forward (TinySSD_init nc) ([n; c; 256; 256] : shape)
  = Ok ([1; 5444; 4], [n; 5444; nc + 1], [n; 21776]).
Proof.
  intros Hn Hnc.
  destruct (get_blk_shapes n c) as (H0 & H1 & H2 & H3 & H4).
  unfold forward. rewrite num_classes_init.
  change (range 5) with [0; 1; 2; 3; 4]%nat. cbn [foldR].
  rewrite (forward_step_shape nc 0 _ _ _ _ n 64 32 32) by (done || lia).
  cbn [mbind result_bind mret result_ret].
  rewrite (forward_step_shape nc 1 _ _ _ _ n 128 16 16) by (done || lia).
  cbn [mbind result_bind mret result_ret].
  rewrite (forward_step_shape nc 2 _ _ _ _ n 128 8 8) by (done || lia).
  cbn [mbind result_bind mret result_ret].
  rewrite (forward_step_shape nc 3 _ _ _ _ n 128 4 4) by (done || lia).
  cbn [mbind result_bind mret result_ret].
  rewrite (forward_step_shape nc 4 _ _ _ _ n 128 1 1) by (done || lia).
  cbn [mbind result_bind mret result_ret].
  cbn [replicate insert list_insert].
  unfold forward_outputs. cbn [star mapR mbind result_bind mret result_ret].
  set (anchors := nd_concat _ 1).
  assert (anchors = Ok [1; 5444; 4]) as -> by done.
  cbn [mbind result_bind mret result_ret].
  pose proof (concat_preds_shape n (4 * (nc + 1), 32, 32)
    [(4 * (nc + 1), 16, 16); (4 * (nc + 1), 8, 8); (4 * (nc + 1), 4, 4);
     (4 * (nc + 1), 1, 1)]) as Hcls.
  pose proof (concat_preds_shape n (16, 32, 32)
    [(16, 16, 16); (16, 8, 8); (16, 4, 4); (16, 1, 1)]) as Hbbox.
  cbn [fmap list_fmap sumZ foldr] in Hcls, Hbbox. rewrite Hcls, Hbbox.
  cbn [mbind result_bind mret result_ret].
  replace (32 * 32 * (4 * (nc + 1)) + (16 * 16 * (4 * (nc + 1)) +
           (8 * 8 * (4 * (nc + 1)) + (4 * 4 * (4 * (nc + 1)) +
           (1 * 1 * (4 * (nc + 1)) + 0))))) with (5444 * (nc + 1)) by lia.
  change (nd_reshape ?s ?c) with (reshape s c).
  rewrite reshape_0_m1_shape by lia. done.
Qed.
End shape_forward.

(** C1: on a batch of 256x256 images the forward pass of [TinySSD] returns
    5444 anchor boxes, (32^2 + 16^2 + 8^2 + 4^2 + 1) * 4 with
    [num_anchors] = 2 + 3 - 1 = 4, and class predictions with 5444 entries
    along the middle dimension. *)
Theorem tinyssd_anchor_count :
  num_anchors = 4 ∧
  (32 * 32 + 16 * 16 + 8 * 8 + 4 * 4 + 1) * num_anchors = 5444 ∧
  ∀ num_classes N C, 0 < N → 0 ≤ num_classes →
    forward (TinySSD_init num_classes) ([N; C; 256; 256] : shape)
    = Ok ([1; 5444; 4], [N; 5444; num_classes + 1], [N; 21776]).
Proof.
  split; [done|]. split; [done|].
  intros nc N C HN Hnc. by apply forward_shape.
Qed.


(** ** Arrays with contents *)

(** An array is its shape and its items by multi-index; the items outside
    the shape are not looked at. *)
Record ndarray (A : Type) : Type := NDArray {
  shape_of : list Z;
  item : list Z → A;
}.
Arguments NDArray {A} shape_of item.
Arguments shape_of {A} _.
Arguments item {A} _ _.

(** The multi-index of the [j]th item, in row-major order, of an array of
    shape [dims], and back. *)
Fixpoint unravel (dims : list Z) (j : Z) : list Z :=
  match dims with
  | [] => []
  | d :: ds => j / size_of ds :: unravel ds (j `mod` size_of ds)
  end.

Fixpoint ravel (dims idx : list Z) : Z :=
  match dims, idx with
  | d :: ds, i :: idx => i * size_of ds + ravel ds idx
  | _, _ => 0
  end.

(** The position of axis [d] in [axes]. *)
Fixpoint index_of (d : nat) (axes : list nat) : nat :=
  match axes with
  | [] => 0
  | a :: axes => if decide (a = d) then 0 else S (index_of d axes)
  end.

Module Value.
Section ops.
Context {A : Type}.

(** The item at [idx] of the transposed array is the item of [x] whose
    axis [axes[k]] has the index [idx[k]]. *)
Definition transpose (x : ndarray A) (axes : list nat) : result (ndarray A) :=
  s ← Shape.transpose (shape_of x) axes;
  Ok (NDArray s (λ idx,
    item x ((λ d, idx !!! index_of d axes) <$> seq 0 (length axes)))).

Definition flatten (x : ndarray A) : result (ndarray A) :=
  s ← Shape.flatten (shape_of x);
  Ok (NDArray s (λ idx,
    match idx with
    | [i; j] => item x (i :: unravel (tail (shape_of x)) j)
    | _ => item x idx
    end)).

(** The item at [idx] of the concatenation of [x :: xs] along [dim]. *)
Fixpoint concat_item (x : ndarray A) (xs : list (ndarray A)) (dim : nat)
    (idx : list Z) : A :=
  match xs with
  | [] => item x idx
  | x' :: xs =>
      let d := shape_of x !!! dim in
      let k := idx !!! dim in
      if decide (k < d) then item x idx
      else concat_item x' xs dim (<[dim := k - d]> idx)
  end.

Definition concat (xs : list (ndarray A)) (dim : nat) : result (ndarray A) :=
  s ← Shape.concat (shape_of <$> xs) dim;
  match xs with
  | [] => Raise (MXNetError "concat: no input")%string
  | x :: xs => Ok (NDArray s (concat_item x xs dim))
  end.

Definition reshape (x : ndarray A) (codes : list Z) : result (ndarray A) :=
  s ← Shape.reshape (shape_of x) codes;
  Ok (NDArray s (λ idx, item x (unravel (shape_of x) (ravel s idx)))).

#[global] Instance value_nd_ops : NDArrayOps result (ndarray A) := {
  nd_transpose := transpose;
  nd_flatten := flatten;
  nd_concat := concat;
  nd_reshape := reshape;
}.
End ops.
End Value.

(** A 4-dimensional array from nested lists, for examples. *)
Definition of_list4 {A} `{Inhabited A} (l : list (list (list (list A)))) :
    ndarray A :=
  let l0 := l !!! 0%nat in
  let l00 := l0 !!! 0%nat in
  let l000 := l00 !!! 0%nat in
  NDArray
    [Z.of_nat (length l); Z.of_nat (length l0); Z.of_nat (length l00);
     Z.of_nat (length l000)]
    (λ idx,
       let a := l !!! Z.to_nat (idx !!! 0%nat) in
       let b := a !!! Z.to_nat (idx !!! 1%nat) in
       let c := b !!! Z.to_nat (idx !!! 2%nat) in
       c !!! Z.to_nat (idx !!! 3%nat)).

(** The rows of a matrix, for examples. *)
Definition to_list2 {A} (x : ndarray A) : list (list A) :=
  (λ i, (λ j, item x [Z.of_nat i; Z.of_nat j])
          <$> seq 0 (Z.to_nat (shape_of x !!! 1%nat)))
    <$> seq 0 (Z.to_nat (shape_of x !!! 0%nat)).

(** ** The layout of the concatenated predictions *)

Lemma mapR_Forall2 {A B} (f : A → result B) l l' :
  mapR f l = Ok l' ↔ Forall2 (λ x y, f x = Ok y) l l'.
Proof.
  revert l'. induction l as [|x l IH]; intros l'; cbn [mapR].
  - split; [intros [= <-]; constructor | by intros ->%Forall2_nil_inv_l].
  - destruct (f x) as [y|e] eqn:Hx; simpl_result.
    + destruct (mapR f l) as [ys|e] eqn:Hl; simpl_result.
      * split.
        -- intros [= <-]. constructor; [done|]. by apply IH.
        -- inversion 1 as [|? y' ? ys' Hy Hys]; subst.
           apply IH in Hys. congruence.
      * split; [done|]. inversion 1 as [|? y' ? ys' Hy Hys]; subst.
        apply IH in Hys. congruence.
    + split; [done|]. inversion 1; congruence.
Qed.

Lemma size_of_nonneg dims : Forall (λ d, 0 ≤ d) dims → 0 ≤ size_of dims.
Proof.
  induction 1 as [|d dims Hd _ IH]; [done|].
  change (0 ≤ d * size_of dims). by apply Z.mul_nonneg_nonneg.
Qed.

Lemma ravel_bounds dims idx :
  Forall2 (λ d i, 0 ≤ i < d) dims idx → 0 ≤ ravel dims idx < size_of dims.
Proof.
  induction 1 as [|d i dims idx Hi _ IH]; [done|].
  change (0 ≤ i * size_of dims + ravel dims idx < d * size_of dims). nia.
Qed.

(** [unravel] inverts [ravel] on the multi-indices of the shape. *)
Lemma unravel_ravel dims idx :
  Forall2 (λ d i, 0 ≤ i < d) dims idx → unravel dims (ravel dims idx) = idx.
Proof.
  induction 1 as [|d i dims idx Hi Hrest IH]; [done|].
  cbn [ravel unravel].
  pose proof (ravel_bounds _ _ Hrest) as Hb.
  rewrite Z.add_comm, Z.div_add, Z.mod_add by lia.
  rewrite Z.div_small, Z.mod_small by lia. cbn. by rewrite IH.
Qed.

Section layout.
Context {A : Type}.
Implicit Types x p q : ndarray A.

(** The flattened prediction: same batch index, and the item at position
    [j] of example [i] is the item of [x] at row [y], column [x'] and
    channel [ch] when [j] is the position of [(y, x', ch)] in row-major
    order. *)
Lemma flatten_pred_value x n c h w :
  shape_of x = [n; c; h; w] →
  ∃ q, flatten_pred x = Ok q ∧ shape_of q = [n; h * w * c] ∧
    ∀ i j, item q [i; j]
           = item x [i; unravel [h; w; c] j !!! 2%nat;
                     unravel [h; w; c] j !!! 0%nat;
                     unravel [h; w; c] j !!! 1%nat].
Proof.
  intros Hs. unfold flatten_pred.
  change (nd_transpose x ?a) with (Value.transpose x a).
  unfold Value.transpose. rewrite Hs, transpose_0231_shape.
  cbn [mbind result_bind mret result_ret].
  change (nd_flatten ?t) with (Value.flatten t).
  unfold Value.flatten. cbn [shape_of Shape.flatten mbind result_bind mret result_ret].
  eexists. split; [done|]. split.
  - cbn [shape_of size_of foldr]. do 2 f_equal. lia.
  - intros i j. cbn [item tail]. done.
Qed.

(** The second extent of a matrix. *)
Definition width q : Z := shape_of q !!! 1%nat.

(** In a concatenation along dimension 1, the [k]th matrix starts where
    the ones before it end. *)
Lemma concat_item_offset q0 qs k q i j :
  (q0 :: qs) !! k = Some q →
  Forall (λ q, 0 ≤ width q) (q0 :: qs) →
  0 ≤ j < width q →
  Value.concat_item q0 qs 1 [i; sumZ (width <$> take k (q0 :: qs)) + j]
  = item q [i; j].
Proof.
  revert q0 k. induction qs as [|q1 qs IH]; intros q0 k Hk Hwf Hj.
  - destruct k as [|k]; [|by destruct k].
    injection Hk as ->. cbn. by rewrite Z.add_0_l.
  - destruct k as [|k].
    + injection Hk as ->. cbn [take fmap list_fmap sumZ foldr Value.concat_item].
      rewrite Z.add_0_l. fold (width q).
      change ([i; j] !!! 1%nat) with j.
      by rewrite decide_True by lia.
    + cbn [lookup list_lookup] in Hk.
      apply Forall_cons in Hwf as [Hq0 Hwf].
      cbn [take fmap list_fmap sumZ foldr Value.concat_item].
      fold (width q0). fold (sumZ (width <$> take k (q1 :: qs))).
      set (off := sumZ (width <$> take k (q1 :: qs))).
      assert (0 ≤ off) as Hoff.
      { subst off. clear -Hwf.
        assert (Forall (λ q, 0 ≤ width q) (take k (q1 :: qs))) as Hwf'
          by by apply Forall_take.
        induction Hwf' as [|? ? ? ? IH']; cbn; [done|].
        fold (sumZ (width <$> l)). lia. }
      change ([i; width q0 + off + j] !!! 1%nat) with (width q0 + off + j).
      rewrite decide_False by lia.
      change (<[1%nat:=width q0 + off + j - width q0]> [i; width q0 + off + j])
        with [i; width q0 + off + j - width q0].
      replace (width q0 + off + j - width q0) with (off + j) by lia.
      by apply IH.
Qed.

(** The matrices [qs] are the flattened [preds], one by one. *)
Lemma flatten_preds_value N preds :
  Forall (λ p, ∃ c h w, shape_of p = [N; c; h; w]) preds →
  ∃ qs, mapR flatten_pred preds = Ok qs ∧
    Forall2 (λ p q, shape_of q = [N; pred_len (shape_of p)] ∧
                    flatten_pred p = Ok q) preds qs.
Proof.
  induction 1 as [|p preds (c & h & w & Hs) _ (qs & Hqs & IH)].
  - by exists [].
  - destruct (flatten_pred_value p N c h w Hs) as (q & Hq & Hsq & _).
    exists (q :: qs). cbn [mapR]. rewrite Hq, Hqs. split; [done|].
    constructor; [|done]. by rewrite Hs.
Qed.
End layout.

(** A per-scale prediction array for batch size [N]: four axes, the first
    of extent [N]. *)
Definition is_pred (N : Z) (s : list Z) : Prop :=
  ∃ c h w, s = [N; c; h; w] ∧ 0 ≤ c ∧ 0 ≤ h ∧ 0 ≤ w.

(** C4: for a non-empty list of 4-dimensional predictions of shapes
    (N, c_i, h_i, w_i), [concat_preds] returns a matrix of shape
    (N, sum_i h_i * w_i * c_i).  In row [n], the predictions of scale [k]
    start after those of the scales before it, and the item of channel [ch]
    at row [y] and column [x] of the feature map is at position
    (y * w + x) * c + ch: channel last, row-major, scales in list order. *)
Theorem concat_preds_layout {A} (preds : list (ndarray A)) (N : Z) :
  preds ≠ [] → Forall (λ p, is_pred N (shape_of p)) preds →
  ∃ r, concat_preds preds = Ok r ∧
    shape_of r = [N; sumZ (pred_len ∘ shape_of <$> preds)] ∧
    ∀ k p c h w, preds !! k = Some p → shape_of p = [N; c; h; w] →
      ∀ n y x ch, 0 ≤ y < h → 0 ≤ x < w → 0 ≤ ch < c →
        item r [n; sumZ (pred_len ∘ shape_of <$> take k preds)
                   + ((y * w + x) * c + ch)]
        = item p [n; ch; y; x].
Proof.
  intros Hne Hpreds.
  destruct (flatten_preds_value N preds) as (qs & Hqs & Hall).
  { eapply Forall_impl; [done|]. intros p (c & h & w & ? & _). eauto. }
  assert (shape_of <$> qs = (λ k, [N; k]) <$> (pred_len ∘ shape_of <$> preds))
    as Hshapes.
  { rewrite <- list_fmap_compose. clear -Hall.
    induction Hall as [|p q preds qs [Hq _] _ IH]; [done|].
    cbn [fmap list_fmap]. by rewrite Hq, IH. }
  assert (width <$> qs = pred_len ∘ shape_of <$> preds) as Hwidths.
  { clear -Hall. induction Hall as [|p q preds qs [Hq _] _ IH]; [done|].
    cbn [fmap list_fmap]. unfold width at 1. by rewrite Hq, IH. }
  assert (Forall (λ q, 0 ≤ width q) qs) as Hnonneg.
  { clear -Hall Hpreds.
    induction Hall as [|p q preds qs [Hq _] _ IH]; [done|].
    apply Forall_cons in Hpreds as [(c & h & w & Hs & ? & ? & ?) Hpreds].
    constructor; [|by apply IH].
    unfold width. rewrite Hq, Hs. cbn. nia. }
  unfold concat_preds. rewrite Hqs. cbn [mbind result_bind mret result_ret].
  change (nd_concat qs 1) with (Value.concat qs 1). unfold Value.concat.
  rewrite Hshapes.
  destruct preds as [|p0 preds]; [done|].
  destruct qs as [|q0 qs]; [by apply Forall2_length in Hall|].
  rewrite fmap_cons, concat_rows_shape, <- fmap_cons.
  cbn [mbind result_bind mret result_ret].
  eexists. split; [done|]. split; [done|].
  intros k p c h w Hk Hs n y x ch Hy Hx Hch. cbn [item].
  destruct (Forall2_lookup_l _ _ _ k p Hall Hk) as (q & Hq & Hsq & Hfq).
  destruct (flatten_pred_value p N c h w Hs) as (q' & Hfq' & _ & Hitem).
  assert (q' = q) as -> by congruence.
  rewrite fmap_take, <- Hwidths, <- fmap_take.
  assert (width q = h * w * c) as Hw by (unfold width; by rewrite Hsq, Hs).
  assert (0 ≤ (y * w + x) * c + ch < h * w * c) as Hj.
  { assert (0 ≤ y * w + x ≤ h * w - 1) by nia. nia. }
  rewrite (concat_item_offset q0 qs k q) by (done || by rewrite Hw).
  rewrite Hitem.
  replace ((y * w + x) * c + ch) with (ravel [h; w; c] [y; x; ch])
    by (cbn; lia).
  rewrite unravel_ravel by (repeat constructor; lia). done.
Qed.

(** ** The detector with an ordered collection of heads *)

(** The statically typed variant of [TinySSD]: the fifteen sub-layers are
    held as five (block, class predictor, bounding box predictor) triples,
    in the order of the scales. *)
Record TinySSD_seq : Type := {
  seq_num_classes : Z;
  heads : list (layer * layer * layer);
}.

Section forward_seq.
Context {m : Type → Type} `{!MRet m, !MBind m, !MRaise m}.
Context {T : Type} `{!NDArrayOps m T, !GluonOps m T}.

Definition forward_seq_step (st : T * list T * list T * list T)
    (head : nat * (layer * layer * layer)) :
    m (T * list T * list T * list T) :=
  let '(X, anchors, cls_preds, bbox_preds) := st in
  let '(i, (blk, cls, bbox)) := head in
  size ← subscript sizes i;
  ratio ← subscript ratios i;
  '(X, a, c, b) ← blk_forward X blk size ratio cls bbox;
  mret (X, anchors ++ [a], cls_preds ++ [c], bbox_preds ++ [b]).

(** The forward pass that iterates over the triples in index order. *)
Definition forward_seq (self : TinySSD_seq) (X : T) : m (T * T * T) :=
  '(X, anchors, cls_preds, bbox_preds) ←
    foldR forward_seq_step (imap pair (heads self)) (X, [], [], []);
  anchors ← nd_concat anchors 1;
  cls_preds ← concat_preds cls_preds;
  cls_preds ← nd_reshape cls_preds [0; -1; seq_num_classes self + 1];
  bbox_preds ← concat_preds bbox_preds;
  mret (anchors, cls_preds, bbox_preds).
End forward_seq.

(** [self] holds the triples of [hs] under the names [blk_i], [cls_i] and
    [bbox_i]. *)
Definition holds (self : TinySSD) (hs : list (layer * layer * layer)) : Prop :=
  ∀ i blk cls bbox, hs !! i = Some (blk, cls, bbox) →
    attrs self !! fmt_d "blk_" i = Some blk ∧
    attrs self !! fmt_d "cls_" i = Some cls ∧
    attrs self !! fmt_d "bbox_" i = Some bbox.

(** The triples that [TinySSD.__init__] registers. *)
Definition init_heads (num_classes : Z) : list (layer * layer * layer) :=
  (λ i, (get_blk i, cls_predictor num_anchors num_classes,
         bbox_predictor num_anchors)) <$> range 5.

Lemma holds_init nc : holds (TinySSD_init nc) (init_heads nc).
Proof.
  intros i blk cls bbox Hi.
  assert (i < 5)%nat as Hlt by (apply lookup_lt_Some in Hi; done).
  unfold init_heads in Hi. rewrite list_lookup_fmap in Hi.
  unfold range in Hi. rewrite lookup_seq_lt in Hi by done.
  injection Hi as <- <- <-.
  by rewrite attrs_init_blk, attrs_init_cls, attrs_init_bbox.
Qed.

Section refinement.
Context {m : Type → Type} `{!MRet m, !MBind m, !MRaise m, !MonadLaws m}.
Context {T : Type} `{!NDArrayOps m T, !GluonOps m T}.

(** The list [[None] * 5] of [forward] once its first entries are
    assigned: the link between the two loop states. *)
Definition pad (l : list T) : list (option T) :=
  (Some <$> l) ++ replicate (5 - length l) None.

Definition pad_state (st : T * list T * list T * list T) :
    T * list (option T) * list (option T) * list (option T) :=
  let '(X, anchors, cls_preds, bbox_preds) := st in
  (X, pad anchors, pad cls_preds, pad bbox_preds).

(** The three lists of the loop state have [k] entries. *)
Definition state_lengths (st : T * list T * list T * list T) (k : nat) :=
  let '(_, anchors, cls_preds, bbox_preds) := st in
  length anchors = k ∧ length cls_preds = k ∧ length bbox_preds = k.

Lemma setitem_pad l i (a : T) :
  length l = i → (i < 5)%nat →
  setitem (m:=m) (pad l) i (Some a) = mret (pad (l ++ [a])).
Proof.
  intros <- Hl. unfold setitem, pad.
  rewrite decide_True
    by (rewrite length_app, length_fmap, length_replicate; lia).
  f_equal. rewrite length_app. cbn [length].
  replace (5 - length l)%nat with (S (5 - (length l + 1))) by lia.
  cbn [replicate].
  rewrite insert_app_r_alt by (rewrite length_fmap; lia).
  rewrite length_fmap, Nat.sub_diag. cbn [insert list_insert].
  by rewrite fmap_app, <- app_assoc.
Qed.

Lemma star_Some (l : list T) : star (m:=m) (Some <$> l) = mret l.
Proof.
  unfold star. induction l as [|x l IH]; [done|].
  rewrite fmap_cons. cbn [mapR]. by rewrite mbind_ret_l, IH, mbind_ret_l.
Qed.

Lemma star_pad (l : list T) : length l = 5%nat → star (m:=m) (pad l) = mret l.
Proof.
  intros Hl. unfold pad. rewrite Hl. cbn [Nat.sub replicate].
  rewrite app_nil_r. apply star_Some.
Qed.

(** One iteration of the two loops, from linked states, followed by the
    rest of the computation. *)
Lemma forward_step_sim {B} self i blk cls bbox st
    (K : _ → m B) (K' : _ → m B) :
  attrs self !! fmt_d "blk_" i = Some blk →
  attrs self !! fmt_d "cls_" i = Some cls →
  attrs self !! fmt_d "bbox_" i = Some bbox →
  (i < 5)%nat → state_lengths st i →
  (∀ st', state_lengths st' (S i) → K (pad_state st') = K' st') →
  forward_step self (pad_state st) i ≫= K
  = forward_seq_step st (i, (blk, cls, bbox)) ≫= K'.
Proof.
  intros Hblk Hcls Hbbox Hi Hst HK.
  destruct st as [[[X al] cl] bl]. destruct Hst as (La & Lc & Lb).
  unfold forward_step, forward_seq_step, pad_state.
  rewrite (getattr_Some _ _ _ Hblk), (getattr_Some _ _ _ Hcls),
    (getattr_Some _ _ _ Hbbox).
  rewrite mbind_ret_l, !mbind_assoc. apply mbind_ext. intros size.
  rewrite !mbind_assoc. apply mbind_ext. intros ratio.
  rewrite !mbind_ret_l, !mbind_assoc. apply mbind_ext.
  intros [[[Y a] c] b].
  rewrite !setitem_pad by done. rewrite !mbind_ret_l.
  apply (HK (Y, al ++ [a], cl ++ [c], bl ++ [b])).
  cbn. rewrite !length_app. cbn. lia.
Qed.


(** The two loops, from linked states, over the heads from [k] on, followed
    by the rest of the computation. *)
Lemma forward_loop_sim {B} self hs k st (K : _ → m B) (K' : _ → m B) :
  (∀ j blk cls bbox, hs !! j = Some (blk, cls, bbox) →
     attrs self !! fmt_d "blk_" (k + j) = Some blk ∧
     attrs self !! fmt_d "cls_" (k + j) = Some cls ∧
     attrs self !! fmt_d "bbox_" (k + j) = Some bbox) →
  (k + length hs ≤ 5)%nat → state_lengths st k →
  (∀ st', state_lengths st' (k + length hs) → K (pad_state st') = K' st') →
  foldR (forward_step self) (seq k (length hs)) (pad_state st) ≫= K
  = foldR forward_seq_step (imap (λ j, pair (k + j)%nat) hs) st ≫= K'.
Proof.
  revert k st. induction hs as [|[[blk cls] bbox] hs IH];
    intros k st Hattrs Hk Hst HK.
  - cbn [length seq imap foldR]. rewrite !mbind_ret_l.
    apply HK. by rewrite Nat.add_0_r.
  - cbn [length seq imap foldR]. rewrite Nat.add_0_r, !mbind_assoc.
    destruct (Hattrs 0%nat blk cls bbox eq_refl) as (Hb & Hc & Hx).
    rewrite Nat.add_0_r in Hb, Hc, Hx. cbn [length] in Hk.
    apply forward_step_sim; [done|done|done|lia|done|].
    intros st' Hst'.
    rewrite (imap_ext _ (λ j, pair (S k + j)%nat) hs)
      by (intros j ? _; cbn; f_equal; lia).
    apply IH; [|lia|done|].
    + intros j blk' cls' bbox' Hj.
      replace (S k + j)%nat with (k + S j)%nat by lia. by apply Hattrs.
    + intros st'' Hst''. apply HK. cbn [length].
      by replace (k + S (length hs))%nat with (S k + length hs)%nat by lia.
Qed.

Lemma forward_seq_refines (self : TinySSD) hs (X : T) :
  length hs = 5%nat → holds self hs →
  forward self X
  = forward_seq {| seq_num_classes := num_classes self; heads := hs |} X.
Proof.
  intros Hlen Hholds.
  unfold forward, forward_seq. cbn [heads seq_num_classes].
  pose proof (forward_loop_sim (B:=T * T * T) self hs 0 (X, [], [], []))
    as Hloop.
  rewrite Hlen in Hloop. unfold range.
  change (X, replicate 5 None, replicate 5 None, replicate 5 None)
    with (pad_state (X, [], [], [])).
  apply Hloop; [done|lia|done|].
  intros [[[Y al] cl] bl] (La & Lc & Lb). cbn [pad_state].
  unfold forward_outputs.
  rewrite (star_pad al), (star_pad cl), (star_pad bl) by done.
  rewrite mbind_ret_l. apply mbind_ext. intros anchors.
  rewrite mbind_ret_l. apply mbind_ext. intros cls_preds.
  apply mbind_ext. intros cls_preds'. by rewrite mbind_ret_l.
Qed.
End refinement.

(** C5: the forward pass that reads its heads with [getattr] from the
    attributes [blk_i], [cls_i] and [bbox_i] is, on every input, the same
    computation as the forward pass over the same fifteen sub-layers held
    as an ordered collection of five triples: the same library calls in the
    same order, hence the same triple of anchors, class predictions and
    bounding box predictions, or the same exception.  This holds for every
    library, with or without state: [m] is any monad that satisfies the
    monad laws. *)
Theorem getattr_model_refines_ordered_collection
    {m : Type → Type} `{!MRet m, !MBind m, !MRaise m, !MonadLaws m}
    {T : Type} `{!NDArrayOps m T, !GluonOps m T}
    (self : TinySSD) (hs : list (layer * layer * layer)) :
  length hs = 5%nat → holds self hs →
  ∀ X : T,
    forward self X
    = forward_seq {| seq_num_classes := num_classes self; heads := hs |} X.
Proof. intros Hlen Hholds X. by apply forward_seq_refines. Qed.

(** ** softmax-regression-scratch.ipynb: softmax *)

(** Elementwise operations with broadcasting along one axis: the extents are
    equal, or one of them is 1. *)
Definition broadcast {A B C} (f : A → B → result C)
    (l1 : list A) (l2 : list B) : result (list C) :=
  if decide (length l1 = length l2) then mapR (λ '(a, b), f a b) (zip l1 l2)
  else match l2 with
       | [b] => mapR (λ a, f a b) l1
       | _ =>
           match l1 with
           | [a] => mapR (f a) l2
           | _ => Raise (MXNetError "broadcast")%string
           end
       end.

Lemma broadcast_same_length {A B C} (f : A → B → result C) l1 l2 :
  length l1 = length l2 →
  broadcast f l1 l2 = mapR (λ '(a, b), f a b) (zip l1 l2).
Proof. intros Hlen. unfold broadcast. by rewrite decide_True. Qed.

Lemma mapR_pure {A B} (f : A → B) (l : list A) :
  mapR (λ a, Ok (f a)) l = Ok (f <$> l).
Proof.
  induction l as [|a l IH]; [done|]. cbn [mapR]. rewrite IH. done.
Qed.

(** A floating-point number as the number it stands for: a real number, an
    infinity, or not a number. *)
Inductive xreal : Type :=
| Finite (x : R)
| PosInf
| NegInf
| NaN.

Definition Rsum (l : list R) : R := foldr Rplus 0%R l.

(** ** Floating-point numbers *)

(** The arrays of the notebook hold float32 numbers.  [F] is the type of
    the numbers, with the operations of the library on them that [softmax]
    uses. *)
Class FloatOps (F : Type) : Type := {
  (** the number that a float stands for *)
  f_real : F → xreal;
  (** [exp] *)
  f_exp : F → F;
  (** the sum of the items of an axis, in the order in which the library
      adds them up *)
  f_sum : list F → F;
  (** [x / y] *)
  f_div : F → F → F;
}.

(** IEEE 754 binary32, the float32 of MXNet: the numbers and the rounded
    operations of the Standard Library's [SpecFloat], at a precision of 24
    bits. *)
Module Binary32.

Definition prec : Z := 24.
Definition emax : Z := 128.

(** The float next to the integer [z]. *)
Definition of_Z (z : Z) : spec_float := binary_normalize prec emax z 0 false.
Definition add : spec_float → spec_float → spec_float := SFadd prec emax.
Definition div : spec_float → spec_float → spec_float := SFdiv prec emax.

(** The sum of a row, from left to right.  MXNet may add the items up in
    another order, and the last bit of the sum may depend on it. *)
Definition sum (row : list spec_float) : spec_float :=
  fold_left add row (S754_zero false).

Definition to_xreal (x : spec_float) : xreal :=
  match x with
  | S754_zero _ => Finite 0
  | S754_infinity false => PosInf
  | S754_infinity true => NegInf
  | S754_nan => NaN
  | S754_finite s m e =>
      Finite (IZR (if s then Z.neg m else Z.pos m) * powerRZ 2 e)
  end.

(** The exponential.  Its special values are those of every
    implementation: exp(nan) = nan, exp(+inf) = +inf, exp(-inf) = 0,
    exp(0) = 1, +inf from 89 on (e^89 is greater than the greatest float,
    3.4e38) and 0 up to -104 (e^-104 is less than half the least float,
    1.4e-45).  In between, the series of the exponential is added up in
    fixed-point arithmetic with 96 binary places and the sum is rounded; an
    implementation of [exp] in a C library may differ from it in the last
    bit. *)
Definition bits : Z := 96.

(** [acc] plus the [n] terms of the series of exp(t / 2^bits) from the
    [k]th on, in units of 2^-bits; [term] is the term before. *)
Fixpoint exp_series (n : nat) (k term acc t : Z) : Z :=
  match n with
  | O => acc
  | S n =>
      let term := term * t / (k * 2 ^ bits) in
      exp_series n (k + 1) term (acc + term) t
  end.

(** exp(a / 2^bits) for a >= 0, in units of 2^-bits: the 256th power of
    exp(a / 2^bits / 256). *)
Definition exp_fixed (a : Z) : Z :=
  let r := exp_series 30 1 (2 ^ bits) (2 ^ bits) (a / 2 ^ 8) in
  Nat.iter 8 (λ r, r * r / 2 ^ bits) r.

Definition exp (x : spec_float) : spec_float :=
  match x with
  | S754_nan => S754_nan
  | S754_infinity false => S754_infinity false
  | S754_infinity true => S754_zero false
  | S754_zero _ => of_Z 1
  | S754_finite s m e =>
      if SFleb (of_Z 89) x then S754_infinity false
      else if SFleb x (of_Z (-104)) then S754_zero false
      else
        let a := if decide (0 ≤ e + bits) then Z.pos m * 2 ^ (e + bits)
                 else Z.pos m / 2 ^ (- (e + bits)) in
        let v := exp_fixed a in
        if s then binary_normalize prec emax (2 ^ (bits + 400) / v) (-400) false
        else binary_normalize prec emax v (- bits) false
  end.

#[global] Instance float_ops : FloatOps spec_float := {
  f_real := to_xreal;
  f_exp := exp;
  f_sum := sum;
  f_div := div;
}.
End Binary32.


Section softmax.
Context {F : Type} `{!FloatOps F}.

(** [X.exp()] *)
Definition nd_exp (X : list (list F)) : list (list F) :=
  (λ row : list F, f_exp <$> row) <$> X.

(** [X.sum(axis=1, keepdims=True)] *)
Definition nd_sum_axis1_keepdims (X : list (list F)) : list (list F) :=
  (λ row : list F, [f_sum row]) <$> X.

(** [X / Y] on matrices *)
Definition nd_div (X Y : list (list F)) : result (list (list F)) :=
  broadcast (broadcast (λ x y, Ok (f_div x y))) X Y.

Definition softmax (X : list (list F)) : result (list (list F)) :=
  let X_exp := nd_exp X in
  let partition := nd_sum_axis1_keepdims X_exp in
  nd_div X_exp partition.

(** A row divided by a single number. *)
Lemma broadcast_row_div (row : list F) (s : F) :
  broadcast (λ x y, Ok (f_div x y)) row [s] = Ok ((λ x, f_div x s) <$> row).
Proof.
  unfold broadcast. case_decide as Hlen.
  - destruct row as [|x [|]]; done.
  - apply (mapR_pure (λ x, f_div x s)).
Qed.

Lemma nd_div_rows (X : list (list F)) :
  nd_div X (nd_sum_axis1_keepdims X)
  = Ok ((λ row : list F, (λ x, f_div x (f_sum row)) <$> row) <$> X).
Proof.
  unfold nd_div, nd_sum_axis1_keepdims.
  rewrite broadcast_same_length by by rewrite length_fmap.
  induction X as [|row X IH]; [done|].
  rewrite !fmap_cons. cbn [zip zip_with mapR].
  rewrite broadcast_row_div. simpl_result. by rewrite IH.
Qed.

(** [softmax] by rows. *)
Lemma softmax_rows (X : list (list F)) :
  softmax X
  = Ok ((λ row : list F,
           (λ x, f_div (f_exp x) (f_sum (f_exp <$> row))) <$> row) <$> X).
Proof.
  unfold softmax. cbv zeta. rewrite nd_div_rows. f_equal.
  unfold nd_exp. rewrite <- list_fmap_compose.
  apply list_fmap_ext. intros _ row _. cbn.
  by rewrite <- list_fmap_compose.
Qed.

Local Open Scope R_scope.

(** The float [x] is the real number [v]. *)
Definition is_real (x : F) (v : R) : Prop := f_real x = Finite v.

(** A row that is a probability distribution: real numbers that are not
    negative and add up to 1. *)
Definition distribution (row : list F) : Prop :=
  ∃ ps : list R, Forall2 is_real row ps ∧ Forall (λ p, 0 <= p) ps ∧
    Rsum ps = 1.

(** The sum of the exponentials of a row as the library returns it, from
    the value [e] of each exponential and its relative error [θ] in the
    sum. *)
Definition rounded_sum (errs : list (R * R * R)) : R :=
  Rsum ((λ '(e, θ, _), e * (1 + θ)) <$> errs).

(** The operations of [softmax] stay in range on the row [row], with
    relative errors of at most [γ] in the sum and [u] in a quotient: for
    each item [x] there are a real number [e] > 0 and errors [θ] and [ε]
    such that the library's exp(x) is [e]; the sum of the exponentials is
    the sum of the numbers e (1 + θ); and the quotient of exp(x) and the sum
    is their exact quotient times 1 + ε. *)
Definition in_range (u γ : R) (row : list F) : Prop :=
  ∃ errs : list (R * R * R),
    is_real (f_sum (f_exp <$> row)) (rounded_sum errs) ∧
    Forall2 (λ x '(e, θ, ε),
        0 < e ∧ Rabs θ <= γ ∧ Rabs ε <= u ∧ is_real (f_exp x) e ∧
        is_real (f_div (f_exp x) (f_sum (f_exp <$> row)))
          (e / rounded_sum errs * (1 + ε)))
      row errs.

Lemma Rabs_bound (x a : R) : Rabs x <= a → - a <= x <= a.
Proof. unfold Rabs. destruct (Rcase_abs x); lra. Qed.

Lemma rounded_sums (u γ : R) (errs : list (R * R * R)) :
  Forall (λ '(e, θ, ε), 0 < e ∧ Rabs θ <= γ ∧ Rabs ε <= u) errs →
  let E := Rsum ((λ '(e, _, _), e) <$> errs) in
  0 <= E ∧ (errs ≠ [] → 0 < E) ∧
  (1 - γ) * E <= rounded_sum errs <= (1 + γ) * E ∧
  (1 - u) * E <= Rsum ((λ '(e, _, ε), e * (1 + ε)) <$> errs) <= (1 + u) * E.
Proof.
  unfold rounded_sum, Rsum.
  induction 1 as [|[[e θ] ε] errs (He & Hθ & Hε) _ IH];
    cbn [fmap list_fmap foldr].
  { split; [lra|]. split; [done|]. lra. }
  cbn zeta in IH. destruct IH as (HE & _ & Hs & Hq).
  apply Rabs_bound in Hθ, Hε.
  set (E := foldr Rplus 0 ((λ '(e, _, _), e) <$> errs)) in *.
  set (s := foldr Rplus 0 ((λ '(e, θ, _), e * (1 + θ)) <$> errs)) in *.
  set (q := foldr Rplus 0 ((λ '(e, _, ε), e * (1 + ε)) <$> errs)) in *.
  split; [lra|]. split; [intros _; lra|]. split; nra.
Qed.

Lemma Rsum_scale (l : list (R * R * R)) (s : R) :
  Rsum ((λ '(e, _, ε), e / s * (1 + ε)) <$> l)
  = Rsum ((λ '(e, _, ε), e * (1 + ε)) <$> l) / s.
Proof.
  induction l as [|[[e θ] ε] l IH]; cbn; [lra|].
  unfold Rsum in IH. rewrite IH. lra.
Qed.

Lemma quotient_bounds (u γ E a s : R) :
  0 <= u < 1 → 0 <= γ < 1 → 0 < E →
  (1 - γ) * E <= s <= (1 + γ) * E → (1 - u) * E <= a <= (1 + u) * E →
  0 < s ∧ (1 - u) / (1 + γ) <= a / s <= (1 + u) / (1 - γ).
Proof.
  intros Hu Hγ HE Hs Ha.
  assert (0 < s) as Hpos by nra.
  split; [done|]. split.
  - apply (Rmult_le_reg_r (s * (1 + γ))); [nra|].
    replace ((1 - u) / (1 + γ) * (s * (1 + γ))) with ((1 - u) * s)
      by (field; lra).
    replace (a / s * (s * (1 + γ))) with (a * (1 + γ)) by (field; lra).
    nra.
  - apply (Rmult_le_reg_r (s * (1 - γ))); [nra|].
    replace ((1 + u) / (1 - γ) * (s * (1 - γ))) with ((1 + u) * s)
      by (field; lra).
    replace (a / s * (s * (1 - γ))) with (a * (1 - γ)) by (field; lra).
    nra.
Qed.

Lemma softmax_row_in_range (u γ : R) (row : list F) :
  0 <= u < 1 → 0 <= γ < 1 → row ≠ [] → in_range u γ row →
  ∃ ps : list R,
    Forall2 is_real
      ((λ x, f_div (f_exp x) (f_sum (f_exp <$> row))) <$> row) ps ∧
    length ps = length row ∧ Forall (λ p, 0 < p) ps ∧
    (1 - u) / (1 + γ) <= Rsum ps <= (1 + u) / (1 - γ).
Proof.
  intros Hu Hγ Hne (errs & Hsum & Hrow).
  set (s := rounded_sum errs) in *.
  assert (Forall (λ '(e, θ, ε), 0 < e ∧ Rabs θ <= γ ∧ Rabs ε <= u) errs)
    as Herrs.
  { apply Forall_forall. intros [[e θ] ε] [i Hi]%list_elem_of_lookup.
    destruct (Forall2_lookup_r _ _ _ i _ Hrow Hi) as (x & _ & Hx).
    cbn in Hx. tauto. }
  assert (errs ≠ []) as Hne'.
  { intros ->. apply Forall2_nil_inv_r in Hrow. done. }
  destruct (rounded_sums u γ errs Herrs) as (_ & HE & Hs & Hq).
  specialize (HE Hne'). fold s in Hs.
  destruct (quotient_bounds u γ _ _ s Hu Hγ HE Hs Hq) as [Hpos Hbounds].
  exists ((λ '(e, _, ε), e / s * (1 + ε)) <$> errs).
  split; [|split; [|split]].
  - apply Forall2_fmap. eapply Forall2_impl; [exact Hrow|].
    intros x [[e θ] ε] (_ & _ & _ & _ & Hx). exact Hx.
  - rewrite length_fmap. symmetry. by eapply Forall2_length.
  - apply Forall_fmap. eapply Forall_impl; [exact Herrs|].
    intros [[e θ] ε] (He & _ & Hε). cbn. apply Rabs_bound in Hε.
    apply Rmult_lt_0_compat; [by apply Rdiv_lt_0_compat|lra].
  - rewrite Rsum_scale. exact Hbounds.
Qed.
End softmax.


Definition third : spec_float := S754_finite false 11184811 (-25).


(** ** softmax-regression-scratch.ipynb: accuracy *)

(** The scores are float32 numbers and the labels integers.  A finite
    float32 number is a rational number, and the scores are modelled as
    rationals: [argmax] only compares them.  The indices that [argmax]
    returns and the labels after [astype('float32')] are float32 numbers
    too, and float32 has 24 bits for an integer: from 2^24 on, an integer is
    rounded to the float next to it. *)

(** The float32 number next to the integer [z], which is an integer again:
    [z] itself below 2^24, and else [z] rounded to 24 leading bits, a tie
    to the even one.  (From 2^128 on float32 has infinity; the indices and
    labels of an array, 64-bit integers at most, do not get there.) *)
Definition float32_of_Z (z : Z) : Z :=
  let a := Z.abs z in
  if decide (a < 2 ^ 24) then z
  else
    let e := Z.log2 a - 23 in
    let q := a / 2 ^ e in
    let r := a `mod` 2 ^ e in
    let half := 2 ^ (e - 1) in
    let m := if decide (r < half) then q
             else if decide (half < r) then q + 1
             else if Z.even q then q else q + 1 in
    Z.sgn z * (m * 2 ^ e).

(** [argmax_from best best_i i row] continues the search for the first
    maximum in [row], whose first entry has index [i], when the maximum so
    far is [best], at [best_i]. *)
Fixpoint argmax_from (best : Q) (best_i i : nat) (row : list Q) : nat :=
  match row with
  | [] => best_i
  | x :: row =>
      if Qlt_le_dec best x then argmax_from x i (S i) row
      else argmax_from best best_i (S i) row
  end.

(** The index of the first maximum of a row. *)
Definition argmax (row : list Q) : result nat :=
  match row with
  | [] => Raise (MXNetError "argmax: empty axis")%string
  | x :: row => Ok (argmax_from x 0 1 row)
  end.

(** [y_hat.argmax(axis=1)]: the indices, as float32 numbers *)
Definition nd_argmax_axis1 (y_hat : list (list Q)) : result (list Q) :=
  mapR (λ row, i ← argmax row; Ok (inject_Z (float32_of_Z (Z.of_nat i))))
    y_hat.

(** [y.astype('float32')] *)
Definition astype_float32 (y : list Z) : list Q :=
  (λ z, inject_Z (float32_of_Z z)) <$> y.

(** [a == b]: 1 where the entries are equal and 0 elsewhere *)
Definition nd_eq (a b : list Q) : result (list Q) :=
  broadcast (λ x y, Ok (if Qeq_bool x y then 1 else 0)%Q) a b.

Definition Qsum (l : list Q) : Q := foldr Qplus 0%Q l.

(** [a.mean().asscalar()], for an array of at most 2^24 items that are 0
    or 1: their float32 sum is then their sum.  The quotient is exact here;
    float32 has the float next to it, which differs from it by a factor of
    at most 1 + 2^-24. *)
Definition nd_mean (a : list Q) : Q :=
  (Qsum a / inject_Z (Z.of_nat (length a)))%Q.

Definition accuracy (y_hat : list (list Q)) (y : list Z) : result Q :=
  p ← nd_argmax_axis1 y_hat;
  e ← nd_eq p (astype_float32 y);
  Ok (nd_mean e).

(** [i] is the argmax index of [row]: the position of its first maximum. *)
Definition is_argmax (row : list Q) (i : nat) : Prop :=
  ∃ v, row !! i = Some v ∧
    (∀ j w, row !! j = Some w → (w <= v)%Q) ∧
    (∀ j w, (j < i)%nat → row !! j = Some w → (w < v)%Q).

(** The number of rows whose predicted class is the label. *)
Definition correct (preds : list nat) (y : list Z) : nat :=
  length (filter (λ '(p, label), Z.of_nat p = label) (zip preds y)).

Lemma argmax_from_spec (pre row : list Q) best best_i :
  pre !! best_i = Some best →
  (∀ j w, pre !! j = Some w → (w <= best)%Q) →
  (∀ j w, (j < best_i)%nat → pre !! j = Some w → (w < best)%Q) →
  is_argmax (pre ++ row) (argmax_from best best_i (length pre) row).
Proof.
  revert pre best best_i. induction row as [|x row IH];
    intros pre best best_i Hbest Hmax Hfirst.
  - cbn. rewrite app_nil_r. by exists best.
  - cbn [argmax_from]. replace (pre ++ x :: row) with ((pre ++ [x]) ++ row)
      by by rewrite <- app_assoc.
    replace (S (length pre)) with (length (pre ++ [x]))
      by (rewrite length_app; cbn; lia).
    destruct (Qlt_le_dec best x) as [Hlt|Hle]; apply IH.
    + rewrite lookup_app_r by lia. by rewrite Nat.sub_diag.
    + intros j w Hj. apply lookup_app_Some in Hj as [Hj|[_ Hj]].
      * apply Qlt_le_weak. eapply Qle_lt_trans; [by eapply Hmax|done].
      * destruct (j - length pre)%nat as [|[|]]; [|done..].
        injection Hj as <-. apply Qle_refl.
    + intros j w Hj Hw. rewrite lookup_app_l in Hw by lia.
      eapply Qle_lt_trans; [by eapply Hmax|done].
    + rewrite lookup_app_l; [done|]. by eapply lookup_lt_Some.
    + intros j w Hj. apply lookup_app_Some in Hj as [Hj|[_ Hj]].
      * by eapply Hmax.
      * destruct (j - length pre)%nat as [|[|]]; [|done..].
        by injection Hj as <-.
    + intros j w Hj Hw. apply Hfirst with j; [done|].
      rewrite lookup_app_l in Hw; [done|].
      apply lookup_lt_Some in Hbest. lia.
Qed.

Lemma argmax_spec (row : list Q) :
  row ≠ [] → ∃ i, argmax row = Ok i ∧ is_argmax row i.
Proof.
  destruct row as [|x row]; [done|]. intros _.
  eexists. split; [done|].
  apply (argmax_from_spec [x] row x 0).
  - done.
  - intros [|[|]] w; [|done..]. intros [= <-]. apply Qle_refl.
  - intros j w Hj. lia.
Qed.

Lemma nd_argmax_axis1_spec (y_hat : list (list Q)) :
  Forall (λ row, row ≠ []) y_hat →
  ∃ preds, Forall2 is_argmax y_hat preds ∧
    nd_argmax_axis1 y_hat
    = Ok ((λ i, inject_Z (float32_of_Z (Z.of_nat i))) <$> preds).
Proof.
  induction 1 as [|row y_hat Hrow _ (preds & Hpreds & IH)].
  - by exists [].
  - destruct (argmax_spec row Hrow) as (i & Hi & Hspec).
    exists (i :: preds). split; [by constructor|].
    unfold nd_argmax_axis1 in *. cbn [mapR]. rewrite Hi, IH. done.
Qed.

Lemma mapR_pure_pair {A B C} (f : A → B → C) (l : list (A * B)) :
  mapR (λ '(a, b), Ok (f a b)) l = Ok ((λ '(a, b), f a b) <$> l).
Proof.
  induction l as [|[a b] l IH]; [done|]. cbn [mapR]. rewrite IH. done.
Qed.

(** Below 2^24 the conversion to float32 is exact, and no other integer is
    converted to the same float. *)
Lemma float32_of_Z_small z : Z.abs z < 2 ^ 24 → float32_of_Z z = z.
Proof. intros Hz. unfold float32_of_Z. by rewrite decide_True. Qed.

Lemma float32_of_Z_large z :
  2 ^ 24 ≤ Z.abs z → 2 ^ 24 ≤ Z.abs (float32_of_Z z).
Proof.
  intros Hz. unfold float32_of_Z. rewrite decide_False by lia. cbv zeta.
  set (a := Z.abs z) in *. set (e := Z.log2 a - 23).
  assert (24 ≤ Z.log2 a) as Hlog.
  { change 24 with (Z.log2 (2 ^ 24)). by apply Z.log2_le_mono. }
  assert (1 ≤ e) as He by (unfold e; lia).
  destruct (Z.log2_spec a) as [Hlo _]; [lia|].
  assert (2 ^ 23 * 2 ^ e ≤ a) as Hb.
  { rewrite <- Z.pow_add_r by lia.
    by replace (23 + e) with (Z.log2 a) by (unfold e; lia). }
  assert (0 < 2 ^ e) as Hpe by (apply Z.pow_pos_nonneg; lia).
  assert (2 ^ 23 ≤ a / 2 ^ e) as Hq
    by (apply Z.div_le_lower_bound; lia).
  set (q := a / 2 ^ e) in *.
  set (m := if decide (a `mod` 2 ^ e < 2 ^ (e - 1)) then q
            else if decide (2 ^ (e - 1) < a `mod` 2 ^ e) then q + 1
            else if Z.even q then q else q + 1).
  assert (q ≤ m) as Hm.
  { unfold m. repeat case_decide; try lia. destruct (Z.even q); lia. }
  assert (2 ≤ 2 ^ e) as H2e.
  { change 2 with (2 ^ 1) at 1. apply Z.pow_le_mono_r; lia. }
  rewrite Z.abs_mul.
  assert (Z.abs (Z.sgn z) = 1) as -> by lia.
  rewrite Z.mul_1_l, Z.abs_eq by nia. nia.
Qed.

Lemma float32_of_Z_eq i y :
  0 ≤ i < 2 ^ 24 → float32_of_Z i = float32_of_Z y ↔ i = y.
Proof.
  intros Hi. split; [|by intros ->].
  rewrite (float32_of_Z_small i) by lia.
  destruct (decide (Z.abs y < 2 ^ 24)) as [Hy|Hy].
  - by rewrite (float32_of_Z_small y).
  - pose proof (float32_of_Z_large y). lia.
Qed.

(** The sum of the 0/1 outcomes of [==] counts the equal entries. *)
Lemma Qsum_eq_count (preds : list nat) (y : list Z) :
  Forall (λ p, Z.of_nat p < 2 ^ 24) preds →
  (Qsum ((λ '(a, b), if Qeq_bool a b then 1 else 0)
           <$> zip ((λ i, inject_Z (float32_of_Z (Z.of_nat i))) <$> preds)
                 (astype_float32 y))
   == inject_Z (Z.of_nat (correct preds y)))%Q.
Proof.
  unfold correct, astype_float32. intros Hpreds. revert y.
  induction Hpreds as [|p preds Hp _ IH]; intros [|label y]; try reflexivity.
  rewrite !fmap_cons. cbn [zip zip_with fmap list_fmap Qsum foldr].
  fold (Qsum ((λ '(a, b), if Qeq_bool a b then 1%Q else 0%Q)
           <$> zip ((λ i, inject_Z (float32_of_Z (Z.of_nat i))) <$> preds)
                 ((λ z, inject_Z (float32_of_Z z)) <$> y))).
  rewrite IH. clear IH.
  destruct (decide (Z.of_nat p = label)) as [Heq|Hne].
  - rewrite filter_cons_True by done. rewrite Heq.
    rewrite (proj2 (Qeq_bool_iff _ _) (Qeq_refl _)).
    cbn [length]. rewrite Nat2Z.inj_succ, <- Z.add_1_l, inject_Z_plus.
    reflexivity.
  - rewrite filter_cons_False by done.
    destruct (Qeq_bool (inject_Z (float32_of_Z (Z.of_nat p)))
                (inject_Z (float32_of_Z label))) eqn:E.
    + apply Qeq_bool_iff in E. rewrite inject_Z_injective in E.
      assert (0 ≤ Z.of_nat p < 2 ^ 24) as Hr by lia.
      by apply (proj1 (float32_of_Z_eq _ _ Hr)) in E.
    + apply Qplus_0_l.
Qed.

(** The argmax index of a row is less than its length. *)
Lemma is_argmax_lt (row : list Q) (i : nat) :
  is_argmax row i → (i < length row)%nat.
Proof. intros (v & Hi & _). by eapply lookup_lt_Some. Qed.

Lemma argmax_indices_small (y_hat : list (list Q)) (preds : list nat) :
  Forall (λ row, Z.of_nat (length row) ≤ 2 ^ 24) y_hat →
  Forall2 is_argmax y_hat preds →
  Forall (λ p, Z.of_nat p < 2 ^ 24) preds.
Proof.
  intros Hrows Hpreds.
  induction Hpreds as [|row p y_hat preds Hp _ IH]; [done|].
  apply Forall_cons in Hrows as [Hrow Hrows].
  constructor; [|by apply IH]. apply is_argmax_lt in Hp. lia.
Qed.

(** The value of [accuracy]: the number of rows whose argmax index is the
    label, over the number of rows. *)
Lemma accuracy_value (y_hat : list (list Q)) (y : list Z) :
  length y_hat = length y → Forall (λ row, row ≠ []) y_hat →
  Forall (λ row, Z.of_nat (length row) ≤ 2 ^ 24) y_hat →
  ∃ preds acc, Forall2 is_argmax y_hat preds ∧
    accuracy y_hat y = Ok acc ∧
    (acc == inject_Z (Z.of_nat (correct preds y))
            / inject_Z (Z.of_nat (length y)))%Q.
Proof.
  intros Hlen Hrows Hwide.
  destruct (nd_argmax_axis1_spec y_hat Hrows) as (preds & Hpreds & Hargmax).
  assert (length preds = length y) as Hlen'
    by (apply Forall2_length in Hpreds; lia).
  exists preds. eexists. split; [done|].
  unfold accuracy. rewrite Hargmax. simpl_result.
  unfold nd_eq. rewrite broadcast_same_length
    by (unfold astype_float32; rewrite !length_fmap; done).
  rewrite (mapR_pure_pair (λ a b, if Qeq_bool a b then 1 else 0)%Q).
  simpl_result. split; [done|].
  unfold nd_mean. rewrite Qsum_eq_count by by eapply argmax_indices_small.
  rewrite length_fmap, length_zip_with, !length_fmap.
  unfold astype_float32. rewrite length_fmap, Hlen', Nat.min_id.
  reflexivity.
Qed.

(** A row of [n] zeros and then a one has its maximum at index [n]. *)
Lemma argmax_from_zeros (n best_i i : nat) :
  argmax_from 0 best_i i (replicate n 0%Q ++ [1%Q]) = (i + n)%nat.
Proof.
  revert best_i i.
  induction n as [|n IH]; intros best_i i; cbn [replicate app argmax_from].
  - destruct (Qlt_le_dec 0 1) as [_|H]; [lia|]. by apply Qle_bool_iff in H.
  - destruct (Qlt_le_dec 0 0) as [H|_]; [by apply Qlt_irrefl in H|].
    rewrite IH. lia.
Qed.

Lemma argmax_zeros_one (n : nat) :
  argmax (replicate n 0%Q ++ [1%Q]) = Ok n.
Proof.
  destruct n as [|n]; [done|]. cbn [replicate app argmax].
  by rewrite argmax_from_zeros.
Qed.

Lemma accuracy_zeros_one (n : nat) (label : Z) :
  float32_of_Z (Z.of_nat n) = float32_of_Z label →
  is_argmax (replicate n 0%Q ++ [1%Q]) n ∧
  ∃ acc, accuracy [replicate n 0%Q ++ [1%Q]] [label] = Ok acc ∧ (acc == 1)%Q.
Proof.
  intros Hfloat. split.
  - destruct (argmax_spec (replicate n 0%Q ++ [1%Q])) as (i & Hi & Hspec).
    { by destruct n. }
    rewrite argmax_zeros_one in Hi. by injection Hi as ->.
  - unfold accuracy, nd_argmax_axis1. cbn [mapR].
    rewrite argmax_zeros_one. do 2 simpl_result. rewrite Hfloat.
    eexists. split; [|reflexivity].
    unfold nd_eq. rewrite broadcast_same_length by done.
    rewrite (mapR_pure_pair (λ a b, if Qeq_bool a b then 1 else 0)%Q).
    simpl_result. unfold astype_float32. cbn [fmap list_fmap zip zip_with].
    by rewrite (proj2 (Qeq_bool_iff _ _) (Qeq_refl _)).
Qed.

(** C10, as the code has it: for scores [y_hat] with at most 2^24 rows and
    at most 2^24 columns, and labels [y], one for each row,
    [accuracy y_hat y] is the number of rows whose argmax index (the position
    of the first maximum of the row) is the label, divided by the number of
    rows; on the example of the notebook it is 0.5.  The matrix has at least
    one row and one column, as every MXNet array has. *)
Theorem accuracy_is_fraction_correct :
  (∀ (y_hat : list (list Q)) (y : list Z),
     length y_hat = length y → y_hat ≠ [] →
     Forall (λ row, row ≠ []) y_hat →
     Z.of_nat (length y_hat) ≤ 2 ^ 24 →
     Forall (λ row, Z.of_nat (length row) ≤ 2 ^ 24) y_hat →
     ∃ preds acc, Forall2 is_argmax y_hat preds ∧
       accuracy y_hat y = Ok acc ∧
       (acc == inject_Z (Z.of_nat (correct preds y))
               / inject_Z (Z.of_nat (length y)))%Q) ∧
  (∃ acc, accuracy [[0.1; 0.3; 0.6]; [0.3; 0.2; 0.5]]%Q [0; 2] = Ok acc ∧
     (acc == 0.5)%Q).
Proof.
  split.
  - intros y_hat y Hlen _ Hrows _ Hwide. by apply accuracy_value.
  - eexists. split; [by vm_compute|]. reflexivity.
Qed.

(** C10, as stated, fails on a row with more than 2^24 columns: the
    argmax index 16777217 of the row is not the label 16777216, but as
    float32 numbers the two are equal, and the row counts as correct. *)
Lemma accuracy_counts_wide_row :
  is_argmax (replicate (Z.to_nat 16777217) 0%Q ++ [1%Q])
    (Z.to_nat 16777217) ∧
  Z.of_nat (Z.to_nat 16777217) ≠ 16777216 ∧
  ∃ acc, accuracy [replicate (Z.to_nat 16777217) 0%Q ++ [1%Q]] [16777216]
         = Ok acc ∧ (acc == 1)%Q.
Proof.
  assert (float32_of_Z (Z.of_nat (Z.to_nat 16777217))
          = float32_of_Z 16777216) as Hfloat.
  { rewrite Z2Nat.id by lia. by vm_compute. }
  destruct (accuracy_zeros_one (Z.to_nat 16777217) 16777216 Hfloat)
    as [Hargmax Hacc].
  split; [exact Hargmax|]. split; [|exact Hacc].
  rewrite Z2Nat.id; lia.
Qed.

(** ** ssd.ipynb: the table of anchor box sizes *)

Section sizes_table.
Local Open Scope R_scope.

(** [sizes[i + 1][0]], the first size of the next scale *)
Definition next_size (i : nat) : option Q :=
  row ← sizes !! S i; row !! 0%nat.

(** The constants are listed with three decimals. *)
Definition half_unit : R := 5 / 10000.

(** The second size of scale [i] is the geometric mean of its first size
    and [next], to the precision of the table. *)
Definition second_is_geometric_mean (i : nat) (next : Q) : Prop :=
  ∃ a s, sizes !! i = Some [a; s] ∧
    Rabs (Q2R s - sqrt (Q2R a * Q2R next)) <= half_unit.

Lemma sqrt_between (lo hi x : R) :
  0 <= lo → lo * lo <= x → x <= hi * hi → 0 <= hi →
  lo <= sqrt x <= hi.
Proof.
  intros Hlo Hx1 Hx2 Hhi. split.
  - rewrite <- (sqrt_square lo) by done. by apply sqrt_le_1_alt.
  - rewrite <- (sqrt_square hi) by done. by apply sqrt_le_1_alt.
Qed.

Lemma geometric_mean_close (a s next : Q) :
  half_unit <= Q2R s →
  (Q2R s - half_unit) * (Q2R s - half_unit) <= Q2R a * Q2R next →
  Q2R a * Q2R next <= (Q2R s + half_unit) * (Q2R s + half_unit) →
  Rabs (Q2R s - sqrt (Q2R a * Q2R next)) <= half_unit.
Proof.
  intros Hs Hlo Hhi.
  assert (0 <= half_unit) by (unfold half_unit; lra).
  destruct (sqrt_between (Q2R s - half_unit) (Q2R s + half_unit)
              (Q2R a * Q2R next)) as [H1 H2]; [lra|done|done|lra|].
  apply Rabs_le. lra.
Qed.

Lemma second_sizes :
  second_is_geometric_mean 0 0.37 ∧ second_is_geometric_mean 1 0.54 ∧
  second_is_geometric_mean 2 0.71 ∧ second_is_geometric_mean 3 0.88 ∧
  second_is_geometric_mean 4 1.05.
Proof.
  split_and!; (do 2 eexists; split; [done|];
    apply geometric_mean_close; unfold half_unit, Q2R; cbn; lra).
Qed.
End sizes_table.

(** C3, as the code has it: the table has five scales; for the scales 0 to
    3 the second size is the geometric mean of the first size and the first
    size of the next scale, to the three decimals of the table; the last
    scale has no next scale in the table, and its second size is the
    geometric mean of its first size and 1.05, the end point of the
    interval. *)
Theorem sizes_geometric_mean :
  length sizes = 5%nat ∧
  (∀ i, (i < 4)%nat →
     ∃ next, next_size i = Some next ∧ second_is_geometric_mean i next) ∧
  next_size 4 = None ∧
  second_is_geometric_mean 4 1.05.
Proof.
  destruct second_sizes as (H0 & H1 & H2 & H3 & H4).
  split; [done|]. split; [|done].
  intros [|[|[|[|i]]]] Hi; [by eexists..|lia].
Qed.

(** C3, as stated, fails at the last scale: [sizes[5]] does not exist. *)
Lemma sizes_last_scale_has_no_next :
  ¬ (∀ i, (i < 5)%nat →
       ∃ next, next_size i = Some next ∧ second_is_geometric_mean i next).
Proof.
  intros H. destruct (H 4%nat) as (next & Hnext & _); [lia|]. done.
Qed.

(** ** The library with state, and the log of its calls *)

(** A library call changes the state of the library (parameters, gradients,
    data iterators, the device) and returns or raises. *)
Definition St (S A : Type) : Type := S → S * result A.

#[global] Instance St_ret {S} : MRet (St S) := λ A a s, (s, Ok a).
#[global] Instance St_bind {S} : MBind (St S) := λ A B f c s,
  match c s with
  | (s', Ok a) => f a s'
  | (s', Raise e) => (s', Raise e)
  end.
#[global] Instance St_raise {S} : MRaise (St S) := λ A e s, (s, Raise e).
#[global] Instance St_try {S} : MTry (St S) := λ A c s,
  let '(s', r) := c s in (s', Ok r).

#[global] Instance St_laws {S} : MonadLaws (St S).
Proof.
  split; [done|].
  intros A B C c f g. apply functional_extensionality. intros s.
  unfold mbind, St_bind. by destruct (c s) as [s' [a|e]].
Qed.

(** What the log records of a call: the name of the library function, its
    array arguments, and the exception if it raised one; for a pass over a
    data iterator, the iterator and the arrays of each batch. *)
Inductive event (I T : Type) : Type :=
| Call (name : string) (args : list T) (err : option exn)
| Yield (it : I) (batches : list (list T)).
Arguments Call {I T} name args err.
Arguments Yield {I T} it batches.

Record world (S I T : Type) : Type := World {
  lib : S;
  trace : list (event I T);
}.
Arguments World {S I T} lib trace.
Arguments lib {S I T} _.
Arguments trace {S I T} _.

(** The monad of the notebooks' code: it runs library calls on the state of
    the library and appends them to the log.  An exception leaves the state
    and the log as they are at that point. *)
Definition M (S I T A : Type) : Type := world S I T → world S I T * result A.

Section M.
Context {S I T : Type}.

#[global] Instance M_ret : MRet (M S I T) := λ A a w, (w, Ok a).
#[global] Instance M_bind : MBind (M S I T) := λ A B f c w,
  match c w with
  | (w', Ok a) => f a w'
  | (w', Raise e) => (w', Raise e)
  end.
#[global] Instance M_raise : MRaise (M S I T) := λ A e w, (w, Raise e).
#[global] Instance M_try : MTry (M S I T) := λ A c w,
  let '(w', r) := c w in (w', Ok r).

#[global] Instance M_laws : MonadLaws (M S I T).
Proof.
  split; [done|].
  intros A B C c f g. apply functional_extensionality. intros w.
  unfold mbind, M_bind. by destruct (c w) as [w1 [a|e]].
Qed.

Definition error_of {A} (r : result A) : option exn :=
  match r with
  | Ok _ => None
  | Raise e => Some e
  end.

(** The library call [op], logged under [name] with arguments [args]. *)
Definition logged {A} (name : string) (args : list T) (op : St S A) :
    M S I T A := λ w,
  let '(s, r) := op (lib w) in
  (World s (trace w ++ [Call name args (error_of r)]), r).

(** A pass over a data iterator, logged with the batches it yields. *)
Definition logged_iter {B} (it : I) (flat : B → list T)
    (op : St S (list B)) : M S I T (list B) := λ w,
  let '(s, r) := op (lib w) in
  match r with
  | Ok bs => (World s (trace w ++ [Yield it (flat <$> bs)]), r)
  | Raise e => (World s (trace w ++ [Call "iter" [] (Some e)]), r)
  end.

Definition failed (ev : event I T) : Prop :=
  match ev with
  | Call _ _ (Some _) => True
  | _ => False
  end.

#[global] Instance failed_dec ev : Decision (failed ev).
Proof. destruct ev as [? ? [?|]|]; cbn; apply _. Defined.

(** The call that Python makes when control leaves the block of
    [with autograd.record():], by its end or by an exception. *)
Definition scope_exit (ev : event I T) : Prop :=
  ∃ err, ev = Call "autograd.record.__exit__" [] err.

(** [c] does not catch: when a library call raises [e], [c] makes no other
    call, except that the [with] blocks it is in are left; and [c] raises
    [e], unless leaving a [with] block raises in turn. *)
Definition propagates {A} (c : M S I T A) : Prop :=
  ∀ w, ∃ evs, trace (c w).1 = trace w ++ evs ∧
    ∀ pre name args e post, evs = pre ++ Call name args (Some e) :: post →
      Forall scope_exit post ∧
      (Forall (λ ev, ¬ failed ev) post → (c w).2 = Raise e).

(** [c] makes library calls and nothing else that can fail: it raises [e]
    exactly when one of its calls raises [e], and that call is its last. *)
Definition transparent {A} (c : M S I T A) : Prop :=
  ∀ w, ∃ evs, trace (c w).1 = trace w ++ evs ∧
    match (c w).2 with
    | Ok _ => Forall (λ ev, ¬ failed ev) evs
    | Raise e => ∃ pre name args,
        evs = pre ++ [Call name args (Some e)] ∧
        Forall (λ ev, ¬ failed ev) pre
    end.

Lemma failed_inv ev : failed ev → ∃ name args e, ev = Call name args (Some e).
Proof. destruct ev as [name args [e|]|]; [by eauto|done..]. Qed.

Lemma split_app {X} (l1 l2 pre post : list X) x :
  l1 ++ l2 = pre ++ x :: post →
  (∃ k, l1 = pre ++ x :: k ∧ post = k ++ l2) ∨
  (∃ k, pre = l1 ++ k ∧ l2 = k ++ x :: post).
Proof.
  intros [(k & -> & Hk)|(k & -> & ->)]%app_eq_inv; [|by eauto].
  destruct k as [|y k]; simplify_eq/=.
  - right. exists []. by rewrite !app_nil_r.
  - left. by exists k.
Qed.

(** The last call that failed. *)
Lemma last_failed (evs : list (event I T)) :
  Exists failed evs →
  ∃ pre name args e post, evs = pre ++ Call name args (Some e) :: post ∧
    Forall (λ ev, ¬ failed ev) post.
Proof.
  induction evs as [|ev evs IH]; [by intros ?%Exists_nil|].
  intros Hex. destruct (decide (Exists failed evs)) as [Hevs|Hevs].
  - destruct (IH Hevs) as (pre & name & args & e & post & -> & Hpost).
    by exists (ev :: pre), name, args, e, post.
  - apply Exists_cons in Hex as [Hev|?]; [|done].
    destruct (failed_inv _ Hev) as (name & args & e & ->).
    exists [], name, args, e, evs. split; [done|].
    by apply Forall_Exists_neg.
Qed.

Lemma clean_split (pre post : list (event I T)) name args e :
  ¬ Forall (λ ev, ¬ failed ev) (pre ++ Call name args (Some e) :: post).
Proof.
  intros [_ Hclean]%Forall_app. by apply Forall_cons in Hclean as [Hev _].
Qed.

(** A run of code that propagates has logged no failure when it returns. *)
Lemma propagates_ok {A} (c : M S I T A) w evs a :
  propagates c → trace (c w).1 = trace w ++ evs → (c w).2 = Ok a →
  Forall (λ ev, ¬ failed ev) evs.
Proof.
  intros Hc Htr Hok. destruct (Hc w) as (evs' & Htr' & Hfail).
  rewrite Htr in Htr'. apply app_inv_head in Htr' as <-.
  destruct (decide (Exists failed evs)) as [Hex|Hex].
  - destruct (last_failed _ Hex) as (pre & name & args & e & post & -> & Hpost).
    destruct (Hfail _ _ _ _ _ eq_refl) as [_ Hraise].
    rewrite Hraise in Hok by done. done.
  - by apply Forall_Exists_neg.
Qed.

Lemma transparent_propagates {A} (c : M S I T A) :
  transparent c → propagates c.
Proof.
  intros Hc w. destruct (Hc w) as (evs & Htr & Hres).
  exists evs. split; [done|]. intros pre name args e post ->.
  destruct (c w).2 as [a|e'].
  - by apply clean_split in Hres.
  - destruct Hres as (pre' & name' & args' & Hevs & Hclean).
    symmetry in Hevs. apply split_app in Hevs as [(k & Hpre & Hk)|(k & _ & Hk)].
    + rewrite Hpre in Hclean. by apply clean_split in Hclean.
    + destruct k as [|? [|]]; simplify_eq/=. by split.
Qed.

Lemma transparent_ret {A} (a : A) : transparent (mret a).
Proof. intros w. exists []. split; [by rewrite app_nil_r|]. by cbn. Qed.

Lemma transparent_logged {A} name args (op : St S A) :
  transparent (logged name args op).
Proof.
  intros w. unfold logged. destruct (op (lib w)) as [s [a|e]].
  - exists [Call name args None]. split; [done|]. cbn.
    repeat constructor. by intros [].
  - exists [Call name args (Some e)]. split; [done|]. cbn.
    by exists [], name, args.
Qed.

Lemma transparent_bind {A B} (c : M S I T A) (f : A → M S I T B) :
  transparent c → (∀ a, transparent (f a)) → transparent (c ≫= f).
Proof.
  intros Hc Hf w. destruct (Hc w) as (evs1 & Htr1 & Hres1).
  unfold mbind, M_bind. destruct (c w) as [w1 [a|e]]; cbn in *.
  - destruct (Hf a w1) as (evs2 & Htr2 & Hres2).
    exists (evs1 ++ evs2). split; [by rewrite Htr2, Htr1, app_assoc|].
    destruct (f a w1).2 as [b|e].
    + by apply Forall_app.
    + destruct Hres2 as (pre & name & args & -> & Hpre).
      exists (evs1 ++ pre), name, args. rewrite app_assoc.
      split; [done|]. by apply Forall_app.
  - by exists evs1.
Qed.

Lemma transparent_mapR {A B} (f : A → M S I T B) (l : list A) :
  (∀ a, transparent (f a)) → transparent (mapR f l).
Proof.
  intros Hf. induction l as [|a l IH]; cbn [mapR].
  - apply transparent_ret.
  - apply transparent_bind; [done|]. intros b.
    apply transparent_bind; [done|]. intros bs. apply transparent_ret.
Qed.

Lemma transparent_foldR {A B} (f : B → A → M S I T B) (l : list A) (b : B) :
  (∀ b a, transparent (f b a)) → transparent (foldR f l b).
Proof.
  intros Hf. revert b. induction l as [|a l IH]; intros b; cbn [foldR].
  - apply transparent_ret.
  - apply transparent_bind; [done|]. intros b'. apply IH.
Qed.

Lemma propagates_ret {A} (a : A) : propagates (mret a).
Proof.
  intros w. exists []. split; [by rewrite app_nil_r|].
  intros pre ???? Hevs. by destruct pre.
Qed.

Lemma propagates_raise {A} (e : exn) : propagates (mraise (A:=A) e).
Proof.
  intros w. exists []. split; [by rewrite app_nil_r|].
  intros pre ???? Hevs. by destruct pre.
Qed.

Lemma singleton_split {X} (x y : X) pre post :
  [x] = pre ++ y :: post → pre = [] ∧ post = [] ∧ x = y.
Proof.
  destruct pre as [|? [|]]; intros Heq; simplify_eq/=; [done|..];
    by destruct post.
Qed.

Lemma propagates_logged {A} name args (op : St S A) :
  propagates (logged name args op).
Proof. apply transparent_propagates, transparent_logged. Qed.

Lemma propagates_logged_iter {B} it flat (op : St S (list B)) :
  propagates (logged_iter it flat op).
Proof.
  intros w. unfold logged_iter. destruct (op (lib w)) as [s [bs|e]].
  - eexists. split; [done|]. cbn.
    by intros pre name' args' e post (-> & -> & Hev)%singleton_split.
  - eexists. split; [done|]. cbn.
    intros pre name' args' e' post (-> & -> & Hev)%singleton_split.
    by simplify_eq.
Qed.

Lemma propagates_bind {A B} (c : M S I T A) (f : A → M S I T B) :
  propagates c → (∀ a, propagates (f a)) → propagates (c ≫= f).
Proof.
  intros Hc Hf w. destruct (Hc w) as (evs1 & Htr1 & Hfail1).
  pose proof (propagates_ok c w evs1) as Hok.
  unfold mbind, M_bind. destruct (c w) as [w1 [a|e]]; cbn in *.
  - destruct (Hf a w1) as (evs2 & Htr2 & Hfail2).
    exists (evs1 ++ evs2). split; [by rewrite Htr2, Htr1, app_assoc|].
    intros pre name args e post Hevs.
    apply split_app in Hevs as [(k & Hpre & Hk)|(k & Hpre & Hk)].
    + specialize (Hok a Hc Htr1 eq_refl). rewrite Hpre in Hok.
      by apply clean_split in Hok.
    + by eapply Hfail2.
  - exists evs1. split; [done|]. intros pre name args e0 post Hevs.
    destruct (Hfail1 _ _ _ _ _ Hevs) as [Hexits Hraise]. split; [done|].
    intros Hclean. specialize (Hraise Hclean). by simplify_eq.
Qed.

Lemma propagates_mapR {A B} (f : A → M S I T B) (l : list A) :
  (∀ a, propagates (f a)) → propagates (mapR f l).
Proof.
  intros Hf. induction l as [|a l IH]; cbn [mapR].
  - apply propagates_ret.
  - apply propagates_bind; [done|]. intros b.
    apply propagates_bind; [done|]. intros bs. apply propagates_ret.
Qed.

Lemma propagates_foldR {A B} (f : B → A → M S I T B) (l : list A) (b : B) :
  (∀ b a, propagates (f b a)) → propagates (foldR f l b).
Proof.
  intros Hf. revert b. induction l as [|a l IH]; intros b; cbn [foldR].
  - apply propagates_ret.
  - apply propagates_bind; [done|]. intros b'. apply IH.
Qed.

(** A [with autograd.record():] block, whose body propagates. *)
Lemma propagates_with {A} (enter : M S I T unit) (op : St S unit)
    (body : M S I T A) :
  propagates enter → propagates body →
  propagates (with_ enter (logged "autograd.record.__exit__" [] op) body).
Proof.
  intros Henter Hbody w. destruct (Henter w) as (evs0 & Htr0 & Hfail0).
  pose proof (propagates_ok enter w evs0) as Hok0.
  unfold with_, mbind, M_bind, mtry, M_try.
  destruct (enter w) as [w1 [[]|e]]; cbn in *.
  2:{ exists evs0. split; [done|]. intros pre name args e0 post Hevs.
      destruct (Hfail0 _ _ _ _ _ Hevs) as [Hexits Hraise]. split; [done|].
      intros Hclean. specialize (Hraise Hclean). by simplify_eq. }
  destruct (Hbody w1) as (evs1 & Htr1 & Hfail1).
  pose proof (propagates_ok body w1 evs1) as Hok1.
  destruct (body w1) as [w2 r]; cbn in *. unfold logged.
  destruct (op (lib w2)) as [s rx].
  exists (evs0 ++ evs1 ++ [Call "autograd.record.__exit__" [] (error_of rx)]).
  split.
  { destruct rx as [[]|e'], r as [a|e]; cbn;
      by rewrite Htr1, Htr0, <- !app_assoc. }
  intros pre name args e post Hevs.
  apply split_app in Hevs as [(k & Hpre & Hk)|(k & Hpre & Hk)].
  { specialize (Hok0 () Henter Htr0 eq_refl). rewrite Hpre in Hok0.
    by apply clean_split in Hok0. }
  apply split_app in Hk as [(k' & Hpre' & ->)|(k' & _ & Hk)].
  - destruct (Hfail1 _ _ _ _ _ Hpre') as [Hexits Hraise]. split.
    + apply Forall_app. split; [done|]. repeat constructor. by eexists.
    + intros [Hclean Hexit]%Forall_app.
      apply Forall_cons in Hexit as [Hexit _].
      destruct rx as [[]|e']; [|by destruct Hexit].
      rewrite (Hraise Hclean). done.
  - destruct k' as [|? [|]]; simplify_eq/=. split; [done|]. intros _.
    destruct rx as [[]|e']; simplify_eq/=. by destruct r.
Qed.
End M.

(** ** The rest of the library interface *)

(** Reading arrays. *)
Class IndexOps (m : Type → Type) (T : Type) : Type := {
  (** [x[i]] *)
  nd_getitem : T → Z → m T;
  (** the items that [for row in x] or [enumerate(x)] goes through *)
  nd_iter : T → m (list T);
  (** [x.asscalar()] *)
  asscalar : T → m Q;
  (** [x[i, idx]] with a list of indices [idx] *)
  nd_take : T → Z → list nat → m T;
  (** [x.size] *)
  nd_size : T → m Z;
}.

(** The detection operators and the device. *)
Class ContribOps (m : Type → Type) (T : Type) : Type := {
  (** [x.as_in_context(ctx)] *)
  as_in_context : T → m T;
  (** [x.softmax()] *)
  nd_softmax : T → m T;
  (** [contrib.nd.MultiBoxDetection(cls_probs, bbox_preds, anchors)] *)
  MultiBoxDetection : T → T → T → m T;
  (** [contrib.nd.MultiBoxTarget(anchors, Y, cls_preds)] *)
  MultiBoxTarget : T → T → T → m (T * T * T)%type;
}.

(** A batch of the detection data set: [batch.data] and [batch.label]. *)
Record DataBatch (T : Type) : Type := {
  data : list T;
  label : list T;
}.
Arguments data {T} _.
Arguments label {T} _.

(** Arithmetic, automatic differentiation, optimizers, data iterators and
    the console.  [I] is the type of data iterators and [Tr] of
    [gluon.Trainer] objects. *)
Class TrainOps (m : Type → Type) (I Tr T : Type) : Type := {
  (** the batches of [for X, y in data_iter]: one pass over the data set,
      which is finite, gives its batches in the order of the iterator *)
  iterate : I → m (list (T * T)%type);
  (** the batches of [for batch in train_iter] *)
  iterate_batches : I → m (list (DataBatch T));
  (** [train_iter.reset()] *)
  iter_reset : I → m unit;
  (** [x.sum()] *)
  nd_sum : T → m T;
  (** [x.abs()] *)
  nd_abs : T → m T;
  (** [x + y], [x - y], [x * y] *)
  nd_add : T → T → m T;
  nd_sub : T → T → m T;
  nd_mul : T → T → m T;
  (** [x.argmax(axis=a)] *)
  nd_argmax : T → Z → m T;
  (** [x == y] *)
  nd_equal : T → T → m T;
  (** [x.astype(dtype)] *)
  astype : T → string → m T;
  (** [with autograd.record():] enters the scope ([autograd.record()] and
      [__enter__] on what it returns) and leaves it ([__exit__], which
      returns nothing) *)
  record_enter : m unit;
  record_exit : m unit;
  (** [l.backward()] *)
  backward : T → m unit;
  (** [d2l.sgd(params, lr, batch_size)] *)
  d2l_sgd : option (list T) → option Q → Z → m unit;
  (** [trainer.step(batch_size)] *)
  trainer_step : Tr → Z → m unit;
  (** [gloss.SoftmaxCrossEntropyLoss()(preds, labels)] *)
  cls_loss : T → T → m T;
  (** [gloss.L1Loss()(preds, labels)] *)
  bbox_loss : T → T → m T;
  (** [time.time()] *)
  time : m Q;
  (** [print(fmt % values)] *)
  print : string → list Q → m unit;
}.

(** The library of the monad [M]: each operation of a library with state
    [S], logged. *)
Section logged_library.
Context {S I Tr T : Type}.
Context `{!NDArrayOps (St S) T, !GluonOps (St S) T, !IndexOps (St S) T,
          !ContribOps (St S) T, !TrainOps (St S) I Tr T}.

#[global] Instance logged_nd_ops : NDArrayOps (M S I T) T := {
  nd_transpose x axes := logged "transpose" [x] (nd_transpose x axes);
  nd_flatten x := logged "flatten" [x] (nd_flatten x);
  nd_concat xs dim := logged "concat" xs (nd_concat xs dim);
  nd_reshape x codes := logged "reshape" [x] (nd_reshape x codes);
}.

#[global] Instance logged_gluon_ops : GluonOps (M S I T) T := {
  call blk X := logged "Block.__call__" [X] (call blk X);
  MultiBoxPrior Y size ratio :=
    logged "MultiBoxPrior" [Y] (MultiBoxPrior Y size ratio);
}.

#[global] Instance logged_index_ops : IndexOps (M S I T) T := {
  nd_getitem x i := logged "__getitem__" [x] (nd_getitem x i);
  nd_iter x := logged "__iter__" [x] (nd_iter x);
  asscalar x := logged "asscalar" [x] (asscalar x);
  nd_take x i idx := logged "__getitem__" [x] (nd_take x i idx);
  nd_size x := logged "size" [x] (nd_size x);
}.

#[global] Instance logged_contrib_ops : ContribOps (M S I T) T := {
  as_in_context x := logged "as_in_context" [x] (as_in_context x);
  nd_softmax x := logged "softmax" [x] (nd_softmax x);
  MultiBoxDetection cls_probs bbox_preds anchors :=
    logged "MultiBoxDetection" [cls_probs; bbox_preds; anchors]
      (MultiBoxDetection cls_probs bbox_preds anchors);
  MultiBoxTarget anchors Y cls_preds :=
    logged "MultiBoxTarget" [anchors; Y; cls_preds]
      (MultiBoxTarget anchors Y cls_preds);
}.

#[global] Instance logged_train_ops : TrainOps (M S I T) I Tr T := {
  iterate it := logged_iter it (λ '(X, y), [X; y]) (iterate it);
  iterate_batches it :=
    logged_iter it (λ batch, data batch ++ label batch) (iterate_batches it);
  iter_reset it := logged "reset" [] (iter_reset it);
  nd_sum x := logged "sum" [x] (nd_sum x);
  nd_abs x := logged "abs" [x] (nd_abs x);
  nd_add x y := logged "__add__" [x; y] (nd_add x y);
  nd_sub x y := logged "__sub__" [x; y] (nd_sub x y);
  nd_mul x y := logged "__mul__" [x; y] (nd_mul x y);
  nd_argmax x axis := logged "argmax" [x] (nd_argmax x axis);
  nd_equal x y := logged "__eq__" [x; y] (nd_equal x y);
  astype x dtype := logged "astype" [x] (astype x dtype);
  record_enter := logged "autograd.record.__enter__" [] record_enter;
  record_exit := logged "autograd.record.__exit__" [] record_exit;
  backward l := logged "backward" [l] (backward l);
  d2l_sgd params lr batch_size :=
    logged "d2l.sgd" (default [] params) (d2l_sgd params lr batch_size);
  trainer_step trainer batch_size :=
    logged "Trainer.step" [] (trainer_step trainer batch_size);
  cls_loss preds labels :=
    logged "SoftmaxCrossEntropyLoss" [preds; labels] (cls_loss preds labels);
  bbox_loss preds labels :=
    logged "L1Loss" [preds; labels] (bbox_loss preds labels);
  time := logged "time" [] time;
  print fmt values := logged "print" [] (print fmt values);
}.
End logged_library.

(** ** ssd.ipynb: prediction and training *)

(** Python's [x / n] on a float and an integer. *)
Definition py_div {m : Type → Type} `{!MRet m, !MRaise m} (x : Q) (n : Z) : m Q :=
  if decide (n = 0) then mraise ZeroDivisionError
  else mret (x / inject_Z n)%Q.

Section detection.
Context {m : Type → Type} `{!MRet m, !MBind m, !MRaise m, !MTry m}.
Context {I Tr T : Type}.
Context `{!NDArrayOps m T, !GluonOps m T, !IndexOps m T, !ContribOps m T,
          !TrainOps m I Tr T}.

(** [predict], with the global [net] as an argument. *)
Definition predict (net : TinySSD) (X : T) : m T :=
  X ← as_in_context X;
  '(anchors, cls_preds, bbox_preds) ← forward net X;
  cls_probs ← nd_softmax cls_preds;
  cls_probs ← nd_transpose cls_probs [0; 2; 1]%nat;
  output ← MultiBoxDetection cls_probs bbox_preds anchors;
  output0 ← nd_getitem output 0;
  rows ← nd_iter output0;
  idx ← foldR (λ idx '(i, row),
           row0 ← nd_getitem row 0;
           class_id ← asscalar row0;
           mret (if Qeq_bool class_id (-1) then idx else idx ++ [i]))
         (imap pair rows) [];
  nd_take output 0 idx.

Definition calc_loss (cls_preds cls_labels bbox_preds bbox_labels
    bbox_masks : T) : m T :=
  cls ← cls_loss cls_preds cls_labels;
  masked_preds ← nd_mul bbox_preds bbox_masks;
  masked_labels ← nd_mul bbox_labels bbox_masks;
  bbox ← bbox_loss masked_preds masked_labels;
  nd_add cls bbox.

Definition cls_eval (cls_preds cls_labels : T) : m Q :=
  p ← nd_argmax cls_preds (-1);
  e ← nd_equal p cls_labels;
  s ← nd_sum e;
  asscalar s.

Definition bbox_eval (bbox_preds bbox_labels bbox_masks : T) : m Q :=
  d ← nd_sub bbox_labels bbox_preds;
  d ← nd_mul d bbox_masks;
  d ← nd_abs d;
  s ← nd_sum d;
  asscalar s.

(** The body of the loop [for batch in train_iter], on the loop state
    [(acc_sum, mae_sum, n, m)]. *)
Definition ssd_train_batch (net : TinySSD) (trainer : Tr) (batch_size : Z)
    (st : Q * Q * Z * Z) (batch : DataBatch T) : m (Q * Q * Z * Z)%type :=
  let '(acc_sum, mae_sum, n, m') := st in
  X ← subscript (data batch) 0;
  X ← as_in_context X;
  Y ← subscript (label batch) 0;
  Y ← as_in_context Y;
  '(cls_preds, bbox_preds, bbox_labels, bbox_masks, cls_labels, l) ←
    with_ record_enter record_exit (
      '(anchors, cls_preds, bbox_preds) ← forward net X;
      cls_preds_t ← nd_transpose cls_preds [0; 2; 1]%nat;
      '(bbox_labels, bbox_masks, cls_labels) ←
        MultiBoxTarget anchors Y cls_preds_t;
      l ← calc_loss cls_preds cls_labels bbox_preds bbox_labels bbox_masks;
      mret (cls_preds, bbox_preds, bbox_labels, bbox_masks, cls_labels, l));
  _ ← backward l;
  _ ← trainer_step trainer batch_size;
  acc ← cls_eval cls_preds cls_labels;
  n1 ← nd_size cls_labels;
  mae ← bbox_eval bbox_preds bbox_labels bbox_masks;
  m1 ← nd_size bbox_labels;
  mret ((acc_sum + acc)%Q, (mae_sum + mae)%Q, n + n1, m' + m1).

(** One epoch of the training cell. *)
Definition ssd_train_epoch (net : TinySSD) (train_iter : I) (trainer : Tr)
    (batch_size : Z) (epoch : nat) : m unit :=
  let '(acc_sum, mae_sum, n, m') := (0%Q, 0%Q, 0, 0) in
  _ ← iter_reset train_iter;
  start ← time;
  batches ← iterate_batches train_iter;
  '(acc_sum, mae_sum, n, m') ←
    foldR (ssd_train_batch net trainer batch_size) batches
      (acc_sum, mae_sum, n, m');
  if decide ((Z.of_nat epoch + 1) `mod` 5 = 0) then
    acc ← py_div acc_sum n;
    mae ← py_div mae_sum m';
    now ← time;
    print "epoch %2d, class err %.2e, bbox mae %.2e, time %.1f sec"
      [inject_Z (Z.of_nat epoch + 1); (1 - acc)%Q; mae; (now - start)%Q]
  else mret ().

(** The training cell: [for epoch in range(20)]. *)
Definition ssd_train (net : TinySSD) (train_iter : I) (trainer : Tr)
    (batch_size : Z) : m unit :=
  foldR (λ _ epoch, ssd_train_epoch net train_iter trainer batch_size epoch)
    (range 20) ().
End detection.

(** ** softmax-regression-scratch.ipynb: evaluation and training *)

Section training.
Context {m : Type → Type} `{!MRet m, !MBind m, !MRaise m, !MTry m}.
Context {I Tr T : Type}.
Context `{!IndexOps m T, !TrainOps m I Tr T}.

Definition evaluate_accuracy (data_iter : I) (net : T → m T) : m Q :=
  let '(acc_sum, n) := (0%Q, 0) in
  batches ← iterate data_iter;
  '(acc_sum, n) ← foldR (λ '(acc_sum, n) '(X, y),
      y ← astype y "float32";
      y_hat ← net X;
      p ← nd_argmax y_hat 1;
      e ← nd_equal p y;
      s ← nd_sum e;
      acc ← asscalar s;
      n1 ← nd_size y;
      mret ((acc_sum + acc)%Q, n + n1)) batches (acc_sum, n);
  py_div acc_sum n.

(** The body of the loop [for X, y in train_iter], on the loop state
    [(train_l_sum, train_acc_sum, n)]. *)
Definition train_ch3_batch (net : T → m T) (loss : T → T → m T)
    (batch_size : Z) (params : option (list T)) (lr : option Q)
    (trainer : option Tr) (st : Q * Q * Z) (batch : T * T) :
    m (Q * Q * Z)%type :=
  let '(train_l_sum, train_acc_sum, n) := st in
  let '(X, y) := batch in
  '(y_hat, l) ←
    with_ record_enter record_exit (
      y_hat ← net X;
      l ← loss y_hat y;
      l ← nd_sum l;
      mret (y_hat, l));
  _ ← backward l;
  _ ← match trainer with
      | None => d2l_sgd params lr batch_size
      | Some trainer => trainer_step trainer batch_size
      end;
  y ← astype y "float32";
  l_val ← asscalar l;
  p ← nd_argmax y_hat 1;
  e ← nd_equal p y;
  s ← nd_sum e;
  acc ← asscalar s;
  n1 ← nd_size y;
  mret ((train_l_sum + l_val)%Q, (train_acc_sum + acc)%Q, n + n1).

Definition train_ch3_epoch (net : T → m T) (train_iter test_iter : I)
    (loss : T → T → m T) (batch_size : Z) (params : option (list T))
    (lr : option Q) (trainer : option Tr) (epoch : nat) : m unit :=
  let '(train_l_sum, train_acc_sum, n) := (0%Q, 0%Q, 0) in
  batches ← iterate train_iter;
  '(train_l_sum, train_acc_sum, n) ←
    foldR (train_ch3_batch net loss batch_size params lr trainer) batches
      (train_l_sum, train_acc_sum, n);
  test_acc ← evaluate_accuracy test_iter net;
  l_mean ← py_div train_l_sum n;
  acc_mean ← py_div train_acc_sum n;
  print "epoch %d, loss %.4f, train acc %.3f, test acc %.3f"
    [inject_Z (Z.of_nat epoch + 1); l_mean; acc_mean; test_acc].

Definition train_ch3 (net : T → m T) (train_iter test_iter : I)
    (loss : T → T → m T) (num_epochs : nat) (batch_size : Z)
    (params : option (list T)) (lr : option Q) (trainer : option Tr) :
    m unit :=
  foldR (λ _ epoch,
      train_ch3_epoch net train_iter test_iter loss batch_size params lr
        trainer epoch)
    (range num_epochs) ().
End training.

(** ** ssd.ipynb: [display] *)

(** What [display] uses of NumPy, matplotlib and [d2l]; [Fig] is the type
    of the images that [imshow] returns. *)
Class DisplayOps (m : Type → Type) (T Fig : Type) : Type := {
  (** [x.asnumpy()] *)
  asnumpy : T → m T;
  (** [d2l.plt.imshow(x)] *)
  imshow : T → m Fig;
  (** [x.shape] *)
  nd_shape : T → list Z;
  (** [x[start:stop]] *)
  nd_slice : T → Z → Z → m T;
  (** [nd.array(values, ctx=ctx)] *)
  nd_array : list Z → m T;
  (** [x * y] *)
  nd_multiply : T → T → m T;
  (** [d2l.show_bboxes(fig.axes, bboxes, label, color)]; the label is the
      score formatted with ['%.2f'] *)
  show_bboxes : Fig → list T → Q → string → m unit;
}.

Section display.
Context {m : Type → Type} `{!MRet m, !MBind m, !MRaise m}.
Context {T Fig : Type} `{!IndexOps m T, !DisplayOps m T Fig}.

(** [h, w = t] on a tuple *)
Definition unpack2 (t : list Z) : m (Z * Z)%type :=
  match t with
  | [h; w] => mret (h, w)
  | _ => mraise ValueError
  end.

(** The body of the loop of [display]; a row with a score below the
    threshold is passed over. *)
Definition display_row (img : T) (fig : Fig) (threshold : Q) (row : T) :
    m unit :=
  s ← nd_getitem row 1;
  score ← asscalar s;
  if Qlt_le_dec score threshold then mret ()
  else
    '(h, w) ← unpack2 (take 2 (nd_shape img));
    r ← nd_slice row 2 6;
    scale ← nd_array [w; h; w; h];
    bbox ← nd_multiply r scale;
    show_bboxes fig [bbox] score "w".

Definition display (img output : T) (threshold : Q) : m unit :=
  np ← asnumpy img;
  fig ← imshow np;
  rows ← nd_iter output;
  foldR (λ _ row, display_row img fig threshold row) rows ().
End display.


(** [display] on the logged library. *)
Section logged_display.
Context {S I T Fig : Type} `{!DisplayOps (St S) T Fig}.

#[global] Instance logged_display_ops : DisplayOps (M S I T) T Fig := {
  asnumpy x := logged "asnumpy" [x] (asnumpy x);
  imshow x := logged "imshow" [x] (imshow x);
  nd_shape := nd_shape;
  nd_slice x start stop := logged "__getitem__" [x] (nd_slice x start stop);
  nd_array values := logged "nd.array" [] (nd_array values);
  nd_multiply x y := logged "__mul__" [x; y] (nd_multiply x y);
  show_bboxes fig bboxes score color :=
    logged "d2l.show_bboxes" bboxes (show_bboxes fig bboxes score color);
}.
End logged_display.

(** ** The functions that only call the library *)

(** The other functions of the notebooks are sequences of calls of MXNet,
    matplotlib and [d2l].  The sections above have what these calls compute;
    here the functions are their calls, on any library.  A constructor of a
    layer is a call as well, and may raise. *)
Module Calls.

(** Building layers and blocks. *)
Class LayerOps (m : Type → Type) : Type := {
  (** [nn.Conv2D(channels, kernel_size=k, padding=p)] *)
  nn_Conv2D : Z → Z → Z → m layer;
  (** [nn.BatchNorm(in_channels=c)] *)
  nn_BatchNorm : Z → m layer;
  (** [nn.Activation(act)] *)
  nn_Activation : string → m layer;
  (** [nn.MaxPool2D(pool_size)] *)
  nn_MaxPool2D : Z → m layer;
  (** [nn.GlobalMaxPool2D()] *)
  nn_GlobalMaxPool2D : m layer;
  (** [nn.Sequential()] *)
  nn_Sequential : m layer;
  (** [blk.add(l1, ..., ln)]: the block, with the layers added *)
  nn_add : layer → list layer → m layer;
  (** [super(TinySSD, self).__init__()]: the object, without sub-layers *)
  nn_Block_init : m TinySSD;
  (** [self.num_classes = v], which is [nn.Block.__setattr__] *)
  nn_Block_set_num_classes : TinySSD → Z → m TinySSD;
  (** [setattr(self, name, v)] for a layer [v], [nn.Block.__setattr__]
      again *)
  nn_Block_setattr : TinySSD → string → layer → m TinySSD;
  (** [block.initialize()] *)
  initialize : layer → m unit;
}.

(** The array operations of [softmax]. *)
Class SoftmaxOps (m : Type → Type) (T : Type) : Type := {
  (** [x.exp()] *)
  nd_exp : T → m T;
  (** [x.sum(axis=1, keepdims=True)] *)
  nd_sum_axis1_keepdims : T → m T;
  (** [x / y] *)
  nd_div : T → T → m T;
}.

(** More arithmetic on arrays. *)
Class ArithOps (m : Type → Type) (T : Type) : Type := {
  (** [nd.dot(x, y)] *)
  nd_dot : T → T → m T;
  (** [nd.pick(x, index)] *)
  nd_pick : T → T → m T;
  (** [x.log()] *)
  nd_log : T → m T;
  (** [- x] *)
  nd_neg : T → m T;
  (** [c - x] for a number [c] *)
  nd_rsub : Z → T → m T;
  (** [x ** n] for a number [n] *)
  nd_pow : T → nat → m T;
  (** [x.mean()] *)
  nd_mean : T → m T;
}.

(** Plotting. *)
Class PlotOps (m : Type → Type) (T : Type) : Type := {
  (** [d2l.set_figsize(figsize=(w, h))] *)
  set_figsize : Q → Q → m unit;
  (** [d2l.plt.plot(x, y)] *)
  plot : T → T → m unit;
  (** [d2l.plt.xlabel(s)] *)
  xlabel : string → m unit;
  (** [d2l.plt.ylabel(s)] *)
  ylabel : string → m unit;
}.

Section calls.
Context {m : Type → Type} `{!MRet m, !MBind m, !MRaise m}.
Context {I Tr T Fig : Type}.
Context `{!NDArrayOps m T, !GluonOps m T, !IndexOps m T, !TrainOps m I Tr T,
          !DisplayOps m T Fig, !LayerOps m, !SoftmaxOps m T, !ArithOps m T,
          !PlotOps m T}.

(** *** softmax-regression-scratch.ipynb *)

Definition softmax (X : T) : m T :=
  X_exp ← nd_exp X;
  partition ← nd_sum_axis1_keepdims X_exp;
  nd_div X_exp partition.

(** [net], with the globals [W], [b] and [num_inputs] as arguments. *)
Definition net (W b : T) (num_inputs : Z) (X : T) : m T :=
  x ← nd_reshape X [-1; num_inputs];
  d ← nd_dot x W;
  s ← nd_add d b;
  softmax s.

Definition cross_entropy (y_hat y : T) : m T :=
  p ← nd_pick y_hat y;
  l ← nd_log p;
  nd_neg l.

Definition accuracy (y_hat y : T) : m Q :=
  p ← nd_argmax y_hat 1;
  y ← astype y "float32";
  e ← nd_equal p y;
  a ← nd_mean e;
  asscalar a.

(** *** mlp.ipynb *)

Definition xyplot (x_vals y_vals : T) (name : string) : m unit :=
  _ ← set_figsize 5 2.5;
  x ← asnumpy x_vals;
  y ← asnumpy y_vals;
  _ ← plot x y;
  _ ← xlabel "x";
  ylabel (name +:+ "(x)").

(** *** ssd.ipynb *)

Definition cls_predictor (num_anchors num_classes : Z) : m layer :=
  nn_Conv2D (num_anchors * (num_classes + 1)) 3 1.

Definition bbox_predictor (num_anchors : Z) : m layer :=
  nn_Conv2D (num_anchors * 4) 3 1.

(** The helper [forward(x, block)] of the notebook. *)
Definition forward (x : T) (block : layer) : m T :=
  _ ← initialize block;
  call block x.

Definition down_sample_blk (num_channels : Z) : m layer :=
  blk ← nn_Sequential;
  blk ← foldR (λ blk _,
      conv ← nn_Conv2D num_channels 3 1;
      bn ← nn_BatchNorm num_channels;
      act ← nn_Activation "relu";
      nn_add blk [conv; bn; act]) (range 2) blk;
  pool ← nn_MaxPool2D 2;
  nn_add blk [pool].

Definition base_net : m layer :=
  blk ← nn_Sequential;
  foldR (λ blk num_filters,
      d ← down_sample_blk num_filters;
      nn_add blk [d]) [16; 32; 64] blk.

Definition get_blk (i : nat) : m layer :=
  if decide (i = 0%nat) then base_net
  else if decide (i = 4%nat) then nn_GlobalMaxPool2D
  else down_sample_blk 128.

(** [TinySSD.__init__] *)
Definition TinySSD_init (num_classes : Z) : m TinySSD :=
  self ← nn_Block_init;
  self ← nn_Block_set_num_classes self num_classes;
  foldR (λ self i,
      blk ← get_blk i;
      self ← nn_Block_setattr self (fmt_d "blk_" i) blk;
      cls ← cls_predictor num_anchors num_classes;
      self ← nn_Block_setattr self (fmt_d "cls_" i) cls;
      bbox ← bbox_predictor num_anchors;
      nn_Block_setattr self (fmt_d "bbox_" i) bbox) (range 5) self.

Definition focal_loss (gamma : nat) (x : T) : m T :=
  a ← nd_rsub 1 x;
  a ← nd_pow a gamma;
  a ← nd_neg a;
  l ← nd_log x;
  nd_mul a l.
End calls.

(** The constructors as the functions that build a layer: the library of
    the sections on shapes.  A new block has no sub-layer, and its field
    [num_classes] is what [__init__] sets next. *)
#[global] Instance build_layer_ops : LayerOps result := {
  nn_Conv2D channels kernel_size padding :=
    Ok (Conv2D channels kernel_size padding);
  nn_BatchNorm in_channels := Ok (BatchNorm in_channels);
  nn_Activation act := Ok (Activation act);
  nn_MaxPool2D pool_size := Ok (MaxPool2D pool_size);
  nn_GlobalMaxPool2D := Ok GlobalMaxPool2D;
  nn_Sequential := Ok (Sequential []);
  nn_add blk ls := Ok (add blk ls);
  nn_Block_init := Ok {| num_classes := 0; attrs := ∅ |};
  nn_Block_set_num_classes self v :=
    Ok {| num_classes := v; attrs := attrs self |};
  nn_Block_setattr self name v := Ok (setattr self name v);
  initialize _ := Ok ();
}.

(** The logged library has these calls as well. *)
Section logged_calls.
Context {S I T : Type}.
Context `{!LayerOps (St S), !SoftmaxOps (St S) T, !ArithOps (St S) T,
          !PlotOps (St S) T}.

#[global] Instance logged_layer_ops : LayerOps (M S I T) := {
  nn_Conv2D channels kernel_size padding :=
    logged "nn.Conv2D" [] (nn_Conv2D channels kernel_size padding);
  nn_BatchNorm in_channels := logged "nn.BatchNorm" [] (nn_BatchNorm in_channels);
  nn_Activation act := logged "nn.Activation" [] (nn_Activation act);
  nn_MaxPool2D pool_size := logged "nn.MaxPool2D" [] (nn_MaxPool2D pool_size);
  nn_GlobalMaxPool2D := logged "nn.GlobalMaxPool2D" [] nn_GlobalMaxPool2D;
  nn_Sequential := logged "nn.Sequential" [] nn_Sequential;
  nn_add blk ls := logged "Sequential.add" [] (nn_add blk ls);
  nn_Block_init := logged "Block.__init__" [] nn_Block_init;
  nn_Block_set_num_classes self v :=
    logged "Block.__setattr__" [] (nn_Block_set_num_classes self v);
  nn_Block_setattr self name v :=
    logged "Block.__setattr__" [] (nn_Block_setattr self name v);
  initialize block := logged "initialize" [] (initialize block);
}.

#[global] Instance logged_softmax_ops : SoftmaxOps (M S I T) T := {
  nd_exp x := logged "exp" [x] (nd_exp x);
  nd_sum_axis1_keepdims x := logged "sum" [x] (nd_sum_axis1_keepdims x);
  nd_div x y := logged "__truediv__" [x; y] (nd_div x y);
}.

#[global] Instance logged_arith_ops : ArithOps (M S I T) T := {
  nd_dot x y := logged "dot" [x; y] (nd_dot x y);
  nd_pick x index := logged "pick" [x; index] (nd_pick x index);
  nd_log x := logged "log" [x] (nd_log x);
  nd_neg x := logged "__neg__" [x] (nd_neg x);
  nd_rsub c x := logged "__rsub__" [x] (nd_rsub c x);
  nd_pow x n := logged "__pow__" [x] (nd_pow x n);
  nd_mean x := logged "mean" [x] (nd_mean x);
}.

#[global] Instance logged_plot_ops : PlotOps (M S I T) T := {
  set_figsize w h := logged "d2l.set_figsize" [] (set_figsize w h);
  plot x y := logged "plot" [x; y] (plot x y);
  xlabel s := logged "xlabel" [] (xlabel s);
  ylabel s := logged "ylabel" [] (ylabel s);
}.
End logged_calls.

End Calls.

(** [softmax] on matrices of floating-point numbers, as the section on
    [softmax] has it. *)
#[global] Instance float_softmax_ops {F : Type} `{!FloatOps F} :
    Calls.SoftmaxOps result (list (list F)) := {
  Calls.nd_exp X := Ok (nd_exp X);
  Calls.nd_sum_axis1_keepdims X := Ok (nd_sum_axis1_keepdims X);
  Calls.nd_div := nd_div;
}.

Lemma calls_softmax {F : Type} `{!FloatOps F} (X : list (list F)) :
  Calls.softmax (m:=result) X = softmax X.
Proof. reflexivity. Qed.

(** The functions that build layers make the calls of their counterparts
    above. *)
Lemma calls_build_layers :
  (∀ a q, Calls.cls_predictor (m:=result) a q = Ok (cls_predictor a q)) ∧
  (∀ a, Calls.bbox_predictor (m:=result) a = Ok (bbox_predictor a)) ∧
  (∀ k, Calls.down_sample_blk (m:=result) k = Ok (down_sample_blk k)) ∧
  Calls.base_net (m:=result) = Ok base_net ∧
  (∀ i, Calls.get_blk (m:=result) i = Ok (get_blk i)) ∧
  (∀ nc, Calls.TinySSD_init (m:=result) nc = Ok (TinySSD_init nc)).
Proof.
  assert (∀ i, Calls.get_blk (m:=result) i = Ok (get_blk i)) as Hblk.
  { intros i. unfold Calls.get_blk, get_blk. by repeat case_decide. }
  by split_and!.
Qed.

(** ** Exceptions of the library propagate *)

Section propagation.
Context {S I Tr T : Type}.
Context `{!NDArrayOps (St S) T, !GluonOps (St S) T, !IndexOps (St S) T,
          !ContribOps (St S) T, !TrainOps (St S) I Tr T}.

Lemma propagates_getattr self name :
  propagates (getattr (m:=M S I T) self name).
Proof.
  unfold getattr. destruct (attrs self !! name);
    [apply propagates_ret|apply propagates_raise].
Qed.

Lemma propagates_subscript {A} (l : list A) i :
  propagates (subscript (m:=M S I T) l i).
Proof.
  unfold subscript. destruct (l !! i);
    [apply propagates_ret|apply propagates_raise].
Qed.

Lemma propagates_setitem {A} (l : list A) i v :
  propagates (setitem (m:=M S I T) l i v).
Proof.
  unfold setitem. case_decide; [apply propagates_ret|apply propagates_raise].
Qed.

Lemma propagates_star {A} (l : list (option A)) :
  propagates (star (m:=M S I T) l).
Proof.
  apply propagates_mapR. intros [a|];
    [apply propagates_ret|apply propagates_raise].
Qed.

Lemma propagates_py_div x n : propagates (py_div (m:=M S I T) x n).
Proof.
  unfold py_div. case_decide; [apply propagates_raise|apply propagates_ret].
Qed.
End propagation.

(** The steps of a proof that a piece of code propagates: the code is a
    sequence of library calls, loops and Python operations. *)
Ltac propagates_step :=
  first
    [ apply propagates_ret
    | apply propagates_raise
    | apply propagates_logged
    | apply propagates_logged_iter
    | apply propagates_getattr
    | apply propagates_subscript
    | apply propagates_setitem
    | apply propagates_star
    | apply propagates_py_div
    | apply propagates_mapR; intros
    | apply propagates_foldR; intros
    | apply propagates_with
    | apply propagates_bind; [|intros]
    | progress cbv beta iota
    | match goal with
      | |- propagates (match ?x with _ => _ end) => destruct x
      | |- propagates ((match ?x with _ => _ end) _) => destruct x
      end ].

(** The steps of a proof that a piece of code is a sequence of library
    calls. *)
Ltac transparent_step :=
  first
    [ apply transparent_ret
    | apply transparent_logged
    | apply transparent_mapR; intros
    | apply transparent_foldR; intros
    | apply transparent_bind; [|intros]
    | progress cbv beta iota
    | match goal with
      | |- transparent (match ?x with _ => _ end) => destruct x
      | |- transparent ((match ?x with _ => _ end) _) => destruct x
      end ].

Section transparent_code.
Context {S I Tr T Fig : Type}.
Context `{!NDArrayOps (St S) T, !GluonOps (St S) T, !IndexOps (St S) T,
          !ContribOps (St S) T, !TrainOps (St S) I Tr T,
          !DisplayOps (St S) T Fig, !Calls.LayerOps (St S),
          !Calls.SoftmaxOps (St S) T, !Calls.ArithOps (St S) T,
          !Calls.PlotOps (St S) T}.

Lemma transparent_softmax (X : T) :
  transparent (Calls.softmax (m:=M S I T) X).
Proof. unfold Calls.softmax. repeat transparent_step. Qed.

Lemma transparent_net (W b : T) num_inputs (X : T) :
  transparent (Calls.net (m:=M S I T) W b num_inputs X).
Proof.
  unfold Calls.net. repeat first [apply transparent_softmax | transparent_step].
Qed.

Lemma transparent_cross_entropy (y_hat y : T) :
  transparent (Calls.cross_entropy (m:=M S I T) y_hat y).
Proof. unfold Calls.cross_entropy. repeat transparent_step. Qed.

Lemma transparent_accuracy (y_hat y : T) :
  transparent (Calls.accuracy (m:=M S I T) y_hat y).
Proof. unfold Calls.accuracy. repeat transparent_step. Qed.

Lemma transparent_xyplot (x_vals y_vals : T) name :
  transparent (Calls.xyplot (m:=M S I T) x_vals y_vals name).
Proof. unfold Calls.xyplot. repeat transparent_step. Qed.

Lemma transparent_focal_loss gamma (x : T) :
  transparent (Calls.focal_loss (m:=M S I T) gamma x).
Proof. unfold Calls.focal_loss. repeat transparent_step. Qed.

Lemma transparent_forward_block (x : T) block :
  transparent (Calls.forward (m:=M S I T) x block).
Proof. unfold Calls.forward. repeat transparent_step. Qed.

Lemma transparent_down_sample_blk num_channels :
  transparent (Calls.down_sample_blk (m:=M S I T) num_channels).
Proof. unfold Calls.down_sample_blk. repeat transparent_step. Qed.

Lemma transparent_base_net : transparent (Calls.base_net (m:=M S I T)).
Proof.
  unfold Calls.base_net.
  repeat first [apply transparent_down_sample_blk | transparent_step].
Qed.

Lemma transparent_get_blk i : transparent (Calls.get_blk (m:=M S I T) i).
Proof.
  unfold Calls.get_blk. repeat case_decide;
    [apply transparent_base_net|apply transparent_logged
    |apply transparent_down_sample_blk].
Qed.

Lemma transparent_TinySSD_init num_classes :
  transparent (Calls.TinySSD_init (m:=M S I T) num_classes).
Proof.
  unfold Calls.TinySSD_init, Calls.cls_predictor, Calls.bbox_predictor.
  repeat first [apply transparent_get_blk | transparent_step].
Qed.

Lemma transparent_concat_preds (preds : list T) :
  transparent (concat_preds (m:=M S I T) preds).
Proof. unfold concat_preds, flatten_pred. repeat transparent_step. Qed.

Lemma transparent_blk_forward (X : T) blk size ratio cls bbox :
  transparent (blk_forward (m:=M S I T) X blk size ratio cls bbox).
Proof. unfold blk_forward. repeat transparent_step. Qed.

Lemma transparent_calc_loss (cls_preds cls_labels bbox_preds bbox_labels
    bbox_masks : T) :
  transparent (calc_loss (m:=M S I T) cls_preds cls_labels bbox_preds
                 bbox_labels bbox_masks).
Proof. unfold calc_loss. repeat transparent_step. Qed.

Lemma transparent_cls_eval (cls_preds cls_labels : T) :
  transparent (cls_eval (m:=M S I T) cls_preds cls_labels).
Proof. unfold cls_eval. repeat transparent_step. Qed.

Lemma transparent_bbox_eval (bbox_preds bbox_labels bbox_masks : T) :
  transparent (bbox_eval (m:=M S I T) bbox_preds bbox_labels bbox_masks).
Proof. unfold bbox_eval. repeat transparent_step. Qed.
End transparent_code.

Section propagation_code.
Context {S I Tr T Fig : Type}.
Context `{!NDArrayOps (St S) T, !GluonOps (St S) T, !IndexOps (St S) T,
          !ContribOps (St S) T, !TrainOps (St S) I Tr T,
          !DisplayOps (St S) T Fig}.

Lemma propagates_concat_preds (preds : list T) :
  propagates (concat_preds (m:=M S I T) preds).
Proof. apply transparent_propagates, transparent_concat_preds. Qed.

Lemma propagates_display (img output : T) threshold :
  propagates (display (m:=M S I T) (Fig:=Fig) img output threshold).
Proof.
  unfold display, display_row, unpack2.
  repeat first [destruct (Qlt_le_dec _ _) | propagates_step].
Qed.

Lemma propagates_forward self (X : T) :
  propagates (forward (m:=M S I T) self X).
Proof.
  unfold forward, forward_step, forward_outputs, blk_forward.
  repeat first [apply propagates_concat_preds | propagates_step].
Qed.

Lemma propagates_predict net (X : T) :
  propagates (predict (m:=M S I T) net X).
Proof.
  unfold predict. repeat first [apply propagates_forward | propagates_step].
Qed.

Lemma propagates_evaluate_accuracy data_iter (net : T → M S I T T) :
  (∀ X, propagates (net X)) →
  propagates (evaluate_accuracy data_iter net).
Proof.
  intros Hnet. unfold evaluate_accuracy.
  repeat first [apply Hnet | propagates_step].
Qed.

Lemma propagates_train_ch3_epoch (net : T → M S I T T) train_iter
    test_iter (loss : T → T → M S I T T) batch_size params lr trainer
    epoch :
  (∀ X, propagates (net X)) → (∀ y_hat y, propagates (loss y_hat y)) →
  propagates (train_ch3_epoch net train_iter test_iter loss batch_size
                params lr trainer epoch).
Proof.
  intros Hnet Hloss. unfold train_ch3_epoch, train_ch3_batch.
  repeat first [apply Hnet | apply Hloss
               | by apply propagates_evaluate_accuracy | propagates_step].
Qed.

Lemma propagates_train_ch3 (net : T → M S I T T) train_iter test_iter
    (loss : T → T → M S I T T) num_epochs batch_size params lr trainer :
  (∀ X, propagates (net X)) → (∀ y_hat y, propagates (loss y_hat y)) →
  propagates (train_ch3 net train_iter test_iter loss num_epochs batch_size
                params lr trainer).
Proof.
  intros Hnet Hloss. unfold train_ch3.
  apply propagates_foldR. intros _ epoch.
  by apply propagates_train_ch3_epoch.
Qed.

Lemma propagates_ssd_train net (train_iter : I) (trainer : Tr) batch_size :
  propagates (ssd_train (m:=M S I T) net train_iter trainer batch_size).
Proof.
  unfold ssd_train, ssd_train_epoch, ssd_train_batch, calc_loss, cls_eval,
    bbox_eval.
  repeat first [apply propagates_forward | case_decide | propagates_step].
Qed.

Lemma first_call_bind {A B} name args (op : St S A) (f : A → M S I T B) w :
  (∀ a, propagates (f a)) →
  ∃ err evs,
    trace ((logged name args op ≫= f) w).1
    = trace w ++ Call name args err :: evs.
Proof.
  intros Hf. unfold mbind, M_bind, logged.
  destruct (op (lib w)) as [s [a|e]]; cbn [error_of].
  - destruct (Hf a (World s (trace w ++ [Call name args None])))
      as (evs & Hevs & _).
    exists None, evs. rewrite Hevs. cbn. by rewrite <- app_assoc.
  - by exists (Some e), [].
Qed.

(** The first thing [predict] does is a library call on its argument as
    it is. *)
Lemma predict_first_call net (X : T) w :
  ∃ err evs,
    trace (predict (m:=M S I T) net X w).1
    = trace w ++ Call "as_in_context" [X] err :: evs.
Proof.
  apply first_call_bind. intros X'.
  repeat first [apply propagates_forward | propagates_step].
Qed.

Lemma first_iter_bind {A B} it flat (op : St S (list A))
    (f : list A → M S I T B) w :
  (∀ a, propagates (f a)) →
  ∃ ev evs,
    trace ((logged_iter it flat op ≫= f) w).1 = trace w ++ ev :: evs ∧
    ((∃ batches, ev = Yield it batches) ∨ (∃ e, ev = Call "iter" [] (Some e))).
Proof.
  intros Hf. unfold mbind, M_bind, logged_iter.
  destruct (op (lib w)) as [s [bs|e]].
  - destruct (Hf bs (World s (trace w ++ [Yield it (flat <$> bs)])))
      as (evs & Hevs & _).
    eexists _, evs. rewrite Hevs. cbn. rewrite <- app_assoc.
    split; [done|]. left. by eexists.
  - eexists _, []. split; [done|]. right. by eexists.
Qed.

Lemma train_ch3_epoch_first_call {B} (net : T → M S I T T) train_iter
    test_iter (loss : T → T → M S I T T) batch_size params lr trainer
    epoch (rest : () → M S I T B) w :
  (∀ X, propagates (net X)) → (∀ y_hat y, propagates (loss y_hat y)) →
  (∀ u, propagates (rest u)) →
  ∃ ev evs,
    trace ((train_ch3_epoch net train_iter test_iter loss batch_size
              params lr trainer epoch ≫= rest) w).1
    = trace w ++ ev :: evs ∧
    ((∃ batches, ev = Yield train_iter batches) ∨
     (∃ e, ev = Call "iter" [] (Some e))).
Proof.
  intros Hnet Hloss Hrest. unfold train_ch3_epoch. cbv beta iota.
  rewrite mbind_assoc. apply first_iter_bind. intros bs.
  unfold train_ch3_batch.
  repeat first [apply Hnet | apply Hloss | apply Hrest
               | by apply propagates_evaluate_accuracy | propagates_step].
Qed.

(** The first thing [train_ch3] does, when it has an epoch to run, is a
    pass over [train_iter]. *)
Lemma train_ch3_first_call (net : T → M S I T T) train_iter test_iter
    (loss : T → T → M S I T T) num_epochs batch_size params lr trainer w :
  (∀ X, propagates (net X)) → (∀ y_hat y, propagates (loss y_hat y)) →
  ∃ ev evs,
    trace (train_ch3 net train_iter test_iter loss (Datatypes.S num_epochs)
             batch_size params lr trainer w).1
    = trace w ++ ev :: evs ∧
    ((∃ batches, ev = Yield train_iter batches) ∨
     (∃ e, ev = Call "iter" [] (Some e))).
Proof.
  intros Hnet Hloss. unfold train_ch3.
  change (range (Datatypes.S num_epochs)) with (0%nat :: seq 1 num_epochs).
  cbn [foldR]. apply train_ch3_epoch_first_call; [done..|].
  intros u. apply propagates_foldR. intros _ epoch.
  by apply propagates_train_ch3_epoch.
Qed.
End propagation_code.


(** ** What a run that returns has logged *)

(** The calls that make a training step, as the log shows them. *)
Inductive step_kind (I T : Type) : Type :=
| KYield (it : I) (batches : list (list T))
| KForward (X : T)
| KLoss (y : T)
| KClsLoss
| KBboxLoss
| KBackward
| KSgd
| KTrainerStep
| KDevice (x : T).
Arguments KYield {I T} it batches.
Arguments KForward {I T} X.
Arguments KLoss {I T} y.
Arguments KClsLoss {I T}.
Arguments KBboxLoss {I T}.
Arguments KBackward {I T}.
Arguments KSgd {I T}.
Arguments KTrainerStep {I T}.
Arguments KDevice {I T} x.

Definition kind {I T} (ev : event I T) : option (step_kind I T) :=
  match ev with
  | Yield it batches => Some (KYield it batches)
  | Call "net" [X] None => Some (KForward X)
  | Call "loss" [_; y] None => Some (KLoss y)
  | Call "SoftmaxCrossEntropyLoss" _ None => Some KClsLoss
  | Call "L1Loss" _ None => Some KBboxLoss
  | Call "backward" _ None => Some KBackward
  | Call "d2l.sgd" _ None => Some KSgd
  | Call "Trainer.step" _ None => Some KTrainerStep
  | Call "as_in_context" [x] None => Some (KDevice x)
  | _ => None
  end%string.

Section emits.
Context {S I T : Type}.

(** When [c] returns [a], none of the calls it has logged has failed, and
    the training steps among them satisfy [R a]. *)
Definition emits {A} (c : M S I T A)
    (R : A → list (step_kind I T) → Prop) : Prop :=
  ∀ w w' a, c w = (w', Ok a) →
    ∃ evs, trace w' = trace w ++ evs ∧
      Forall (λ ev, ¬ failed ev) evs ∧ R a (omap kind evs).

(** When [c] returns, the training steps it has logged are [ks]. *)
Definition emits_fix {A} (c : M S I T A) (ks : list (step_kind I T)) : Prop :=
  emits c (λ _ ks', ks' = ks).

Lemma emits_weaken {A} (c : M S I T A) (R R' : A → _ → Prop) :
  emits c R → (∀ a ks, R a ks → R' a ks) → emits c R'.
Proof.
  intros Hc HR w w' a Hrun. destruct (Hc w w' a Hrun) as (evs & ? & ? & ?).
  exists evs. auto.
Qed.

Lemma emits_bind {A B} (c : M S I T A) (f : A → M S I T B) R1 R2 :
  emits c R1 → (∀ a, emits (f a) (R2 a)) →
  emits (c ≫= f)
    (λ b ks, ∃ a k1 k2, ks = k1 ++ k2 ∧ R1 a k1 ∧ R2 a b k2).
Proof.
  intros Hc Hf w w' b. unfold mbind, M_bind.
  destruct (c w) as [w1 [a|e]] eqn:Hcw; [|done]. intros Hrun.
  destruct (Hc w w1 a Hcw) as (evs1 & Htr1 & Hok1 & HR1).
  destruct (Hf a w1 w' b Hrun) as (evs2 & Htr2 & Hok2 & HR2).
  exists (evs1 ++ evs2). split; [by rewrite Htr2, Htr1, app_assoc|].
  split; [by apply Forall_app|].
  exists a, (omap kind evs1), (omap kind evs2).
  by rewrite omap_app.
Qed.

Lemma emits_fix_eq {A} (c : M S I T A) ks ks' :
  emits_fix c ks → ks = ks' → emits_fix c ks'.
Proof. by intros ? <-. Qed.

Lemma emits_fix_bind {A B} (c : M S I T A) (f : A → M S I T B) k1 k2 :
  emits_fix c k1 → (∀ a, emits_fix (f a) k2) → emits_fix (c ≫= f) (k1 ++ k2).
Proof.
  intros Hc Hf. eapply emits_weaken.
  - by apply (emits_bind c f (λ _ ks, ks = k1) (λ _ _ ks, ks = k2)).
  - by intros b ks (a & ? & ? & -> & -> & ->).
Qed.

(** Fixed steps first, then steps that depend on the run. *)
Lemma emits_bind_fix_l {A B} (c : M S I T A) (f : A → M S I T B) k1
    (P : list (step_kind I T) → Prop) :
  emits_fix c k1 → (∀ a, emits (f a) (λ _, P)) →
  emits (c ≫= f) (λ _ ks, ∃ k2, ks = k1 ++ k2 ∧ P k2).
Proof.
  intros Hc Hf. eapply emits_weaken.
  - by apply (emits_bind c f (λ _ ks, ks = k1) (λ _ _, P)).
  - intros b ks (a & ? & k2 & -> & -> & ?). by exists k2.
Qed.

(** Steps that depend on the run, then code that logs none. *)
Lemma emits_bind_silent_r {A B} (c : M S I T A) (f : A → M S I T B)
    (P : list (step_kind I T) → Prop) :
  emits c (λ _, P) → (∀ a, emits_fix (f a) []) → emits (c ≫= f) (λ _, P).
Proof.
  intros Hc Hf. eapply emits_weaken.
  - by apply (emits_bind c f (λ _, P) (λ _ _ ks, ks = [])).
  - intros b ks (a & k1 & ? & -> & ? & ->). by rewrite app_nil_r.
Qed.

Lemma emits_bind_ret {A B} (a : A) (f : A → M S I T B) R :
  emits (f a) R → emits (mret a ≫= f) R.
Proof. intros Hf w w' b Hrun. exact (Hf w w' b Hrun). Qed.

Lemma emits_fix_ret {A} (a : A) : emits_fix (mret a) [].
Proof.
  intros w w' a' Hrun. injection Hrun as <- <-.
  exists []. by rewrite app_nil_r.
Qed.

(** A [with] block that returns: the scope was entered, the body has
    returned, and the scope was left, all without a failure. *)
Lemma emits_fix_with {A} (enter exit_ : M S I T unit) (body : M S I T A)
    k1 k2 k3 :
  emits_fix enter k1 → emits_fix body k2 → emits_fix exit_ k3 →
  emits_fix (with_ enter exit_ body) (k1 ++ k2 ++ k3).
Proof.
  intros Henter Hbody Hexit w w' a.
  unfold with_, mbind, M_bind, mtry, M_try.
  destruct (enter w) as [w1 [[]|e]] eqn:Hw1; [|done].
  destruct (body w1) as [w2 [a'|e]] eqn:Hw2; cbn.
  - destruct (exit_ w2) as [w3 [[]|e]] eqn:Hw3; [|done].
    intros [= <- <-].
    destruct (Henter _ _ _ Hw1) as (evs1 & Htr1 & Hok1 & Hk1).
    destruct (Hbody _ _ _ Hw2) as (evs2 & Htr2 & Hok2 & Hk2).
    destruct (Hexit _ _ _ Hw3) as (evs3 & Htr3 & Hok3 & Hk3).
    exists (evs1 ++ evs2 ++ evs3).
    split; [by rewrite Htr3, Htr2, Htr1, <- !app_assoc|].
    split; [by rewrite !Forall_app|].
    by rewrite !omap_app, Hk1, Hk2, Hk3.
  - by destruct (exit_ w2) as [w3 [[]|e']].
Qed.

Lemma emits_fix_raise {A} (e : exn) ks : emits_fix (mraise (A:=A) e) ks.
Proof. by intros w w' a'. Qed.

Lemma emits_fix_logged {A} name args (op : St S A) :
  emits_fix (logged name args op)
    (option_list (kind (Call (I:=I) name args None))).
Proof.
  intros w w' a. unfold logged. destruct (op (lib w)) as [s [a'|e]]; [|done].
  intros [= <- <-]. exists [Call name args None]. split; [done|].
  split; [repeat constructor; by intros []|].
  cbn [omap list_omap]. by destruct (kind _).
Qed.

Lemma emits_fix_logged_kind {A} name args (op : St S A) k :
  kind (Call (I:=I) name args None) = k →
  emits_fix (logged name args op) (option_list k).
Proof. intros <-. apply emits_fix_logged. Qed.

Lemma emits_logged_iter {B} it flat (op : St S (list B)) :
  emits (logged_iter it flat op) (λ bs ks, ks = [KYield it (flat <$> bs)]).
Proof.
  intros w w' a. unfold logged_iter.
  destruct (op (lib w)) as [s [bs|e]]; [|done].
  intros [= <- <-]. exists [Yield it (flat <$> bs)].
  split; [done|]. split; [repeat constructor; by intros []|done].
Qed.

Lemma emits_fix_foldR {A B} (f : B → A → M S I T B) (g : A → list _) l b :
  (∀ b a, emits_fix (f b a) (g a)) →
  emits_fix (foldR f l b) (flat_map g l).
Proof.
  intros Hf. revert b. induction l as [|a l IH]; intros b; cbn [foldR].
  - apply emits_fix_ret.
  - cbn [flat_map]. by apply emits_fix_bind.
Qed.

(** A loop whose iterations log steps that depend on the run. *)
Lemma emits_foldR_ex {A B X} (f : B → A → M S I T B)
    (g : X → list (step_kind I T)) l b :
  (∀ b a, emits (f b a) (λ _ ks, ∃ x, ks = g x)) →
  emits (foldR f l b)
    (λ _ ks, ∃ xs, length xs = length l ∧ ks = flat_map g xs).
Proof.
  intros Hf. revert b. induction l as [|a l IH]; intros b; cbn [foldR].
  - eapply emits_weaken; [apply emits_fix_ret|].
    intros _ ks ->. by exists [].
  - eapply emits_weaken; [apply emits_bind; [apply Hf|apply IH]|].
    intros _ ks (b' & k1 & k2 & -> & (x & ->) & xs & Hlen & ->).
    exists (x :: xs). cbn. by rewrite Hlen.
Qed.

Lemma emits_fix_foldR_silent {A B} (f : B → A → M S I T B) l b :
  (∀ b a, emits_fix (f b a) []) → emits_fix (foldR f l b) [].
Proof.
  intros Hf. revert b. induction l as [|a l IH]; intros b; cbn [foldR].
  - apply emits_fix_ret.
  - by apply (emits_fix_bind _ _ [] []).
Qed.

Lemma emits_fix_mapR {A B} (f : A → M S I T B) l :
  (∀ a, emits_fix (f a) []) → emits_fix (mapR f l) [].
Proof.
  intros Hf. induction l as [|a l IH]; cbn [mapR].
  - apply emits_fix_ret.
  - apply (emits_fix_bind _ _ [] []); [done|]. intros b.
    apply (emits_fix_bind _ _ [] []); [done|]. intros bs.
    apply emits_fix_ret.
Qed.

Lemma emits_fix_getattr self name :
  emits_fix (getattr (m:=M S I T) self name) [].
Proof.
  unfold getattr. destruct (attrs self !! name);
    [apply emits_fix_ret|apply emits_fix_raise].
Qed.

Lemma emits_fix_subscript {A} (l : list A) i :
  emits_fix (subscript (m:=M S I T) l i) [].
Proof.
  unfold subscript. destruct (l !! i);
    [apply emits_fix_ret|apply emits_fix_raise].
Qed.

Lemma emits_fix_setitem {A} (l : list A) i v :
  emits_fix (setitem (m:=M S I T) l i v) [].
Proof.
  unfold setitem. case_decide; [apply emits_fix_ret|apply emits_fix_raise].
Qed.

Lemma emits_fix_star {A} (l : list (option A)) :
  emits_fix (star (m:=M S I T) l) [].
Proof.
  apply emits_fix_mapR. intros [a|];
    [apply emits_fix_ret|apply emits_fix_raise].
Qed.

Lemma emits_fix_py_div x n : emits_fix (py_div (m:=M S I T) x n) [].
Proof.
  unfold py_div. case_decide; [apply emits_fix_raise|apply emits_fix_ret].
Qed.
End emits.

(** The steps of a proof of what straight-line code logs. *)
Ltac emits_step :=
  first
    [ apply emits_fix_ret
    | apply emits_fix_raise
    | eapply emits_fix_logged_kind; [cbv; reflexivity]
    | apply emits_fix_getattr
    | apply emits_fix_subscript
    | apply emits_fix_setitem
    | apply emits_fix_star
    | apply emits_fix_py_div
    | eapply emits_fix_with
    | eapply emits_fix_bind; [|intros]
    | progress cbv beta iota
    | match goal with
      | |- emits_fix (match ?x with _ => _ end) _ => destruct x
      | |- emits_fix ((match ?x with _ => _ end) _) _ => destruct x
      end ].

Ltac emits_straight_line := eapply emits_fix_eq; [repeat emits_step|].

(** The optimizer step that [train_ch3] takes. *)
Definition optimizer_step {I Tr T} (trainer : option Tr) : step_kind I T :=
  match trainer with
  | None => KSgd
  | Some _ => KTrainerStep
  end.

(** What one batch of [train_ch3] logs. *)
Definition train_ch3_batch_steps {I Tr T} (trainer : option Tr)
    (batch : T * T) : list (step_kind I T) :=
  [KForward batch.1; KLoss batch.2; KBackward; optimizer_step trainer].

(** What one epoch of [train_ch3] logs: the pass over [train_iter], the
    training steps on its batches in order, the pass over [test_iter] and
    the forward computation on its batches. *)
Definition train_ch3_epoch_steps {I Tr T} (train_iter test_iter : I)
    (trainer : option Tr) (batches : list (T * T) * list (T * T)) :
    list (step_kind I T) :=
  KYield train_iter ((λ '(X, y), [X; y]) <$> batches.1)
  :: flat_map (train_ch3_batch_steps trainer) batches.1
  ++ KYield test_iter ((λ '(X, y), [X; y]) <$> batches.2)
  :: flat_map (λ batch, [KForward batch.1]) batches.2.

(** What one batch of the training cell of the detector logs. *)
Definition ssd_batch_steps {I T} (batch : DataBatch T) : list (step_kind I T) :=
  (KDevice <$> take 1 (data batch)) ++ (KDevice <$> take 1 (label batch))
  ++ [KClsLoss; KBboxLoss; KBackward; KTrainerStep].

Definition ssd_epoch_steps {I T} (train_iter : I)
    (batches : list (DataBatch T)) : list (step_kind I T) :=
  KYield train_iter ((λ batch, data batch ++ label batch) <$> batches)
  :: flat_map ssd_batch_steps batches.

Section training_log.
Context {S I Tr T : Type}.
Context `{!NDArrayOps (St S) T, !GluonOps (St S) T, !IndexOps (St S) T,
          !ContribOps (St S) T, !TrainOps (St S) I Tr T}.
Context (net : T → St S T) (loss : T → T → St S T).

(** The callables [net] and [loss] that [train_ch3] is given. *)
Definition logged_net (X : T) : M S I T T := logged "net" [X] (net X).
Definition logged_loss (y_hat y : T) : M S I T T :=
  logged "loss" [y_hat; y] (loss y_hat y).

Lemma emits_train_ch3_batch batch_size params lr (trainer : option Tr)
    st batch :
  emits_fix
    (train_ch3_batch logged_net logged_loss batch_size params lr trainer
       st batch)
    (train_ch3_batch_steps trainer batch).
Proof.
  destruct st as [[train_l_sum train_acc_sum] n], batch as [X y].
  unfold train_ch3_batch, logged_net, logged_loss.
  destruct trainer; (emits_straight_line; [done]).
Qed.

Lemma emits_evaluate_accuracy (data_iter : I) :
  emits (evaluate_accuracy data_iter logged_net)
    (λ _ ks, ∃ batches : list (T * T),
       ks = KYield data_iter ((λ '(X, y), [X; y]) <$> batches)
            :: flat_map (λ batch, [KForward batch.1]) batches).
Proof.
  unfold evaluate_accuracy. cbv beta iota.
  eapply emits_weaken.
  - eapply emits_bind; [apply emits_logged_iter|]. intros batches.
    apply (emits_fix_bind _ _
             (flat_map (λ batch : T * T, [KForward batch.1]) batches) []).
    + apply emits_fix_foldR. intros [acc_sum n] [X y].
      unfold logged_net. emits_straight_line. done.
    + intros [acc_sum n]. apply emits_fix_py_div.
  - intros _ ks (batches & k1 & k2 & -> & -> & ->).
    exists batches. by rewrite app_nil_r.
Qed.

Lemma emits_train_ch3_epoch train_iter test_iter batch_size params lr
    (trainer : option Tr) epoch :
  emits
    (train_ch3_epoch logged_net train_iter test_iter logged_loss batch_size
       params lr trainer epoch)
    (λ _ ks, ∃ batches,
       ks = train_ch3_epoch_steps train_iter test_iter trainer batches).
Proof.
  unfold train_ch3_epoch. cbv beta iota.
  eapply emits_weaken.
  - apply (emits_bind _ _
             (λ bs ks, ks = [KYield train_iter ((λ '(X, y), [X; y]) <$> bs)])
             (λ bs _ ks, ∃ k2,
                ks = flat_map (train_ch3_batch_steps trainer) bs ++ k2 ∧
                ∃ test_batches : list (T * T),
                  k2 = KYield test_iter ((λ '(X, y), [X; y]) <$> test_batches)
                       :: flat_map (λ batch, [KForward batch.1])
                            test_batches)).
    { apply emits_logged_iter. }
    intros batches. apply emits_bind_fix_l.
    { apply (emits_fix_foldR _ (train_ch3_batch_steps trainer)).
      intros. apply emits_train_ch3_batch. }
    intros [[train_l_sum train_acc_sum] n].
    apply emits_bind_silent_r; [apply emits_evaluate_accuracy|].
    intros test_acc. emits_straight_line. done.
  - intros _ ks (batches & k1 & k2 & -> & -> & k3 & -> & test_batches & ->).
    by exists (batches, test_batches).
Qed.

Lemma emits_train_ch3 train_iter test_iter num_epochs batch_size params lr
    (trainer : option Tr) :
  emits
    (train_ch3 logged_net train_iter test_iter logged_loss num_epochs
       batch_size params lr trainer)
    (λ _ ks, ∃ epochs, length epochs = num_epochs ∧
       ks = flat_map (train_ch3_epoch_steps train_iter test_iter trainer)
              epochs).
Proof.
  unfold train_ch3. eapply emits_weaken.
  - apply (emits_foldR_ex _
             (train_ch3_epoch_steps train_iter test_iter trainer)).
    intros _ epoch. apply emits_train_ch3_epoch.
  - intros _ ks (epochs & Hlen & ->). exists epochs.
    split; [|done]. rewrite Hlen. apply length_seq.
Qed.

End training_log.

Section detection_log.
Context {S I Tr T : Type}.
Context `{!NDArrayOps (St S) T, !GluonOps (St S) T, !IndexOps (St S) T,
          !ContribOps (St S) T, !TrainOps (St S) I Tr T}.

Lemma emits_concat_preds (preds : list T) :
  emits_fix (concat_preds (m:=M S I T) preds) [].
Proof.
  unfold concat_preds, flatten_pred.
  apply (emits_fix_bind _ _ [] []).
  - apply emits_fix_mapR. intros pred. emits_straight_line. done.
  - intros flat. emits_straight_line. done.
Qed.

Lemma emits_forward self (X : T) :
  emits_fix (forward (m:=M S I T) self X) [].
Proof.
  unfold forward, forward_outputs.
  apply (emits_fix_bind _ _ [] []).
  - apply emits_fix_foldR_silent. intros [[[X' anchors] cls_preds] bbox_preds] i.
    unfold forward_step, blk_forward. emits_straight_line. done.
  - intros [[[X' anchors] cls_preds] bbox_preds].
    eapply emits_fix_eq;
      [repeat first [apply emits_concat_preds | emits_step]|done].
Qed.

Lemma emits_ssd_train_batch net (trainer : Tr) batch_size st batch :
  emits_fix
    (ssd_train_batch (m:=M S I T) net trainer batch_size st batch)
    (ssd_batch_steps batch).
Proof.
  destruct st as [[[acc_sum mae_sum] n] m'].
  unfold ssd_train_batch, ssd_batch_steps, calc_loss, cls_eval, bbox_eval.
  destruct (data batch) as [|X0 ?]; [apply emits_fix_raise|].
  change (subscript (X0 :: l) 0) with (mret (M:=M S I T) X0).
  apply emits_bind_ret.
  apply (emits_fix_bind _ _ [KDevice X0]);
    [by apply (emits_fix_logged_kind _ _ _ (Some (KDevice X0)))|].
  intros X.
  destruct (label batch) as [|Y0 ?]; [apply emits_fix_raise|].
  change (subscript (Y0 :: l0) 0) with (mret (M:=M S I T) Y0).
  apply emits_bind_ret.
  eapply emits_fix_eq;
    [repeat first [apply emits_forward | emits_step]|done].
Qed.

Lemma emits_ssd_train_epoch net (train_iter : I) (trainer : Tr) batch_size
    epoch :
  emits
    (ssd_train_epoch (m:=M S I T) net train_iter trainer batch_size epoch)
    (λ _ ks, ∃ batches, ks = ssd_epoch_steps train_iter batches).
Proof.
  unfold ssd_train_epoch. cbv beta iota.
  eapply emits_weaken.
  - apply (emits_bind_fix_l _ _ []);
      [by apply (emits_fix_logged_kind _ _ _ None)|]. intros _.
    apply (emits_bind_fix_l _ _ []);
      [by apply (emits_fix_logged_kind _ _ _ None)|]. intros start.
    apply (emits_bind _ _
             (λ bs ks,
                ks = [KYield train_iter
                        ((λ batch, data batch ++ label batch) <$> bs)])
             (λ bs _ ks, ks = flat_map ssd_batch_steps bs)).
    { apply emits_logged_iter. }
    intros batches.
    apply (emits_fix_eq _ (flat_map ssd_batch_steps batches ++ []));
      [|by rewrite app_nil_r].
    apply emits_fix_bind.
    { apply emits_fix_foldR. intros. apply emits_ssd_train_batch. }
    intros [[[acc_sum mae_sum] n] m']. case_decide.
    + emits_straight_line. done.
    + apply emits_fix_ret.
  - intros _ ks (? & -> & ? & -> & batches & k1 & k2 & -> & -> & ->).
    by exists batches.
Qed.

Lemma emits_ssd_train net (train_iter : I) (trainer : Tr) batch_size :
  emits (ssd_train (m:=M S I T) net train_iter trainer batch_size)
    (λ _ ks, ∃ epochs, length epochs = 20%nat ∧
       ks = flat_map (ssd_epoch_steps train_iter) epochs).
Proof.
  unfold ssd_train.
  apply (emits_foldR_ex _ (ssd_epoch_steps train_iter)).
  intros _ epoch. apply emits_ssd_train_epoch.
Qed.
End detection_log.


(** ** Reading arrays with contents *)

Module ValueIndex.

(** [x[i]]; a negative index counts from the end. *)
Definition getitem {A} (x : ndarray A) (i : Z) : result (ndarray A) :=
  match shape_of x with
  | [] => Raise IndexError
  | d :: rest =>
      let i := if decide (i < 0) then i + d else i in
      if decide (0 ≤ i < d)
      then Ok (NDArray rest (λ idx, item x (i :: idx)))
      else Raise IndexError
  end.

Definition iter {A} (x : ndarray A) : result (list (ndarray A)) :=
  match shape_of x with
  | [] => Raise TypeError
  | d :: _ => mapR (getitem x) (Z.of_nat <$> seq 0 (Z.to_nat d))
  end.

Definition asscalar {A} (x : ndarray A) : result A :=
  if decide (size_of (shape_of x) = 1)
  then Ok (item x (replicate (length (shape_of x)) 0))
  else Raise ValueError.

(** [x[i, idx]]: the rows of [x[i]] at the indices of the list [idx], in
    the order of [idx].  For an empty [idx] the model returns an array
    without rows; MXNet 1.x has no such array, and what it does instead is
    not modelled. *)
Definition take {A} (x : ndarray A) (i : Z) (idx : list nat) :
    result (ndarray A) :=
  x0 ← getitem x i;
  match shape_of x0 with
  | [] => Raise IndexError
  | d :: rest =>
      if decide (Forall (λ k, Z.of_nat k < d) idx)
      then Ok (NDArray (Z.of_nat (length idx) :: rest) (λ jdx,
             match jdx with
             | k :: jdx =>
                 item x0 (Z.of_nat (default 0%nat (idx !! Z.to_nat k)) :: jdx)
             | [] => item x0 []
             end))
      else Raise IndexError
  end.

Definition size {A} (x : ndarray A) : result Z := Ok (size_of (shape_of x)).

#[global] Instance value_index_ops : IndexOps result (ndarray Q) := {
  nd_getitem := getitem;
  nd_iter := iter;
  asscalar := asscalar;
  nd_take := take;
  nd_size := size;
}.

End ValueIndex.

(** A detection that non-maximum suppression removed has class id -1. *)
Definition removed (row : list Q) : bool :=
  match row with
  | class_id :: _ => Qeq_bool class_id (-1)
  | [] => false
  end.

Section predict_rows.
Import ValueIndex.
Implicit Types x : ndarray Q.

(** Row [i] of the matrix [x] of [d] columns. *)
Definition row_of x (d : Z) (i : nat) : list Q :=
  (λ j, item x [Z.of_nat i; Z.of_nat j]) <$> seq 0 (Z.to_nat d).

Lemma to_list2_rows x n d :
  shape_of x = [n; d] → to_list2 x = row_of x d <$> seq 0 (Z.to_nat n).
Proof. intros Hs. unfold to_list2. by rewrite Hs. Qed.

Lemma getitem_row x n d (i : nat) :
  shape_of x = [n; d] → Z.of_nat i < n →
  getitem x (Z.of_nat i)
  = Ok (NDArray [d] (λ idx, item x (Z.of_nat i :: idx))).
Proof.
  intros Hs Hi. unfold getitem. rewrite Hs. cbv zeta.
  rewrite (decide_False (P := Z.of_nat i < 0)) by lia.
  by rewrite decide_True by lia.
Qed.

Lemma iter_rows x n d :
  shape_of x = [n; d] →
  iter x = Ok ((λ i, NDArray [d] (λ idx, item x (Z.of_nat i :: idx)))
                 <$> seq 0 (Z.to_nat n)).
Proof.
  intros Hs. unfold iter. rewrite Hs.
  assert (∀ l, Forall (λ i : nat, Z.of_nat i < n) l →
    mapR (getitem x) (Z.of_nat <$> l)
    = Ok ((λ i, NDArray [d] (λ idx, item x (Z.of_nat i :: idx))) <$> l))
    as Hmap.
  { induction 1 as [|i l Hi _ IH]; [done|].
    rewrite !fmap_cons. cbn [mapR].
    by rewrite (getitem_row x n d), IH. }
  apply Hmap, Forall_forall. intros i Hi%elem_of_seq. lia.
Qed.

(** The class id of the row [i] of [x], as [predict] reads it. *)
Lemma class_id_row x d (i : nat) :
  0 < d →
  (row0 ← nd_getitem (NDArray [d] (λ idx, item x (Z.of_nat i :: idx))) 0;
   asscalar row0)
  = Ok (item x [Z.of_nat i; 0]).
Proof.
  intros Hd. cbn [nd_getitem value_index_ops]. unfold getitem. cbn [shape_of].
  cbv zeta. rewrite (decide_False (P := 0 < 0)) by lia.
  by rewrite decide_True by lia.
Qed.

Lemma getitem_no_column d (f : list Z → Q) :
  ¬ 0 < d → getitem (NDArray [d] f) 0 = Raise IndexError.
Proof.
  intros Hd. unfold getitem. cbn [shape_of]. cbv zeta.
  rewrite (decide_False (P := 0 < 0)) by lia.
  by rewrite decide_False by lia.
Qed.

(** The rows that [predict] keeps. *)
Definition kept x (d : Z) (i : nat) : Prop := ¬ removed (row_of x d i).

Lemma removed_row x d (i : nat) :
  0 < d → removed (row_of x d i) = Qeq_bool (item x [Z.of_nat i; 0]) (-1).
Proof.
  intros Hd. unfold row_of.
  destruct (Z.to_nat d) as [|d'] eqn:E; [lia|]. done.
Qed.

(** The loop that collects the indices of the rows to keep. *)
Lemma collect_kept x d (l : list nat) (acc : list nat) :
  0 < d →
  foldR (λ idx '(i, row),
           row0 ← nd_getitem row 0;
           class_id ← asscalar row0;
           mret (if Qeq_bool class_id (-1) then idx else idx ++ [i]))
    ((λ i, (i, NDArray [d] (λ idx, item x (Z.of_nat i :: idx)))) <$> l) acc
  = Ok (acc ++ filter (kept x d) l).
Proof.
  intros Hd. revert acc. induction l as [|i l IH]; intros acc.
  - cbn. by rewrite app_nil_r.
  - rewrite fmap_cons. cbn [foldR].
    pose proof (class_id_row x d i Hd) as Hid.
    destruct (nd_getitem _ 0) as [row0|e]; [|done]. simpl_result.
    rewrite Hid. simpl_result. rewrite IH.
    assert (kept x d i ↔ Qeq_bool (item x [Z.of_nat i; 0]) (-1) = false)
      as Hkept.
    { unfold kept. rewrite removed_row by done.
      destruct (Qeq_bool _ _); cbn; naive_solver. }
    destruct (Qeq_bool (item x [Z.of_nat i; 0]) (-1)) eqn:E.
    + rewrite filter_cons_False; [done|]. by rewrite Hkept.
    + rewrite filter_cons_True by by rewrite Hkept.
      by rewrite <- app_assoc.
Qed.

Lemma imap_pair_fmap_seq {B} (f : nat → B) n :
  imap pair (f <$> seq 0 n) = (λ i, (i, f i)) <$> seq 0 n.
Proof.
  assert (∀ k, imap (λ j, pair (k + j)%nat) (f <$> seq k n)
               = (λ i, (i, f i)) <$> seq k n) as H.
  { induction n as [|n IH]; intros k; [done|]. cbn [seq].
    rewrite !fmap_cons. cbn [imap]. rewrite Nat.add_0_r. f_equal.
    rewrite <- IH. apply imap_ext. intros j ? _. cbn.
    by rewrite Nat.add_succ_r. }
  apply (H 0%nat).
Qed.

Lemma fmap_lookup_seq {B} (g : nat → B) (idx : list nat) :
  (λ k, g (default 0%nat (idx !! k))) <$> seq 0 (length idx) = g <$> idx.
Proof.
  apply list_eq. intros k. rewrite !list_lookup_fmap.
  destruct (idx !! k) as [i|] eqn:E.
  - rewrite lookup_seq_lt by by eapply lookup_lt_Some. cbn. by rewrite E.
  - rewrite lookup_seq_ge; [done|]. by apply lookup_ge_None.
Qed.

Lemma filter_fmap {A B} (f : A → B) (P : B → Prop)
    `{!∀ b, Decision (P b)} (l : list A) :
  filter P (f <$> l) = f <$> filter (P ∘ f) l.
Proof.
  induction l as [|a l IH]; [done|]. rewrite fmap_cons.
  destruct (decide (P (f a))).
  - rewrite !filter_cons_True by done. by rewrite fmap_cons, IH.
  - by rewrite !filter_cons_False by done.
Qed.

(** The code of [predict] after the call of [MultiBoxDetection]. *)
Definition select_rows (output output0 : ndarray Q) : result (ndarray Q) :=
  rows ← nd_iter output0;
  idx ← foldR (λ idx '(i, row),
           row0 ← nd_getitem row 0;
           class_id ← asscalar row0;
           mret (if Qeq_bool class_id (-1) then idx else idx ++ [i]))
         (imap pair rows) [];
  nd_take output 0 idx.

(** On detections with a class id in every row, [predict] returns the
    rows of [output[0]] that were not removed, in their order. *)
Lemma select_rows_ok (output output0 : ndarray Q) n d :
  nd_getitem output 0 = Ok output0 → shape_of output0 = [n; d] →
  Z.to_nat n = 0%nat ∨ 0 < d →
  ∃ r, select_rows output output0 = Ok r ∧
    to_list2 r = filter (λ row, ¬ removed row) (to_list2 output0) ∧
    Forall (λ row, row ≠ []) (to_list2 output0).
Proof.
  intros Hout0 Hs Hnd. cbn [nd_getitem value_index_ops] in Hout0.
  unfold select_rows.
  cbn [nd_iter value_index_ops]. rewrite (iter_rows _ n d Hs).
  cbn [mbind result_bind]. rewrite imap_pair_fmap_seq.
  rewrite (to_list2_rows _ n d Hs).
  assert (foldR (λ idx '(i, row),
             row0 ← nd_getitem row 0;
             class_id ← asscalar row0;
             mret (if Qeq_bool class_id (-1) then idx else idx ++ [i]))
           ((λ i, (i, NDArray [d] (λ idx, item output0 (Z.of_nat i :: idx))))
              <$> seq 0 (Z.to_nat n)) []
          = Ok (filter (kept output0 d) (seq 0 (Z.to_nat n)))) as ->.
  { destruct Hnd as [->|Hd]; [done|]. by rewrite collect_kept. }
  simpl_result. cbn [nd_take value_index_ops]. unfold take.
  rewrite Hout0. simpl_result. rewrite Hs.
  rewrite decide_True.
  2:{ apply Forall_forall.
      intros i [_ Hi%elem_of_seq]%list_elem_of_filter. lia. }
  eexists. split; [done|]. split.
  - rewrite filter_fmap. unfold to_list2. cbn [shape_of item].
    change ([_; d] !!! 0%nat) with
      (Z.of_nat (length (filter (kept output0 d) (seq 0 (Z.to_nat n))))).
    change ([_; d] !!! 1%nat) with d. rewrite Nat2Z.id.
    rewrite <- (fmap_lookup_seq (row_of output0 d)).
    apply list_fmap_ext. intros _ k _. unfold row_of.
    apply list_fmap_ext. intros _ j _. by rewrite Nat2Z.id.
  - destruct Hnd as [->|Hd]; [done|].
    apply Forall_fmap, Forall_forall. intros i _. cbn. unfold row_of.
    destruct (Z.to_nat d) eqn:Ed; [lia|done].
Qed.

(** On rows without a class id, [row[0]] raises. *)
Lemma select_rows_no_column (output output0 : ndarray Q) n d :
  shape_of output0 = [n; d] → ¬ (Z.to_nat n = 0%nat ∨ 0 < d) →
  select_rows output output0 = Raise IndexError.
Proof.
  intros Hs Hnd. unfold select_rows.
  cbn [nd_iter value_index_ops]. rewrite (iter_rows _ n d Hs).
  cbn [mbind result_bind]. rewrite imap_pair_fmap_seq.
  destruct (Z.to_nat n) as [|n'] eqn:En; [by destruct Hnd; left|].
  cbn [seq]. rewrite fmap_cons. cbn [foldR].
  cbn [nd_getitem value_index_ops]. rewrite getitem_no_column; [done|].
  intros ?. apply Hnd. by right.
Qed.

Lemma rows_have_class_id (output0 : ndarray Q) n d :
  shape_of output0 = [n; d] →
  Forall (λ row, row ≠ []) (to_list2 output0) →
  Z.to_nat n = 0%nat ∨ 0 < d.
Proof.
  intros Hs Hrows. rewrite (to_list2_rows _ n d Hs) in Hrows.
  destruct (Z.to_nat n) as [|n'] eqn:En; [by left|right].
  cbn [seq] in Hrows. rewrite fmap_cons in Hrows.
  apply Forall_cons in Hrows as [Hrow _]. unfold row_of in Hrow.
  destruct (Z.to_nat d) eqn:Ed; [done|lia].
Qed.
End predict_rows.

(** C9: every row of the array that [predict] returns has a class id
    (index 0) different from -1; the rows are the rows of the first image of
    the detections that [MultiBoxDetection] returned (a three-axis array)
    without those marked as removed, in their original order.  And
    [predict] does return when the library calls before the selection
    return, every detection has a class id and at least one detection is
    kept. *)
Theorem predict_drops_removed_rows
    `{!GluonOps result (ndarray Q), !ContribOps result (ndarray Q)} :
  (∀ cls_probs bbox_preds anchors output,
     MultiBoxDetection cls_probs bbox_preds anchors = Ok output →
     length (shape_of output) = 3%nat) →
  ∀ net (X : ndarray Q),
    (∀ r, predict net X = Ok r →
       ∃ cls_probs bbox_preds anchors output output0,
         MultiBoxDetection cls_probs bbox_preds anchors = Ok output ∧
         nd_getitem output 0 = Ok output0 ∧
         to_list2 r = filter (λ row, ¬ removed row) (to_list2 output0) ∧
         Forall (λ row, ∃ class_id, row !! 0%nat = Some class_id ∧
                                    ¬ (class_id == -1)%Q) (to_list2 r)) ∧
    (∀ X' anchors cls_preds bbox_preds probs cls_probs output output0,
       as_in_context X = Ok X' →
       forward net X' = Ok (anchors, cls_preds, bbox_preds) →
       nd_softmax cls_preds = Ok probs →
       nd_transpose probs [0; 2; 1]%nat = Ok cls_probs →
       MultiBoxDetection cls_probs bbox_preds anchors = Ok output →
       nd_getitem output 0 = Ok output0 →
       Forall (λ row, row ≠ []) (to_list2 output0) →
       Exists (λ row, ¬ removed row) (to_list2 output0) →
       ∃ r, predict net X = Ok r).
Proof.
  intros Hthree net X.
  assert (∀ output output0,
    length (shape_of output) = 3%nat → nd_getitem output 0 = Ok output0 →
    ∃ n d, shape_of output0 = [n; d]) as Hshape.
  { intros output output0 Hlen Hout0.
    cbn [nd_getitem ValueIndex.value_index_ops] in Hout0.
    unfold ValueIndex.getitem in Hout0.
    destruct (shape_of output) as [|b [|n [|d [|]]]]; try done.
    case_decide; [|done]. injection Hout0 as <-. by exists n, d. }
  split.
  - intros r. unfold predict.
    destruct (as_in_context X) as [X'|e]; [|done]. simpl_result.
    destruct (forward net X') as [[[anchors cls_preds] bbox_preds]|e]; [|done].
    simpl_result.
    destruct (nd_softmax cls_preds) as [probs|e]; [|done]. simpl_result.
    destruct (nd_transpose probs _) as [cls_probs|e]; [|done]. simpl_result.
    destruct (MultiBoxDetection cls_probs bbox_preds anchors)
      as [output|e] eqn:Hdet; [|done]. simpl_result.
    destruct (nd_getitem output 0) as [output0|e] eqn:Hout0; [|done].
    intros Hrun. change (select_rows output output0 = Ok r) in Hrun.
    destruct (Hshape output output0) as (n & d & Hs); [by eapply Hthree|done|].
    destruct (decide (Z.to_nat n = 0%nat ∨ 0 < d)) as [Hnd|Hnd].
    2:{ by rewrite (select_rows_no_column output output0 n d) in Hrun. }
    destruct (select_rows_ok output output0 n d Hout0 Hs Hnd)
      as (r' & Hr' & Hrows & Hne).
    assert (r' = r) as -> by congruence.
    exists cls_probs, bbox_preds, anchors, output, output0.
    split_and!; [done..|].
    rewrite Hrows. apply Forall_forall.
    intros row [Hkeep Hrow]%list_elem_of_filter.
    rewrite Forall_forall in Hne. specialize (Hne row Hrow).
    destruct row as [|class_id row]; [done|]. exists class_id. split; [done|].
    intros Heq. apply Hkeep. cbn. by apply Is_true_true, Qeq_bool_iff.
  - intros X' anchors cls_preds bbox_preds probs cls_probs output output0
      HX Hfwd Hsoft Htr Hdet Hout0 Hrows _.
    unfold predict. rewrite HX. simpl_result. rewrite Hfwd. simpl_result.
    rewrite Hsoft. simpl_result. rewrite Htr. simpl_result.
    rewrite Hdet. simpl_result. rewrite Hout0.
    destruct (Hshape output output0) as (n & d & Hs); [by eapply Hthree|done|].
    destruct (select_rows_ok output output0 n d Hout0 Hs)
      as (r & Hr & _); [by eapply rows_have_class_id|].
    by exists r.
Qed.

(** ** A small library, to run the code *)

(** A library without state whose arrays are their shapes: the layers and
    the array operations infer shapes, the data iterator [n] yields [n]
    batches, and the other calls return an array of the shape MXNet gives
    them. *)
Module ShapeLibrary.

Definition lift {A} (r : result A) : St () A := λ s, (s, r).

#[global] Instance lib_nd_ops : NDArrayOps (St ()) (list Z) := {
  nd_transpose x axes := lift (Shape.transpose x axes);
  nd_flatten x := lift (Shape.flatten x);
  nd_concat xs dim := lift (Shape.concat xs dim);
  nd_reshape x codes := lift (Shape.reshape x codes);
}.

#[global] Instance lib_gluon_ops : GluonOps (St ()) (list Z) := {
  call blk X := lift (Shape.infer blk X);
  MultiBoxPrior Y size ratio := lift (Shape.multibox_prior Y size ratio);
}.

#[global] Instance lib_index_ops : IndexOps (St ()) (list Z) := {
  nd_getitem x i := lift (Ok (tail x));
  nd_iter x := lift (Ok (replicate (Z.to_nat (x !!! 0%nat)) (tail x)));
  asscalar x := lift (Ok 0%Q);
  nd_take x i idx := lift (Ok (Z.of_nat (length idx) :: tail (tail x)));
  nd_size x := lift (Ok (size_of x));
}.

#[global] Instance lib_contrib_ops : ContribOps (St ()) (list Z) := {
  as_in_context x := lift (Ok x);
  nd_softmax x := lift (Ok x);
  MultiBoxDetection cls_probs bbox_preds anchors :=
    lift (Ok [cls_probs !!! 0%nat; anchors !!! 1%nat; 6]);
  MultiBoxTarget anchors Y cls_preds :=
    lift (Ok ([Y !!! 0%nat; anchors !!! 1%nat * 4],
              [Y !!! 0%nat; anchors !!! 1%nat * 4],
              [Y !!! 0%nat; anchors !!! 1%nat]));
}.

#[global] Instance lib_train_ops : TrainOps (St ()) nat () (list Z) := {
  iterate n := lift (Ok (replicate n ([256; 1; 28; 28], [256])));
  iterate_batches n :=
    lift (Ok (replicate n {| data := [[32; 3; 256; 256]];
                             label := [[32; 1; 5]] |}));
  iter_reset n := lift (Ok ());
  nd_sum x := lift (Ok [1]);
  nd_abs x := lift (Ok x);
  nd_add x y := lift (Ok x);
  nd_sub x y := lift (Ok x);
  nd_mul x y := lift (Ok x);
  nd_argmax x axis := lift (Ok (take (length x - 1) x));
  nd_equal x y := lift (Ok x);
  astype x dtype := lift (Ok x);
  record_enter := lift (Ok ());
  record_exit := lift (Ok ());
  backward l := lift (Ok ());
  d2l_sgd params lr batch_size := lift (Ok ());
  trainer_step trainer batch_size := lift (Ok ());
  cls_loss preds labels := lift (Ok (take 1 preds));
  bbox_loss preds labels := lift (Ok (take 1 preds));
  time := lift (Ok 0%Q);
  print fmt values := lift (Ok ());
}.

(** A softmax regression model and its loss, on shapes. *)
Definition net (X : list Z) : St () (list Z) := lift (Ok [X !!! 0%nat; 10]).
Definition loss (y_hat y : list Z) : St () (list Z) := lift (Ok y).

Definition start : world () nat (list Z) := World () [].

End ShapeLibrary.

(** A library for [predict] on arrays with contents: the layers return
    their input, and [MultiBoxDetection] returns three detections, the
    second of them removed. *)
#[global] Instance Q_inhabited : Inhabited Q := populate 0%Q.

Module DetectionExample.

Definition detections : ndarray Q :=
  let rows := [[0; 0.9; 0.1; 0.1; 0.5; 0.5];
               [-1; 0.8; 0.1; 0.1; 0.5; 0.5];
               [0; 0.6; 0.2; 0.2; 0.7; 0.7]]%Q in
  NDArray [1; 3; 6] (λ idx,
    let row := rows !!! Z.to_nat (idx !!! 1%nat) in
    row !!! Z.to_nat (idx !!! 2%nat)).

#[global] Instance example_gluon_ops : GluonOps result (ndarray Q) := {
  call blk X := Ok X;
  MultiBoxPrior Y size ratio := Ok (NDArray [1; 1; 4] (λ _, 0%Q));
}.

#[global] Instance example_contrib_ops : ContribOps result (ndarray Q) := {
  as_in_context x := Ok x;
  nd_softmax x := Ok x;
  MultiBoxDetection cls_probs bbox_preds anchors := Ok detections;
  MultiBoxTarget anchors Y cls_preds := Ok (anchors, anchors, anchors);
}.

Definition image : ndarray Q := NDArray [1; 2; 1; 1] (λ _, 0%Q).

End DetectionExample.


(** ** The theorems, on examples *)

Lemma tinyssd_anchor_count_example :
  0 < 32 ∧ 0 ≤ 1 ∧
  forward (TinySSD_init 1) ([32; 3; 256; 256] : shape)
  = Ok ([1; 5444; 4], [32; 5444; 1 + 1], [32; 21776]).
Proof.
  split; [lia|]. split; [lia|].
  apply (proj2 (proj2 tinyssd_anchor_count) 1 32 3); lia.
Defined.

Lemma down_sample_blk_halves_example :
  0 < 10 ∧ 0 < 20 ∧ 0 < 20 ∧ Z.even 20 ∧ Z.even 20 ∧
  call (down_sample_blk 10) ([2; 3; 20; 20] : shape)
  = Ok [2; 10; 20 / 2; 20 / 2].
Proof.
  split; [lia|]. split; [lia|]. split; [lia|]. split; [exact I|].
  split; [exact I|].
  apply (proj1 down_sample_blk_halves 10 2 3 20 20); (lia || exact I).
Defined.

(** The real number of a binary32 number. *)
Ltac binary32_real :=
  unfold is_real;
  match goal with
  | |- @f_real _ _ ?x = _ =>
      let y := eval vm_compute in x in change x with y
  end;
  cbn [f_real Binary32.float_ops Binary32.to_xreal powerRZ]; f_equal;
  repeat match goal with
    | |- context [Pos.to_nat ?p] =>
        let n := eval vm_compute in (Pos.to_nat p) in
        change (Pos.to_nat p) with n
    end;
  lra.


Lemma sizes_geometric_mean_example :
  (0 < 4)%nat ∧
  ∃ next, next_size 0 = Some next ∧ second_is_geometric_mean 0 next.
Proof.
  split; [lia|]. apply (proj1 (proj2 sizes_geometric_mean) 0%nat). lia.
Defined.

(** Two predictions for one image: 3 channels on a 2x2 feature map and 2
    channels on a 1x1 feature map. *)
Definition example_preds : list (ndarray Z) :=
  [of_list4 [[[[1; 2]; [3; 4]]; [[5; 6]; [7; 8]]; [[9; 10]; [11; 12]]]];
   of_list4 [[[[21]]; [[22]]]]].

Lemma concat_preds_layout_example :
  example_preds ≠ [] ∧
  Forall (λ p, is_pred 1 (shape_of p)) example_preds ∧
  ∃ r, concat_preds example_preds = Ok r ∧
    shape_of r = [1; sumZ (pred_len ∘ shape_of <$> example_preds)] ∧
    ∀ k p c h w, example_preds !! k = Some p → shape_of p = [1; c; h; w] →
      ∀ n y x ch, 0 ≤ y < h → 0 ≤ x < w → 0 ≤ ch < c →
        item r [n; sumZ (pred_len ∘ shape_of <$> take k example_preds)
                   + ((y * w + x) * c + ch)]
        = item p [n; ch; y; x].
Proof.
  assert (example_preds ≠ []) as Hne by discriminate.
  assert (Forall (λ p, is_pred 1 (shape_of p)) example_preds) as Hpreds.
  { repeat constructor.
    - exists 3, 2, 2. repeat split; (reflexivity || lia).
    - exists 2, 1, 1. repeat split; (reflexivity || lia). }
  split; [exact Hne|]. split; [exact Hpreds|].
  exact (concat_preds_layout example_preds 1 Hne Hpreds).
Defined.

Lemma getattr_model_refines_ordered_collection_example :
  length (init_heads 1) = 5%nat ∧ holds (TinySSD_init 1) (init_heads 1) ∧
  forward (m:=M () nat (list Z)) (TinySSD_init 1) [32; 3; 256; 256]
  = forward_seq {| seq_num_classes := num_classes (TinySSD_init 1);
                   heads := init_heads 1 |} [32; 3; 256; 256].
Proof.
  split; [reflexivity|]. split; [apply holds_init|].
  apply (getattr_model_refines_ordered_collection (m:=M () nat (list Z))
           (TinySSD_init 1) (init_heads 1) eq_refl (holds_init 1)).
Defined.

Lemma accuracy_is_fraction_correct_example :
  length [[0.1; 0.3; 0.6]; [0.3; 0.2; 0.5]]%Q = length [0; 2] ∧
  [[0.1; 0.3; 0.6]; [0.3; 0.2; 0.5]]%Q ≠ [] ∧
  Forall (λ row, row ≠ []) [[0.1; 0.3; 0.6]; [0.3; 0.2; 0.5]]%Q ∧
  Z.of_nat (length [[0.1; 0.3; 0.6]; [0.3; 0.2; 0.5]]%Q) ≤ 2 ^ 24 ∧
  Forall (λ row, Z.of_nat (length row) ≤ 2 ^ 24)
    [[0.1; 0.3; 0.6]; [0.3; 0.2; 0.5]]%Q ∧
  ∃ preds acc,
    Forall2 is_argmax [[0.1; 0.3; 0.6]; [0.3; 0.2; 0.5]]%Q preds ∧
    accuracy [[0.1; 0.3; 0.6]; [0.3; 0.2; 0.5]]%Q [0; 2] = Ok acc ∧
    (acc == inject_Z (Z.of_nat (correct preds [0; 2]%Z))
            / inject_Z (Z.of_nat (length [0; 2]%Z)))%Q.
Proof.
  assert (Forall (λ row : list Q, row ≠ [])
            [[0.1; 0.3; 0.6]; [0.3; 0.2; 0.5]]%Q) as Hne
    by (repeat constructor; discriminate).
  assert (Forall (λ row : list Q, Z.of_nat (length row) ≤ 2 ^ 24)
            [[0.1; 0.3; 0.6]; [0.3; 0.2; 0.5]]%Q) as Hwide
    by (repeat constructor; cbn [length]; lia).
  assert (Z.of_nat (length [[0.1; 0.3; 0.6]; [0.3; 0.2; 0.5]]%Q) ≤ 2 ^ 24)
    as Hrows by (cbn [length]; lia).
  split; [reflexivity|]. split; [discriminate|]. split; [exact Hne|].
  split; [exact Hrows|]. split; [exact Hwide|].
  apply (proj1 accuracy_is_fraction_correct
           [[0.1; 0.3; 0.6]; [0.3; 0.2; 0.5]]%Q [0; 2] eq_refl);
    [discriminate|exact Hne|exact Hrows|exact Hwide].
Defined.


Lemma predict_drops_removed_rows_example :
  (∀ cls_probs bbox_preds anchors output,
     MultiBoxDetection (m:=result) (T:=ndarray Q) cls_probs bbox_preds anchors
     = Ok output →
     length (shape_of output) = 3%nat) ∧
  ∃ r, predict (m:=result) (TinySSD_init 1) DetectionExample.image = Ok r ∧
    ∃ cls_probs bbox_preds anchors output output0,
      MultiBoxDetection cls_probs bbox_preds anchors = Ok output ∧
      nd_getitem output 0 = Ok output0 ∧
      to_list2 r = filter (λ row, ¬ removed row) (to_list2 output0) ∧
      Forall (λ row, ∃ class_id, row !! 0%nat = Some class_id ∧
                                 ¬ (class_id == -1)%Q) (to_list2 r).
Proof.
  assert (∀ cls_probs bbox_preds anchors output,
     MultiBoxDetection (m:=result) (T:=ndarray Q) cls_probs bbox_preds anchors
     = Ok output →
     length (shape_of output) = 3%nat) as Hthree.
  { intros ? ? ? output Hdet. injection Hdet as <-. reflexivity. }
  split; [exact Hthree|].
  eexists. split; [reflexivity|].
  apply (proj1 (predict_drops_removed_rows Hthree (TinySSD_init 1)
                  DetectionExample.image)).
  reflexivity.
Defined.


(** * More of the notebooks' code *)

(** ** ssd.ipynb: feature maps of any size *)

Section shapes_any_size.
Import Shape.

Definition kernel_exceeds_input : exn :=
  MXNetError "kernel size exceeds input".

(** A 2x2 maximum pooling with stride 2 rounds odd extents down, and needs
    an extent of 2 at least. *)
Lemma maxpool2_any_size n c h w :
  0 < h → 0 < w →
  infer (MaxPool2D 2) [n; c; h; w]
  = if decide (2 ≤ h ∧ 2 ≤ w) then Ok [n; c; h / 2; w / 2]
    else Raise kernel_exceeds_input.
Proof.
  intros Hh Hw. cbn [infer].
  assert (∀ x, 2 ≤ x → window x 2 2 0 = Ok (x / 2)) as Hok.
  { intros x Hx. rewrite window_ok by lia. f_equal.
    replace (x + 2 * 0 - 2) with (x - 2) by lia.
    replace x with (x - 2 + 1 * 2) at 2 by lia.
    by rewrite Z.div_add by lia. }
  assert (∀ x, x < 2 → window x 2 2 0 = Raise kernel_exceeds_input) as Hko.
  { intros x Hx. unfold window. by rewrite decide_False by lia. }
  case_decide as Hsz.
  - destruct Hsz. by rewrite !Hok by done.
  - destruct (decide (2 ≤ h)).
    + rewrite (Hok h), (Hko w) by lia. done.
    + by rewrite (Hko h) by lia.
Qed.

Lemma down_sample_blk_any k n c h w :
  0 < k → 0 < h → 0 < w →
  infer (down_sample_blk k) [n; c; h; w]
  = if decide (2 ≤ h ∧ 2 ≤ w) then Ok [n; k; h / 2; w / 2]
    else Raise kernel_exceeds_input.
Proof.
  intros Hk Hh Hw.
  change (down_sample_blk k) with
    (Sequential [Conv2D k 3 1; BatchNorm k; Activation "relu";
                 Conv2D k 3 1; BatchNorm k; Activation "relu";
                 MaxPool2D 2]).
  rewrite infer_cons, conv3_shape by done. cbn [mbind result_bind mret result_ret].
  rewrite infer_cons, batchnorm_shape by done. cbn [mbind result_bind mret result_ret].
  rewrite infer_cons, activation_shape. cbn [mbind result_bind mret result_ret].
  rewrite infer_cons, conv3_shape by done. cbn [mbind result_bind mret result_ret].
  rewrite infer_cons, batchnorm_shape by done. cbn [mbind result_bind mret result_ret].
  rewrite infer_cons, activation_shape. cbn [mbind result_bind mret result_ret].
  rewrite infer_cons, maxpool2_any_size by done.
  by case_decide.
Qed.

Lemma half_pos x : 2 ≤ x → 0 < x / 2.
Proof. intros. apply Z.div_str_pos. lia. Qed.

Lemma half_ge x k : 0 < k → (2 ≤ x / k ↔ 2 * k ≤ x).
Proof.
  intros Hk. split; intros H.
  - pose proof (Z.mul_div_le x k Hk). nia.
  - apply Z.div_le_lower_bound; lia.
Qed.

Lemma base_net_any n c h w :
  0 < h → 0 < w →
  infer base_net [n; c; h; w]
  = if decide (8 ≤ h ∧ 8 ≤ w) then Ok [n; 64; h / 8; w / 8]
    else Raise kernel_exceeds_input.
Proof.
  intros Hh Hw.
  change base_net with
    (Sequential [down_sample_blk 16; down_sample_blk 32; down_sample_blk 64]).
  rewrite infer_cons, down_sample_blk_any by done.
  destruct (decide (2 ≤ h ∧ 2 ≤ w)) as [[H2 W2]|H2];
    [|by rewrite decide_False by lia].
  cbn [mbind result_bind mret result_ret].
  rewrite infer_cons, down_sample_blk_any by (done || by apply half_pos).
  destruct (decide (2 ≤ h / 2 ∧ 2 ≤ w / 2)) as [[H4 W4]|H4].
  2:{ rewrite decide_False; [done|]. intros [? ?]. apply H4.
      rewrite !half_ge by lia. lia. }
  apply half_ge in H4, W4; [|lia..].
  cbn [mbind result_bind mret result_ret].
  rewrite !Z.div_div by lia.
  rewrite infer_cons, down_sample_blk_any
    by (done || (apply Z.div_str_pos; lia)).
  destruct (decide (2 ≤ h / (2 * 2) ∧ 2 ≤ w / (2 * 2))) as [[H8 W8]|H8].
  2:{ rewrite decide_False; [done|]. intros [? ?]. apply H8.
      rewrite !half_ge by lia. lia. }
  apply half_ge in H8, W8; [|lia..].
  cbn [mbind result_bind mret result_ret].
  rewrite !Z.div_div by lia. by rewrite decide_True by lia.
Qed.
End shapes_any_size.

(** X1: [down_sample_blk k], for a number k > 0 of channels, halves height
    and width of any input, rounding odd extents down; on an input of height
    or width 1 the pooling layer raises. *)
Theorem down_sample_blk_any_size k N C H W :
  0 < k → 0 < H → 0 < W →
  call (down_sample_blk k) ([N; C; H; W] : shape)
  = if decide (2 ≤ H ∧ 2 ≤ W) then Ok [N; k; H / 2; W / 2]
    else Raise kernel_exceeds_input.
Proof. apply down_sample_blk_any. Qed.

Lemma down_sample_blk_any_size_example :
  (0 < 10 ∧ 0 < 5 ∧ 0 < 1) ∧
  call (down_sample_blk 10) ([2; 3; 5; 7] : shape) = Ok [2; 10; 2; 3] ∧
  call (down_sample_blk 10) ([2; 3; 5; 1] : shape)
  = Raise kernel_exceeds_input.
Proof.
  split; [lia|]. split.
  - apply (down_sample_blk_any_size 10 2 3 5 7); lia.
  - apply (down_sample_blk_any_size 10 2 3 5 1); lia.
Defined.

(** ** ssd.ipynb: the detector on images of any size *)

Section forward_any_size.
Import Shape.

(** Arrays of shapes (a, k1, b), ..., (a, km, b) concatenate along
    dimension 1 to shape (a, k1 + ... + km, b). *)
Lemma concat_mid_shape a b k ks :
  concat ((λ k, [a; k; b]) <$> (k :: ks)) 1 = Ok [a; sumZ (k :: ks); b].
Proof.
  unfold concat.
  destruct ((λ k, [a; k; b]) <$> (k :: ks)) as [|s ss] eqn:E; [done|].
  assert (s = [a; k; b]) as -> by (by injection E).
  rewrite <- E. clear E ss.
  rewrite decide_True.
  - rewrite <- list_fmap_compose.
    replace (((λ s : shape, s !!! 1%nat) ∘ (λ k0 : Z, [a; k0; b])) <$> k :: ks)
      with (k :: ks); [done|].
    symmetry. etrans; [|apply list_fmap_id]. by apply list_fmap_ext.
  - split; [cbn; lia|].
    apply Forall_fmap, Forall_forall.
    by intros k' _.
Qed.

Lemma get_blk_any i n c h w :
  0 < h → 0 < w →
  call (get_blk i) ([n; c; h; w] : shape)
  = if decide (i = 0%nat) then
      if decide (8 ≤ h ∧ 8 ≤ w) then Ok [n; 64; h / 8; w / 8]
      else Raise kernel_exceeds_input
    else if decide (i = 4%nat) then Ok [n; c; 1; 1]
    else if decide (2 ≤ h ∧ 2 ≤ w) then Ok [n; 128; h / 2; w / 2]
         else Raise kernel_exceeds_input.
Proof.
  intros Hh Hw. unfold get_blk.
  change (call ?l ?s) with (infer l s).
  destruct (decide (i = 0%nat)); [by apply base_net_any|].
  destruct (decide (i = 4%nat)); [done|].
  by apply down_sample_blk_any.
Qed.

(** An iteration of [forward] whose block raises. *)
Lemma forward_step_raise nc i (X : shape) anchors cls_preds bbox_preds e :
  (i < 5)%nat → call (get_blk i) X = Raise e →
  forward_step (TinySSD_init nc) (X, anchors, cls_preds, bbox_preds) i
  = Raise e.
Proof.
  intros Hi HY. unfold forward_step.
  rewrite (getattr_Some _ _ _ (attrs_init_blk nc i Hi)),
    (getattr_Some _ _ _ (attrs_init_cls nc i Hi)),
    (getattr_Some _ _ _ (attrs_init_bbox nc i Hi)).
  destruct (subscript_sizes i Hi) as (size & -> & Hs).
  destruct (subscript_ratios i Hi) as (ratio & -> & Hr).
  cbn [mbind result_bind mret result_ret].
  unfold blk_forward. by rewrite HY.
Qed.
End forward_any_size.

(** The number of cells of the five feature maps of an image of height [H]
    and width [W]. *)
Definition feature_cells (H W : Z) : Z :=
  H / 8 * (W / 8) + H / 16 * (W / 16) + H / 32 * (W / 32)
  + H / 64 * (W / 64) + 1.

Section forward_any_size_proof.
Import Shape.

Lemma forward_any_size nc N C H W :
  0 < N → 0 ≤ nc → 0 < H → 0 < W →
  forward (TinySSD_init nc) ([N; C; H; W] : shape)
  = if decide (64 ≤ H ∧ 64 ≤ W) then
      Ok ([1; feature_cells H W * num_anchors; 4],
          [N; feature_cells H W * num_anchors; nc + 1],
          [N; feature_cells H W * num_anchors * 4])
    else Raise kernel_exceeds_input.
Proof.
  intros HN Hnc HH HW.
  unfold forward. rewrite num_classes_init.
  change (range 5) with [0; 1; 2; 3; 4]%nat. cbn [foldR].
  (* scale 0 *)
  pose proof (get_blk_any 0 N C H W HH HW) as E0.
  rewrite (decide_True (P := 0%nat = 0%nat)) in E0 by done.
  destruct (decide (8 ≤ H ∧ 8 ≤ W)) as [[H8 W8]|H8].
  2:{ rewrite (forward_step_raise nc 0 _ _ _ _ _ (ltac:(lia)) E0).
      by rewrite decide_False by lia. }
  assert (0 < H / 8 ∧ 0 < W / 8) as [P0 Q0]
    by (split; apply Z.div_str_pos; lia).
  rewrite (forward_step_shape nc 0 _ _ _ _ N 64 (H / 8) (W / 8))
    by (done || lia).
  cbn [mbind result_bind mret result_ret].
  (* scale 1 *)
  pose proof (get_blk_any 1 N 64 (H / 8) (W / 8) P0 Q0) as E1.
  rewrite (decide_False (P := 1%nat = 0%nat)),
    (decide_False (P := 1%nat = 4%nat)) in E1 by done.
  rewrite !Z.div_div in E1 by lia. change (8 * 2) with 16 in E1.
  destruct (decide (2 ≤ H / 8 ∧ 2 ≤ W / 8)) as [[H16 W16]|H16].
  2:{ rewrite (forward_step_raise nc 1 _ _ _ _ _ (ltac:(lia)) E1).
      rewrite decide_False; [done|]. intros [? ?]. apply H16.
      rewrite !half_ge by lia. lia. }
  apply half_ge in H16, W16; [|lia..].
  assert (0 < H / 16 ∧ 0 < W / 16) as [P1 Q1]
    by (split; apply Z.div_str_pos; lia).
  rewrite (forward_step_shape nc 1 _ _ _ _ N 128 (H / 16) (W / 16))
    by (done || lia).
  cbn [mbind result_bind mret result_ret].
  (* scale 2 *)
  pose proof (get_blk_any 2 N 128 (H / 16) (W / 16) P1 Q1) as E2.
  rewrite (decide_False (P := 2%nat = 0%nat)),
    (decide_False (P := 2%nat = 4%nat)) in E2 by done.
  rewrite !Z.div_div in E2 by lia. change (16 * 2) with 32 in E2.
  destruct (decide (2 ≤ H / 16 ∧ 2 ≤ W / 16)) as [[H32 W32]|H32].
  2:{ rewrite (forward_step_raise nc 2 _ _ _ _ _ (ltac:(lia)) E2).
      rewrite decide_False; [done|]. intros [? ?]. apply H32.
      rewrite !half_ge by lia. lia. }
  apply half_ge in H32, W32; [|lia..].
  assert (0 < H / 32 ∧ 0 < W / 32) as [P2 Q2]
    by (split; apply Z.div_str_pos; lia).
  rewrite (forward_step_shape nc 2 _ _ _ _ N 128 (H / 32) (W / 32))
    by (done || lia).
  cbn [mbind result_bind mret result_ret].
  (* scale 3 *)
  pose proof (get_blk_any 3 N 128 (H / 32) (W / 32) P2 Q2) as E3.
  rewrite (decide_False (P := 3%nat = 0%nat)),
    (decide_False (P := 3%nat = 4%nat)) in E3 by done.
  rewrite !Z.div_div in E3 by lia. change (32 * 2) with 64 in E3.
  destruct (decide (2 ≤ H / 32 ∧ 2 ≤ W / 32)) as [[H64 W64]|H64].
  2:{ rewrite (forward_step_raise nc 3 _ _ _ _ _ (ltac:(lia)) E3).
      rewrite decide_False; [done|]. intros [? ?]. apply H64.
      rewrite !half_ge by lia. lia. }
  apply half_ge in H64, W64; [|lia..].
  assert (0 < H / 64 ∧ 0 < W / 64) as [P3 Q3]
    by (split; apply Z.div_str_pos; lia).
  rewrite (forward_step_shape nc 3 _ _ _ _ N 128 (H / 64) (W / 64))
    by (done || lia).
  cbn [mbind result_bind mret result_ret].
  (* scale 4 *)
  pose proof (get_blk_any 4 N 128 (H / 64) (W / 64) P3 Q3) as E4.
  rewrite (decide_False (P := 4%nat = 0%nat)),
    (decide_True (P := 4%nat = 4%nat)) in E4 by done.
  rewrite (forward_step_shape nc 4 _ _ _ _ N 128 1 1) by (done || lia).
  cbn [mbind result_bind mret result_ret].
  rewrite decide_True by lia.
  cbn [replicate insert list_insert].
  unfold forward_outputs. cbn [star mapR mbind result_bind mret result_ret].
  pose proof (concat_mid_shape 1 4 (H / 8 * (W / 8) * 4)
    [H / 16 * (W / 16) * 4; H / 32 * (W / 32) * 4; H / 64 * (W / 64) * 4;
     1 * 1 * 4]) as Ha.
  pose proof (concat_preds_shape N (4 * (nc + 1), H / 8, W / 8)
    [(4 * (nc + 1), H / 16, W / 16); (4 * (nc + 1), H / 32, W / 32);
     (4 * (nc + 1), H / 64, W / 64); (4 * (nc + 1), 1, 1)]) as Hcls.
  pose proof (concat_preds_shape N (16, H / 8, W / 8)
    [(16, H / 16, W / 16); (16, H / 32, W / 32); (16, H / 64, W / 64);
     (16, 1, 1)]) as Hbbox.
  cbn [fmap list_fmap sumZ foldr] in Ha, Hcls, Hbbox.
  change (nd_concat ?l 1) with (concat l 1).
  rewrite Ha, Hcls, Hbbox. cbn [mbind result_bind mret result_ret].
  change num_anchors with 4. unfold feature_cells.
  set (c0 := H / 8 * (W / 8)). set (c1 := H / 16 * (W / 16)).
  set (c2 := H / 32 * (W / 32)). set (c3 := H / 64 * (W / 64)).
  replace (c0 * (4 * (nc + 1)) + (c1 * (4 * (nc + 1)) +
           (c2 * (4 * (nc + 1)) + (c3 * (4 * (nc + 1)) +
           (1 * 1 * (4 * (nc + 1)) + 0)))))
    with ((c0 + c1 + c2 + c3 + 1) * 4 * (nc + 1)) by lia.
  change (nd_reshape ?s ?c) with (reshape s c).
  rewrite reshape_0_m1_shape by lia.
  cbn [mbind result_bind mret result_ret].
  replace (c0 * 4 + (c1 * 4 + (c2 * 4 + (c3 * 4 + (1 * 1 * 4 + 0)))))
    with ((c0 + c1 + c2 + c3 + 1) * 4) by lia.
  by replace (c0 * 16 + (c1 * 16 + (c2 * 16 + (c3 * 16 + (1 * 1 * 16 + 0)))))
    with ((c0 + c1 + c2 + c3 + 1) * 4 * 4) by lia.
Qed.
End forward_any_size_proof.

(** X2: on N images of height [H] and width [W], both 64 at least, the
    forward pass of [TinySSD] returns [feature_cells H W] * 4 anchor boxes,
    their class predictions and their 4 offsets each; on a smaller image one
    of the pooling layers raises. *)
Theorem tinyssd_any_size nc N C H W :
  0 < N → 0 ≤ nc → 0 < H → 0 < W →
  forward (TinySSD_init nc) ([N; C; H; W] : shape)
  = if decide (64 ≤ H ∧ 64 ≤ W) then
      Ok ([1; feature_cells H W * num_anchors; 4],
          [N; feature_cells H W * num_anchors; nc + 1],
          [N; feature_cells H W * num_anchors * 4])
    else Raise kernel_exceeds_input.
Proof. apply forward_any_size. Qed.

Lemma tinyssd_any_size_example :
  (0 < 2 ∧ 0 ≤ 1 ∧ 0 < 300 ∧ 0 < 200) ∧
  forward (TinySSD_init 1) ([2; 3; 300; 200] : shape)
  = Ok ([1; 4832; 4], [2; 4832; 2], [2; 19328]) ∧
  forward (TinySSD_init 1) ([2; 3; 300; 63] : shape)
  = Raise kernel_exceeds_input.
Proof.
  split; [lia|]. split.
  - apply (tinyssd_any_size 1 2 3 300 200); lia.
  - apply (tinyssd_any_size 1 2 3 300 63); lia.
Defined.

(** ** ssd.ipynb: the prediction layers and their concatenation *)

Section predictors.
Import Shape.

Lemma predictor_maps_shape N q (maps : list (Z * Z * Z * Z)) :
  0 ≤ q → Forall (λ '(a, C, H, W), 0 < a ∧ 0 < H ∧ 0 < W) maps →
  mapR (λ '(a, C, H, W), call (cls_predictor a q) ([N; C; H; W] : shape)) maps
  = Ok ((λ '(a, C, H, W), [N; a * (q + 1); H; W]) <$> maps).
Proof.
  intros Hq. induction 1 as [|[[[a C] H] W] maps (Ha & HH & HW) _ IH]; [done|].
  rewrite fmap_cons. cbn [mapR]. rewrite IH.
  unfold cls_predictor. change (call ?l ?s) with (infer l s).
  by rewrite conv3_shape by (done || nia).
Qed.
End predictors.

(** X3: on a feature map of shape (N, C, H, W) the class predictor for
    [a] > 0 anchors and [q] >= 0 classes returns shape (N, a(q + 1), H, W)
    and the bounding box predictor (N, 4a, H, W); the class predictions of
    feature maps of different sizes concatenate to (N, sum of H W a(q + 1)). *)
Theorem predictions_of_feature_maps N q :
  0 ≤ q →
  (∀ a C H W, 0 < a → 0 < H → 0 < W →
     call (cls_predictor a q) ([N; C; H; W] : shape)
     = Ok [N; a * (q + 1); H; W] ∧
     call (bbox_predictor a) ([N; C; H; W] : shape) = Ok [N; a * 4; H; W]) ∧
  (∀ maps : list (Z * Z * Z * Z),
     maps ≠ [] → Forall (λ '(a, C, H, W), 0 < a ∧ 0 < H ∧ 0 < W) maps →
     (Ys ← mapR (λ '(a, C, H, W),
                   call (cls_predictor a q) ([N; C; H; W] : shape)) maps;
      concat_preds Ys)
     = Ok [N; sumZ ((λ '(a, C, H, W), H * W * (a * (q + 1))) <$> maps)]).
Proof.
  intros Hq. split.
  - intros a C H W Ha HH HW. unfold cls_predictor, bbox_predictor.
    change (call ?l ?s) with (Shape.infer l s).
    by rewrite !conv3_shape by (done || nia).
  - intros maps Hne Hpos. rewrite predictor_maps_shape by done.
    cbn [mbind result_bind]. destruct maps as [|m maps]; [done|].
    pose proof (concat_preds_shape N
      ((λ '(a, C, H, W), (a * (q + 1), H, W)) m)
      ((λ '(a, C, H, W), (a * (q + 1), H, W)) <$> maps)) as Hcat.
    rewrite <- fmap_cons, <- !list_fmap_compose in Hcat.
    etrans; [|etrans; [exact Hcat|]].
    + f_equal. apply list_fmap_ext. by intros _ [[[a C] H] W] _.
    + apply (f_equal (λ l, Ok [N; sumZ l])).
      apply list_fmap_ext. by intros _ [[[a C] H] W] _.
Qed.

Lemma predictions_of_feature_maps_example :
  (0 ≤ 10 ∧ [(5, 8, 20, 20); (3, 16, 10, 10)] ≠ [] ∧
   Forall (λ '(a, C, H, W), 0 < a ∧ 0 < H ∧ 0 < W)
     [(5, 8, 20, 20); (3, 16, 10, 10)]) ∧
  (Ys ← mapR (λ '(a, C, H, W),
                call (cls_predictor a 10) ([2; C; H; W] : shape))
             [(5, 8, 20, 20); (3, 16, 10, 10)];
   concat_preds Ys)
  = Ok [2; 25300].
Proof.
  assert (Forall (λ '(a, C, H, W), 0 < a ∧ 0 < H ∧ 0 < W)
            [(5, 8, 20, 20); (3, 16, 10, 10)]) as Hpos
    by (repeat constructor; lia).
  split; [split_and!; [lia|discriminate|exact Hpos]|].
  apply (proj2 (predictions_of_feature_maps 2 10 ltac:(lia))
           [(5, 8, 20, 20); (3, 16, 10, 10)]); [discriminate|exact Hpos].
Defined.

Section concat_preds_accepts.
Import Shape.

Lemma flatten_pred_inv (p q : shape) :
  flatten_pred p = Ok q → ∃ n c h w, p = [n; c; h; w] ∧ q = [n; h * w * c].
Proof.
  intros Hq. assert (length p = 4%nat) as Hlen.
  { unfold flatten_pred in Hq.
    change (nd_transpose ?s ?a) with (transpose s a) in Hq.
    unfold transpose in Hq. case_decide as Hperm; [|done].
    apply Permutation_length in Hperm. by rewrite length_seq in Hperm. }
  destruct p as [|n [|c [|h [|w [|]]]]]; try done.
  exists n, c, h, w. split; [done|].
  rewrite flatten_pred_shape in Hq. congruence.
Qed.

Lemma mapR_flatten_pred_inv (preds flat : list shape) :
  mapR flatten_pred preds = Ok flat →
  Forall2 (λ p q, ∃ n c h w, p = [n; c; h; w] ∧ q = [n; h * w * c])
    preds flat.
Proof.
  intros H%mapR_Forall2. eapply Forall2_impl; [done|].
  intros p q. apply flatten_pred_inv.
Qed.

Lemma concat_preds_inv (preds : list shape) r :
  concat_preds preds = Ok r →
  preds ≠ [] ∧
  ∃ N, Forall (λ p, ∃ c h w, p = [N; c; h; w]) preds ∧
       r = [N; sumZ (pred_len <$> preds)].
Proof.
  unfold concat_preds.
  destruct (mapR flatten_pred preds) as [flat|e] eqn:Hflat; [|done].
  apply mapR_flatten_pred_inv in Hflat.
  cbn [mbind result_bind]. change (nd_concat flat 1) with (concat flat 1).
  destruct Hflat as [|p0 q0 preds flat Hp0 Hrest]; [done|].
  unfold concat. case_decide as Hagree; [|done].
  destruct Hagree as [_ Hagree]. intros [= <-].
  split; [done|].
  destruct Hp0 as (N & c0 & h0 & w0 & -> & ->). exists N.
  apply Forall_cons in Hagree as [_ Hagree].
  assert (Forall (λ p, ∃ c h w, p = [N; c; h; w]) preds ∧
          (λ s : shape, s !!! 1%nat) <$> flat = pred_len <$> preds)
    as [Hall Hlens].
  { induction Hrest as [|p q preds flat Hpq _ IH]; [done|].
    apply Forall_cons in Hagree as [[_ Hq] Hagree].
    destruct Hpq as (n & c & h & w & -> & ->).
    injection Hq as <-. destruct (IH Hagree) as [IH1 IH2].
    split; [constructor; [by eauto|done]|].
    rewrite !fmap_cons, IH2. done. }
  split; [constructor; [by eauto|done]|].
  change (list_fmap (list Z) Z (λ s : list Z, s !!! 1%nat) flat)
    with ((λ s : shape, s !!! 1%nat) <$> flat).
  by rewrite Hlens.
Qed.
End concat_preds_accepts.

(** X4: on shapes, [concat_preds] returns exactly when its list is not
    empty and holds 4-dimensional arrays of one batch size N, and then the
    shape (N, sum of h w c); on every other list it raises. *)
Theorem concat_preds_accepts (preds : list shape) (r : shape) :
  concat_preds preds = Ok r ↔
  preds ≠ [] ∧
  ∃ N, Forall (λ p, ∃ c h w, p = [N; c; h; w]) preds ∧
       r = [N; sumZ (pred_len <$> preds)].
Proof.
  split; [apply concat_preds_inv|].
  intros (Hne & N & Hall & ->).
  assert (∃ chws : list (Z * Z * Z),
    preds = (λ '(c, h, w), [N; c; h; w]) <$> chws) as [chws ->].
  { clear Hne. induction Hall as [|p preds (c & h & w & ->) _ [chws ->]].
    - by exists [].
    - by exists ((c, h, w) :: chws). }
  destruct chws as [|chw chws]; [done|].
  rewrite concat_preds_shape. rewrite <- list_fmap_compose.
  apply (f_equal (λ l, Ok [N; sumZ l])).
  apply list_fmap_ext. by intros _ [[c h] w] _.
Qed.

(** ** ssd.ipynb: the class predictions, by anchor box *)

Section cls_preds_layout.
Context {A : Type}.
Implicit Types p r : ndarray A.

(** The items of the concatenated predictions, for [concat_preds] followed
    by another array operation. *)
Lemma concat_preds_items (preds : list (ndarray A)) (N : Z) :
  preds ≠ [] → Forall (λ p, is_pred N (shape_of p)) preds →
  ∃ r, concat_preds preds = Ok r ∧
    shape_of r = [N; sumZ (pred_len ∘ shape_of <$> preds)] ∧
    ∀ k p c h w, preds !! k = Some p → shape_of p = [N; c; h; w] →
      ∀ n y x ch, 0 ≤ y < h → 0 ≤ x < w → 0 ≤ ch < c →
        item r [n; sumZ (pred_len ∘ shape_of <$> take k preds)
                   + ((y * w + x) * c + ch)]
        = item p [n; ch; y; x].
Proof.
  intros Hne Hpreds.
  destruct (flatten_preds_value N preds) as (qs & Hqs & Hall).
  { eapply Forall_impl; [done|]. intros p (c & h & w & ? & _). eauto. }
  assert (shape_of <$> qs = (λ k, [N; k]) <$> (pred_len ∘ shape_of <$> preds))
    as Hshapes.
  { rewrite <- list_fmap_compose. clear -Hall.
    induction Hall as [|p q preds qs [Hq _] _ IH]; [done|].
    cbn [fmap list_fmap]. by rewrite Hq, IH. }
  assert (width <$> qs = pred_len ∘ shape_of <$> preds) as Hwidths.
  { clear -Hall. induction Hall as [|p q preds qs [Hq _] _ IH]; [done|].
    cbn [fmap list_fmap]. unfold width at 1. by rewrite Hq, IH. }
  assert (Forall (λ q, 0 ≤ width q) qs) as Hnonneg.
  { clear -Hall Hpreds.
    induction Hall as [|p q preds qs [Hq _] _ IH]; [done|].
    apply Forall_cons in Hpreds as [(c & h & w & Hs & ? & ? & ?) Hpreds].
    constructor; [|by apply IH].
    unfold width. rewrite Hq, Hs. cbn. nia. }
  unfold concat_preds. rewrite Hqs. cbn [mbind result_bind mret result_ret].
  change (nd_concat qs 1) with (Value.concat qs 1). unfold Value.concat.
  rewrite Hshapes.
  destruct preds as [|p0 preds]; [done|].
  destruct qs as [|q0 qs]; [by apply Forall2_length in Hall|].
  rewrite fmap_cons, concat_rows_shape, <- fmap_cons.
  cbn [mbind result_bind mret result_ret].
  eexists. split; [done|]. split; [done|].
  intros k p c h w Hk Hs n y x ch Hy Hx Hch. cbn [item].
  destruct (Forall2_lookup_l _ _ _ k p Hall Hk) as (q & Hq & Hsq & Hfq).
  destruct (flatten_pred_value p N c h w Hs) as (q' & Hfq' & _ & Hitem).
  assert (q' = q) as -> by congruence.
  rewrite fmap_take, <- Hwidths, <- fmap_take.
  assert (width q = h * w * c) as Hw by (unfold width; by rewrite Hsq, Hs).
  assert (0 ≤ (y * w + x) * c + ch < h * w * c) as Hj.
  { assert (0 ≤ y * w + x ≤ h * w - 1) by nia. nia. }
  rewrite (concat_item_offset q0 qs k q) by (done || by rewrite Hw).
  rewrite Hitem.
  replace ((y * w + x) * c + ch) with (ravel [h; w; c] [y; x; ch])
    by (cbn; lia).
  rewrite unravel_ravel by (repeat constructor; lia). done.
Qed.

(** [x.reshape((0, -1, k))] of a matrix with rows of length m k: the
    item (a, t) of row n is the item a k + t of that row. *)
Lemma reshape_0_m1_value (x : ndarray A) n m k :
  shape_of x = [n; m * k] → 0 < n → 0 < k → 0 ≤ m →
  ∃ r, nd_reshape x [0; -1; k] = Ok r ∧ shape_of r = [n; m; k] ∧
    ∀ i a t, 0 ≤ i < n → 0 ≤ a < m → 0 ≤ t < k →
      item r [i; a; t] = item x [i; a * k + t].
Proof.
  intros Hs Hn Hk Hm.
  change (nd_reshape x ?c) with (Value.reshape x c). unfold Value.reshape.
  rewrite Hs, reshape_0_m1_shape by done.
  cbn [mbind result_bind mret result_ret].
  eexists. split; [done|]. split; [done|].
  intros i a t Hi Ha Ht. cbn [item].
  replace (ravel [n; m; k] [i; a; t])
    with (ravel [n; m * k] [i; a * k + t]) by (cbn; lia).
  rewrite unravel_ravel; [done|].
  repeat constructor; nia.
Qed.
End cls_preds_layout.

(** The number of anchor boxes of a class prediction of shape
    (n, a (q + 1), h, w), for [q] classes. *)
Definition anchors_of (q : Z) (s : list Z) : Z :=
  match s with
  | [_; c; h; w] => h * w * (c / (q + 1))
  | _ => 0
  end.

(** A class prediction for batch size [N] and [q] classes: [q + 1] channels
    for each of its [a] anchor boxes per cell. *)
Definition is_cls_pred (N q : Z) (s : list Z) : Prop :=
  ∃ a h w, s = [N; a * (q + 1); h; w] ∧ 0 ≤ a ∧ 0 ≤ h ∧ 0 ≤ w.

Lemma sumZ_take_lookup (l : list Z) k v :
  Forall (λ v, 0 ≤ v) l → l !! k = Some v → sumZ (take k l) + v ≤ sumZ l.
Proof.
  intros Hl. revert k. induction Hl as [|u l Hu Hl IH]; intros k Hk; [done|].
  destruct k as [|k].
  - injection Hk as ->. cbn.
    assert (0 ≤ sumZ l) by (clear -Hl; induction Hl; cbn; [done|]; unfold sumZ in *; lia).
    unfold sumZ in *. lia.
  - cbn [take]. specialize (IH k Hk). cbn. unfold sumZ in *. lia.
Qed.

Section cls_preds_by_anchor.
Context {A : Type}.

Lemma cls_pred_lens N q (preds : list (ndarray A)) :
  0 ≤ q → Forall (λ p, is_cls_pred N q (shape_of p)) preds →
  Forall (λ p, is_pred N (shape_of p)) preds ∧
  (pred_len ∘ shape_of <$> preds)
  = (λ m, m * (q + 1)) <$> (anchors_of q ∘ shape_of <$> preds) ∧
  Forall (λ v, 0 ≤ v) (anchors_of q ∘ shape_of <$> preds).
Proof.
  intros Hq. induction 1 as [|p preds (a & h & w & Hs & ? & ? & ?) _ IH].
  { by repeat split. }
  destruct IH as (IH1 & IH2 & IH3). split_and!.
  - constructor; [|done]. exists (a * (q + 1)), h, w. split_and!; [done|nia|done..].
  - rewrite !fmap_cons, IH2. f_equal. cbn. rewrite Hs. cbn.
    rewrite Z.div_mul by lia. lia.
  - rewrite fmap_cons. constructor; [|done]. cbn. rewrite Hs. cbn.
    rewrite Z.div_mul by lia. nia.
Qed.

Lemma sumZ_scale (l : list Z) k : sumZ ((λ m, m * k) <$> l) = sumZ l * k.
Proof.
  induction l as [|m l IH]; [done|].
  rewrite fmap_cons. cbn. unfold sumZ in IH. rewrite IH. lia.
Qed.

Lemma cls_preds_items N q (preds : list (ndarray A)) :
  0 < N → 0 ≤ q → preds ≠ [] →
  Forall (λ p, is_cls_pred N q (shape_of p)) preds →
  ∃ r, (c ← concat_preds preds; nd_reshape c [0; -1; q + 1]) = Ok r ∧
    shape_of r = [N; sumZ (anchors_of q ∘ shape_of <$> preds); q + 1] ∧
    ∀ k p a h w, preds !! k = Some p →
      shape_of p = [N; a * (q + 1); h; w] →
      ∀ n y x j t,
        0 ≤ n < N → 0 ≤ y < h → 0 ≤ x < w → 0 ≤ j < a → 0 ≤ t < q + 1 →
        item r [n; sumZ (anchors_of q ∘ shape_of <$> take k preds)
                   + ((y * w + x) * a + j); t]
        = item p [n; j * (q + 1) + t; y; x].
Proof.
  intros HN Hq Hne Hpreds.
  destruct (cls_pred_lens N q preds Hq Hpreds) as (Hpred & Hlens & Hnonneg).
  destruct (concat_preds_items preds N Hne Hpred) as (c & Hc & Hsc & Hitems).
  rewrite Hc. cbn [mbind result_bind].
  rewrite Hlens, sumZ_scale in Hsc.
  set (M := sumZ (anchors_of q ∘ shape_of <$> preds)) in *.
  assert (0 ≤ M) as HM.
  { subst M. clear -Hnonneg.
    induction Hnonneg as [|v l Hv _ IH]; [done|]. cbn. unfold sumZ in IH. lia. }
  destruct (reshape_0_m1_value c N M (q + 1) Hsc) as (r & Hr & Hsr & Hri);
    [lia..|].
  exists r. split; [done|]. split; [done|].
  intros k p a h w Hk Hs n y x j t Hn Hy Hx Hj Ht.
  assert (anchors_of q (shape_of p) = h * w * a) as Hap.
  { rewrite Hs. cbn. by rewrite Z.div_mul by lia. }
  assert (0 ≤ (y * w + x) * a + j < h * w * a) as Hloc.
  { assert (0 ≤ y * w + x ≤ h * w - 1) by nia. nia. }
  set (off := sumZ (anchors_of q ∘ shape_of <$> take k preds)).
  assert (0 ≤ off ∧ off + h * w * a ≤ M) as [Hoff HoffM].
  { subst off M. rewrite fmap_take. split.
    - assert (Forall (λ v, 0 ≤ v)
                (take k (anchors_of q ∘ shape_of <$> preds))) as Hn'
        by by apply Forall_take.
      clear -Hn'. induction Hn' as [|v l Hv _ IH]; [done|].
      cbn. unfold sumZ in IH. lia.
    - rewrite <- Hap. apply sumZ_take_lookup; [done|].
      by rewrite list_lookup_fmap, Hk. }
  rewrite Hri by lia.
  specialize (Hitems k p (a * (q + 1)) h w Hk Hs n y x (j * (q + 1) + t)).
  rewrite <- Hitems by nia. f_equal. f_equal. f_equal.
  rewrite fmap_take, Hlens, <- fmap_take, sumZ_scale.
  rewrite <- fmap_take. fold off. lia.
Qed.
End cls_preds_by_anchor.

(** X5: [concat_preds(cls_preds).reshape((0, -1, q + 1))], as [forward]
    computes it, has one row of q + 1 class scores for each anchor box: for
    the prediction [p] of scale [k], with [a] anchor boxes per cell, the
    score of class [t] for anchor box [j] of the cell at row [y] and column
    [x] is at anchor index (y w + x) a + j, after the anchor boxes of the
    scales before [k]. *)
Theorem cls_preds_by_anchor_box {A} (preds : list (ndarray A)) (N q : Z) :
  0 < N → 0 ≤ q → preds ≠ [] →
  Forall (λ p, is_cls_pred N q (shape_of p)) preds →
  ∃ r, (c ← concat_preds preds; nd_reshape c [0; -1; q + 1]) = Ok r ∧
    shape_of r = [N; sumZ (anchors_of q ∘ shape_of <$> preds); q + 1] ∧
    ∀ k p a h w, preds !! k = Some p →
      shape_of p = [N; a * (q + 1); h; w] →
      ∀ n y x j t,
        0 ≤ n < N → 0 ≤ y < h → 0 ≤ x < w → 0 ≤ j < a → 0 ≤ t < q + 1 →
        item r [n; sumZ (anchors_of q ∘ shape_of <$> take k preds)
                   + ((y * w + x) * a + j); t]
        = item p [n; j * (q + 1) + t; y; x].
Proof. apply cls_preds_items. Qed.

(** Class predictions for one image and one class: 2 anchor boxes on a 1x2
    feature map and 1 anchor box on a 1x1 feature map. *)
Definition example_cls_preds : list (ndarray Z) :=
  [of_list4 [[[[1; 2]]; [[3; 4]]; [[5; 6]]; [[7; 8]]]];
   of_list4 [[[[21]]; [[22]]]]].

Lemma cls_preds_by_anchor_box_example :
  (0 < 1 ∧ 0 ≤ 1 ∧ example_cls_preds ≠ [] ∧
   Forall (λ p, is_cls_pred 1 1 (shape_of p)) example_cls_preds) ∧
  ∃ r, (c ← concat_preds example_cls_preds; nd_reshape c [0; -1; 1 + 1])
       = Ok r ∧
    shape_of r = [1; 5; 2] ∧
    to_list2 {| shape_of := [5; 2]; item := λ idx, item r (0 :: idx) |}
    = [[1; 3]; [5; 7]; [2; 4]; [6; 8]; [21; 22]].
Proof.
  assert (Forall (λ p, is_cls_pred 1 1 (shape_of p)) example_cls_preds)
    as Hpreds.
  { repeat constructor.
    - exists 2, 1, 2. repeat split; (reflexivity || lia).
    - exists 1, 1, 1. repeat split; (reflexivity || lia). }
  split; [split_and!; [lia|lia|discriminate|exact Hpreds]|].
  destruct (cls_preds_by_anchor_box example_cls_preds 1 1)
    as (r & Hr & Hs & Hitems); [lia|lia|discriminate|exact Hpreds|].
  exists r. split; [exact Hr|]. split; [exact Hs|].
  injection Hr as <-. reflexivity.
Defined.

(** ** ssd.ipynb: the attributes of a [TinySSD] object *)

(** The names of the three heads of scale [i]. *)
Definition head_names (i : nat) : list string :=
  [fmt_d "blk_" i; fmt_d "cls_" i; fmt_d "bbox_" i].

Lemma attrs_init_other nc name :
  (∀ i, (i < 5)%nat → name ∉ head_names i) →
  attrs (TinySSD_init nc) !! name = None.
Proof.
  intros Hother.
  assert (∀ i, (i < 5)%nat → fmt_d "blk_" i ≠ name) as Hb.
  { intros i Hi <-. apply (Hother i Hi). apply list_elem_of_here. }
  assert (∀ i, (i < 5)%nat → fmt_d "cls_" i ≠ name) as Hc.
  { intros i Hi <-. apply (Hother i Hi).
    apply list_elem_of_further, list_elem_of_here. }
  assert (∀ i, (i < 5)%nat → fmt_d "bbox_" i ≠ name) as Hx.
  { intros i Hi <-. apply (Hother i Hi).
    do 2 apply list_elem_of_further. apply list_elem_of_here. }
  unfold TinySSD_init. cbn [range seq fold_left setattr attrs num_classes].
  rewrite !lookup_insert_ne
    by first [apply Hb; lia | apply Hc; lia | apply Hx; lia].
  apply lookup_empty.
Qed.

(** The names of the heads of two scales differ. *)
Lemma head_names_disjoint (i j : nat) name :
  i ≠ j → name ∈ head_names i → name ∉ head_names j.
Proof.
  intros Hij Hi Hj. unfold head_names, fmt_d in Hi, Hj.
  repeat (apply elem_of_cons in Hi as [->|Hi]);
    [| | |by apply elem_of_nil in Hi];
    (repeat (apply elem_of_cons in Hj as [Hj|Hj]);
     [| | |by apply elem_of_nil in Hj]);
    cbn in Hj; simplify_eq; by apply Hij, (inj pretty).
Qed.



(** A computation that raises ends the computations it is part of. *)
Lemma M_bind_raise {S I T A B} (c : M S I T A) (f : A → M S I T B) w w' e :
  c w = (w', Raise e) → (c ≫= f) w = (w', Raise e).
Proof. intros Hc. unfold mbind, M_bind. by rewrite Hc. Qed.

Lemma M_bind_ok {S I T A B} (c : M S I T A) (f : A → M S I T B) w w' a :
  c w = (w', Ok a) → (c ≫= f) w = f a w'.
Proof. intros Hc. unfold mbind, M_bind. by rewrite Hc. Qed.

Section missing_head.
Context {S I T : Type} `{!NDArrayOps (St S) T, !GluonOps (St S) T}.

Lemma forward_step_missing (self : TinySSD) st (i : nat) (w : world S I T)
    pre name post :
  (i < 5)%nat → head_names i = pre ++ name :: post →
  Forall (λ n, is_Some (attrs self !! n)) pre → attrs self !! name = None →
  forward_step (m:=M S I T) self st i w = (w, Raise (AttributeError name)).
Proof.
  intros Hi Hnames Hpre Hnone.
  destruct st as [[[X anchors] cls_preds] bbox_preds].
  assert (∃ size, sizes !! i = Some size) as [size Hsize]
    by (destruct i as [|[|[|[|[|i]]]]]; [by eexists..|lia]).
  assert (∃ ratio, ratios !! i = Some ratio) as [ratio Hratio]
    by (destruct i as [|[|[|[|[|i]]]]]; [by eexists..|lia]).
  unfold forward_step, getattr, subscript. unfold head_names in Hnames.
  destruct pre as [|n1 [|n2 [|n3 pre]]]; simplify_eq/=.
  - by rewrite Hnone.
  - apply Forall_cons in Hpre as [[blk ->] _].
    rewrite Hsize, Hratio. cbn. by rewrite Hnone.
  - apply Forall_cons in Hpre as [[blk ->] Hpre].
    apply Forall_cons in Hpre as [[cls ->] _].
    rewrite Hsize, Hratio. cbn. by rewrite Hnone.
  - by destruct pre.
Qed.
End missing_head.

(** X7: [forward] looks its three heads of a scale up before it runs the
    block of that scale: when one of them is missing, the iteration raises
    [AttributeError] for the first missing name, in the order block, class
    predictor, bounding box predictor, and calls nothing of the library; at
    scale 0, so does [forward]. *)
Theorem forward_missing_head {S I T : Type}
    `{!NDArrayOps (St S) T, !GluonOps (St S) T} (self : TinySSD) :
  (∀ st i (w : world S I T) pre name post,
     (i < 5)%nat → head_names i = pre ++ name :: post →
     Forall (λ n, is_Some (attrs self !! n)) pre →
     attrs self !! name = None →
     forward_step (m:=M S I T) self st i w
     = (w, Raise (AttributeError name))) ∧
  (∀ (X : T) (w : world S I T) pre name post,
     head_names 0 = pre ++ name :: post →
     Forall (λ n, is_Some (attrs self !! n)) pre →
     attrs self !! name = None →
     forward (m:=M S I T) self X w = (w, Raise (AttributeError name))).
Proof.
  split; [intros; by eapply forward_step_missing|].
  intros X w pre name post Hnames Hpre Hnone. unfold forward. cbv zeta.
  change (range 5) with [0; 1; 2; 3; 4]%nat. cbn [foldR].
  do 2 apply M_bind_raise.
  eapply forward_step_missing; [lia|done..].
Qed.

Lemma forward_missing_head_example :
  (head_names 0 = ["blk_0"] ++ "cls_0" :: ["bbox_0"] ∧
   Forall (λ n, is_Some (attrs {| num_classes := 1;
                                  attrs := {["blk_0" := base_net]} |} !! n))
     ["blk_0"] ∧
   attrs {| num_classes := 1; attrs := {["blk_0" := base_net]} |} !! "cls_0"
   = None) ∧
  forward (m:=M () nat (list Z))
    {| num_classes := 1; attrs := {["blk_0" := base_net]} |}
    [32; 3; 256; 256] ShapeLibrary.start
  = (ShapeLibrary.start, Raise (AttributeError "cls_0")).
Proof.
  assert (Forall (λ n, is_Some (attrs {| num_classes := 1;
                                  attrs := {["blk_0" := base_net]} |} !! n))
            ["blk_0"]) as Hpre by (repeat constructor; by eexists).
  split; [split_and!; [reflexivity|exact Hpre|reflexivity]|].
  exact (proj2 (forward_missing_head (S:=()) (I:=nat) (T:=list Z)
                  {| num_classes := 1; attrs := {["blk_0" := base_net]} |})
           [32; 3; 256; 256] ShapeLibrary.start ["blk_0"] "cls_0" ["bbox_0"]
           eq_refl Hpre eq_refl).
Defined.

(** ** ssd.ipynb: the focal loss *)

Section focal_loss.
Local Open Scope R_scope.

(** [log] *)
Definition xlog (x : R) : xreal :=
  if Rlt_dec 0 x then Finite (ln x)
  else if Req_dec_T x 0 then NegInf else NaN.

(** [- v] *)
Definition xneg (v : xreal) : xreal :=
  match v with
  | Finite x => Finite (- x)
  | PosInf => NegInf
  | NegInf => PosInf
  | NaN => NaN
  end.

(** The product of a real number and a result of [log]. *)
Definition xmul (c : R) (v : xreal) : xreal :=
  match v with
  | Finite x => Finite (c * x)
  | PosInf =>
      if Rlt_dec 0 c then PosInf else if Rlt_dec c 0 then NegInf else NaN
  | NegInf =>
      if Rlt_dec 0 c then NegInf else if Rlt_dec c 0 then PosInf else NaN
  | NaN => NaN
  end.

(** [focal_loss], item by item; [gamma] is a natural number, as in the
    calls of the notebook. *)
Definition focal_loss (gamma : nat) (x : list R) : list xreal :=
  (λ v, xmul (- (1 - v) ^ gamma) (xlog v)) <$> x.

Lemma focal_loss_item gamma v :
  0 < v <= 1 →
  xmul (- (1 - v) ^ gamma) (xlog v) = Finite (- (1 - v) ^ gamma * ln v) ∧
  0 <= - (1 - v) ^ gamma * ln v ∧
  - (1 - v) ^ S gamma * ln v <= - (1 - v) ^ gamma * ln v.
Proof.
  intros [Hv0 Hv1]. unfold xlog. destruct (Rlt_dec 0 v); [|done].
  assert (ln v <= 0) as Hln.
  { rewrite <- ln_1. destruct Hv1 as [Hlt| ->]; [|lra].
    by apply Rlt_le, ln_increasing. }
  assert (0 <= (1 - v) ^ gamma) as Hpow by (apply pow_le; lra).
  assert (0 <= (1 - v) ^ gamma * - ln v) as Hq
    by (apply Rmult_le_pos; lra).
  split; [done|]. split; [lra|].
  cbn [pow].
  assert (0 <= v * ((1 - v) ^ gamma * - ln v)) by (apply Rmult_le_pos; lra).
  lra.
Qed.
End focal_loss.

(** X11: on probabilities (greater than 0, at most 1) the focal loss is a
    real number that is not negative, and it does not grow with [gamma];
    for [gamma] = 0 it is the cross-entropy loss [- log x], on every
    input. *)
Theorem focal_loss_decreases_with_gamma (gamma : nat) (x : list R) :
  focal_loss 0 x = (λ v, xneg (xlog v)) <$> x ∧
  (Forall (λ v, 0 < v <= 1)%R x →
   focal_loss gamma x = (λ v, Finite (- (1 - v) ^ gamma * ln v)%R) <$> x ∧
   Forall (λ v, 0 <= - (1 - v) ^ gamma * ln v)%R x ∧
   Forall (λ v, - (1 - v) ^ S gamma * ln v <= - (1 - v) ^ gamma * ln v)%R x).
Proof.
  split.
  - unfold focal_loss. apply list_fmap_ext. intros _ v _. cbn [pow].
    unfold xlog. destruct (Rlt_dec 0 v); [cbn; f_equal; lra|].
    destruct (Req_dec_T v 0); [|done]. cbn.
    destruct (Rlt_dec 0 _); [lra|].
    destruct (Rlt_dec _ 0); [done|lra].
  - intros Hx. split_and!.
    + unfold focal_loss. apply Forall_fmap_ext_1.
      eapply Forall_impl; [done|]. intros v Hv. by apply focal_loss_item.
    + eapply Forall_impl; [done|]. intros v Hv.
      by apply (focal_loss_item gamma).
    + eapply Forall_impl; [done|]. intros v Hv.
      by apply (focal_loss_item gamma).
Qed.

Lemma focal_loss_decreases_with_gamma_example :
  Forall (λ v, 0 < v <= 1)%R [1 / 2; 1]%R ∧
  focal_loss 5 [1 / 2; 1]%R
  = [Finite (- (1 - 1 / 2) ^ 5 * ln (1 / 2));
     Finite (- (1 - 1) ^ 5 * ln 1)]%R.
Proof.
  assert (Forall (λ v, 0 < v <= 1)%R [1 / 2; 1]%R) as Hx
    by (repeat constructor; lra).
  split; [exact Hx|].
  exact (proj1 (proj2 (focal_loss_decreases_with_gamma 5 [1 / 2; 1]%R) Hx)).
Defined.

(** ** softmax-regression-scratch.ipynb: the range of [accuracy] *)

Lemma length_filter_eq {A} (P : A → Prop) `{!∀ x, Decision (P x)}
    (l : list A) :
  length (filter P l) = length l ↔ Forall P l.
Proof.
  induction l as [|x l IH]; [done|].
  destruct (decide (P x)).
  - rewrite filter_cons_True by done. cbn [length].
    rewrite Forall_cons. split; [intros [= ?]; split; [done|by apply IH]|].
    intros [_ ?]. f_equal. by apply IH.
  - rewrite filter_cons_False by done. split.
    + intros Hlen. pose proof (length_filter P l). cbn in Hlen. lia.
    + by intros [? _]%Forall_cons.
Qed.

Lemma fraction_range (c n : nat) :
  (c ≤ n)%nat → (0 < n)%nat →
  (0 <= inject_Z (Z.of_nat c) / inject_Z (Z.of_nat n) <= 1)%Q ∧
  ((inject_Z (Z.of_nat c) / inject_Z (Z.of_nat n) == 1)%Q ↔ c = n).
Proof.
  intros Hc Hn.
  assert (0 < inject_Z (Z.of_nat n))%Q as Hpos
    by (change 0%Q with (inject_Z 0); rewrite <- Zlt_Qlt; lia).
  split; [split|].
  - apply Qle_shift_div_l; [done|]. rewrite Qmult_0_l.
    change 0%Q with (inject_Z 0). rewrite <- Zle_Qle. lia.
  - apply Qle_shift_div_r; [done|]. rewrite Qmult_1_l.
    rewrite <- Zle_Qle. lia.
  - split.
    + intros Heq.
      assert (inject_Z (Z.of_nat c) == inject_Z (Z.of_nat n))%Q as Hcn.
      { rewrite <- (Qmult_div_r (inject_Z (Z.of_nat c))
                      (inject_Z (Z.of_nat n))) by (intros E; rewrite E in Hpos; by apply Qlt_irrefl in Hpos).
        rewrite Heq. apply Qmult_1_r. }
      rewrite inject_Z_injective in Hcn. lia.
    + intros ->. apply Qmult_inv_r.
      intros E. rewrite E in Hpos. by apply Qlt_irrefl in Hpos.
Qed.

(** X12: on scores with at most 2^24 rows and at most 2^24 columns,
    [accuracy] is a number between 0 and 1, and it is 1 exactly when the
    argmax index of every row is its label. *)
Theorem accuracy_between_0_and_1 (y_hat : list (list Q)) (y : list Z) :
  length y_hat = length y → y_hat ≠ [] →
  Forall (λ row, row ≠ []) y_hat →
  Z.of_nat (length y_hat) ≤ 2 ^ 24 →
  Forall (λ row, Z.of_nat (length row) ≤ 2 ^ 24) y_hat →
  ∃ preds acc, Forall2 is_argmax y_hat preds ∧
    accuracy y_hat y = Ok acc ∧
    (0 <= acc <= 1)%Q ∧
    ((acc == 1)%Q ↔ Forall2 (λ p label, Z.of_nat p = label) preds y).
Proof.
  intros Hlen Hne Hrows _ Hwide.
  destruct (accuracy_value y_hat y Hlen Hrows Hwide)
    as (preds & acc & Hpreds & Hacc & Hval).
  exists preds, acc. split; [done|]. split; [done|].
  assert (length preds = length y) as Hlen'
    by (apply Forall2_length in Hpreds; lia).
  assert (0 < length y)%nat as Hpos by (destruct y_hat, y; cbn in *; done || lia).
  assert (correct preds y ≤ length y)%nat as Hle.
  { unfold correct. etrans; [apply length_filter|].
    rewrite length_zip_with. lia. }
  destruct (fraction_range _ _ Hle Hpos) as [Hrange Hone].
  rewrite Hval. split; [done|]. rewrite Hone.
  unfold correct.
  replace (length y) with (length (zip preds y))
    by (rewrite length_zip_with; lia).
  rewrite length_filter_eq. split.
  - intros Hall. apply Forall2_same_length_lookup. split; [done|].
    intros i p label Hp Hl. rewrite Forall_lookup in Hall.
    apply (Hall i (p, label)). by apply lookup_zip_with_Some; eauto.
  - intros Hall. apply Forall_forall. intros [p label] Hin.
    apply list_elem_of_lookup in Hin as [i Hi].
    apply lookup_zip_with_Some in Hi as (p' & l' & [= <- <-] & Hp & Hl).
    exact (Forall2_lookup_lr _ _ _ i _ _ Hall Hp Hl).
Qed.

Lemma accuracy_between_0_and_1_example :
  (length [[0.1; 0.3; 0.6]; [0.3; 0.2; 0.5]]%Q = length [2; 2] ∧
   [[0.1; 0.3; 0.6]; [0.3; 0.2; 0.5]]%Q ≠ [] ∧
   Forall (λ row, row ≠ []) [[0.1; 0.3; 0.6]; [0.3; 0.2; 0.5]]%Q ∧
   Z.of_nat (length [[0.1; 0.3; 0.6]; [0.3; 0.2; 0.5]]%Q) ≤ 2 ^ 24 ∧
   Forall (λ row, Z.of_nat (length row) ≤ 2 ^ 24)
     [[0.1; 0.3; 0.6]; [0.3; 0.2; 0.5]]%Q) ∧
  ∃ acc, accuracy [[0.1; 0.3; 0.6]; [0.3; 0.2; 0.5]]%Q [2; 2] = Ok acc ∧
    (0 <= acc <= 1)%Q.
Proof.
  assert (Forall (λ row : list Q, row ≠ [])
            [[0.1; 0.3; 0.6]; [0.3; 0.2; 0.5]]%Q) as Hne
    by (repeat constructor; discriminate).
  assert (Forall (λ row : list Q, Z.of_nat (length row) ≤ 2 ^ 24)
            [[0.1; 0.3; 0.6]; [0.3; 0.2; 0.5]]%Q) as Hwide
    by (repeat constructor; cbn [length]; lia).
  assert (Z.of_nat (length [[0.1; 0.3; 0.6]; [0.3; 0.2; 0.5]]%Q) ≤ 2 ^ 24)
    as Hrows by (cbn [length]; lia).
  split; [split_and!; [done|discriminate|exact Hne|exact Hrows|exact Hwide]|].
  destruct (accuracy_between_0_and_1 [[0.1; 0.3; 0.6]; [0.3; 0.2; 0.5]]%Q
              [2; 2] eq_refl) as (preds & acc & _ & Hacc & Hrange & _);
    [discriminate|exact Hne|exact Hrows|exact Hwide|].
  by exists acc.
Defined.

(** ** softmax-regression-scratch.ipynb: [accuracy] and the number of
    labels *)

Lemma Qsum_eq_label_count (preds : list nat) (label : Z) :
  Forall (λ p, Z.of_nat p < 2 ^ 24) preds →
  (Qsum ((λ a, if Qeq_bool a (inject_Z (float32_of_Z label)) then 1 else 0)
           <$> ((λ i, inject_Z (float32_of_Z (Z.of_nat i))) <$> preds))
   == inject_Z (Z.of_nat (length (filter (λ p, Z.of_nat p = label) preds))))%Q.
Proof.
  induction 1 as [|p preds Hp _ IH]; [reflexivity|].
  rewrite !fmap_cons. cbn [Qsum foldr].
  fold (Qsum ((λ a, if Qeq_bool a (inject_Z (float32_of_Z label))
                    then 1%Q else 0%Q)
           <$> ((λ i, inject_Z (float32_of_Z (Z.of_nat i))) <$> preds))).
  rewrite IH. clear IH.
  destruct (decide (Z.of_nat p = label)) as [Heq|Hne].
  - rewrite filter_cons_True by done. rewrite Heq.
    rewrite (proj2 (Qeq_bool_iff _ _) (Qeq_refl _)).
    cbn [length]. rewrite Nat2Z.inj_succ, <- Z.add_1_l, inject_Z_plus.
    reflexivity.
  - rewrite filter_cons_False by done.
    destruct (Qeq_bool (inject_Z (float32_of_Z (Z.of_nat p)))
                (inject_Z (float32_of_Z label))) eqn:E.
    + apply Qeq_bool_iff in E. rewrite inject_Z_injective in E.
      assert (0 ≤ Z.of_nat p < 2 ^ 24) as Hr by lia.
      by apply (proj1 (float32_of_Z_eq _ _ Hr)) in E.
    + apply Qplus_0_l.
Qed.

(** X13: [accuracy] does not check that there is one label for each row.
    With several rows and a number of labels that is neither their number
    nor 1, the comparison raises; a single label is compared with every
    row, and on scores with at most 2^24 rows and at most 2^24 columns
    [accuracy] is the fraction of the rows whose argmax index is that
    label. *)
Theorem accuracy_label_count (y_hat : list (list Q)) (y : list Z) :
  Forall (λ row, row ≠ []) y_hat → length y_hat ≠ length y →
  (length y_hat ≠ 1%nat → length y ≠ 1%nat →
   accuracy y_hat y = Raise (MXNetError "broadcast")) ∧
  (∀ label, y = [label] →
   Z.of_nat (length y_hat) ≤ 2 ^ 24 →
   Forall (λ row, Z.of_nat (length row) ≤ 2 ^ 24) y_hat →
   ∃ preds acc, Forall2 is_argmax y_hat preds ∧
     accuracy y_hat y = Ok acc ∧
     (acc == inject_Z (Z.of_nat
                (length (filter (λ p, Z.of_nat p = label) preds)))
             / inject_Z (Z.of_nat (length y_hat)))%Q).
Proof.
  intros Hrows Hlen.
  destruct (nd_argmax_axis1_spec y_hat Hrows) as (preds & Hpreds & Hargmax).
  assert (length preds = length y_hat) as Hlen'
    by (apply Forall2_length in Hpreds; lia).
  split.
  - intros Hy_hat Hy. unfold accuracy. rewrite Hargmax. simpl_result.
    unfold nd_eq, broadcast, astype_float32.
    rewrite decide_False by (rewrite !length_fmap; lia).
    destruct y as [|l1 [|l2 y]]; [| done |].
    + destruct preds as [|p1 [|p2 preds]]; cbn in *; done || lia.
    + destruct preds as [|p1 [|p2 preds]]; cbn in *; done || lia.
  - intros label -> _ Hwide. exists preds. eexists. split; [done|].
    unfold accuracy. rewrite Hargmax. simpl_result.
    unfold nd_eq, broadcast, astype_float32.
    rewrite decide_False by (rewrite !length_fmap; cbn in *; lia).
    cbn [fmap list_fmap].
    rewrite (mapR_pure (λ a, if Qeq_bool a (inject_Z (float32_of_Z label))
                             then 1 else 0)%Q).
    simpl_result. split; [done|].
    unfold nd_mean.
    rewrite Qsum_eq_label_count by by eapply argmax_indices_small.
    rewrite !length_fmap, Hlen'. reflexivity.
Qed.

Lemma accuracy_label_count_example :
  (Forall (λ row, row ≠ []) [[0.1; 0.3; 0.6]; [0.3; 0.2; 0.5]]%Q ∧
   length [[0.1; 0.3; 0.6]; [0.3; 0.2; 0.5]]%Q ≠ length [0; 2; 1] ∧
   length [[0.1; 0.3; 0.6]; [0.3; 0.2; 0.5]]%Q ≠ 1%nat ∧
   length [0; 2; 1] ≠ 1%nat) ∧
  accuracy [[0.1; 0.3; 0.6]; [0.3; 0.2; 0.5]]%Q [0; 2; 1]
  = Raise (MXNetError "broadcast").
Proof.
  assert (Forall (λ row : list Q, row ≠ [])
            [[0.1; 0.3; 0.6]; [0.3; 0.2; 0.5]]%Q) as Hne
    by (repeat constructor; discriminate).
  split; [split_and!; [exact Hne|discriminate..]|].
  apply (proj1 (accuracy_label_count [[0.1; 0.3; 0.6]; [0.3; 0.2; 0.5]]%Q
                  [0; 2; 1] Hne ltac:(discriminate))); discriminate.
Defined.

(** ** The loops on a data iterator that yields no batch *)

Section empty_pass.
Context {S I Tr T : Type}.
Context `{!NDArrayOps (St S) T, !GluonOps (St S) T, !IndexOps (St S) T,
          !ContribOps (St S) T, !TrainOps (St S) I Tr T}.

Lemma logged_ok {A} name args (op : St S A) (w : world S I T) s a :
  op (lib w) = (s, Ok a) →
  logged name args op w = (World s (trace w ++ [Call name args None]), Ok a).
Proof. intros Hop. unfold logged. by rewrite Hop. Qed.

Lemma logged_iter_ok {B} it flat (op : St S (list B)) (w : world S I T) s bs :
  op (lib w) = (s, Ok bs) →
  logged_iter it flat op w
  = (World s (trace w ++ [Yield it (flat <$> bs)]), Ok bs).
Proof. intros Hop. unfold logged_iter. by rewrite Hop. Qed.

Lemma evaluate_accuracy_no_batch data_iter (net : T → M S I T T)
    (w : world S I T) s :
  iterate data_iter (lib w) = (s, Ok []) →
  evaluate_accuracy data_iter net w
  = (World s (trace w ++ [Yield data_iter []]), Raise ZeroDivisionError).
Proof.
  intros Hiter. unfold evaluate_accuracy. cbv beta iota.
  erewrite M_bind_ok; [|by apply logged_iter_ok].
  cbn [foldR fmap list_fmap]. erewrite M_bind_ok; [|reflexivity].
  reflexivity.
Qed.
End empty_pass.

(** X14: on a data iterator that yields no batch, [evaluate_accuracy]
    calls nothing else and raises [ZeroDivisionError]. *)
Theorem evaluate_accuracy_empty_pass {S I Tr T : Type}
    `{!NDArrayOps (St S) T, !GluonOps (St S) T, !IndexOps (St S) T,
      !ContribOps (St S) T, !TrainOps (St S) I Tr T}
    (data_iter : I) (net : T → M S I T T) (w : world S I T) (s : S) :
  iterate data_iter (lib w) = (s, Ok []) →
  evaluate_accuracy data_iter net w
  = (World s (trace w ++ [Yield data_iter []]), Raise ZeroDivisionError).
Proof. apply evaluate_accuracy_no_batch. Qed.

Lemma evaluate_accuracy_empty_pass_example :
  iterate (m:=St ()) (T:=list Z) 0%nat (lib ShapeLibrary.start)
  = ((), Ok []) ∧
  evaluate_accuracy 0%nat (logged_net ShapeLibrary.net) ShapeLibrary.start
  = (World () [Yield 0%nat []], Raise ZeroDivisionError).
Proof.
  split; [reflexivity|].
  apply (evaluate_accuracy_empty_pass (S:=()) (I:=nat) (Tr:=()) (T:=list Z)
           0%nat (logged_net ShapeLibrary.net) ShapeLibrary.start ()).
  reflexivity.
Defined.

(** X15: when the training iterator yields no batch, [train_ch3] still
    evaluates on the test iterator in its first epoch, and then raises
    [ZeroDivisionError]: it trains on nothing and prints nothing. *)
Theorem train_ch3_empty_pass {S I Tr T : Type}
    `{!NDArrayOps (St S) T, !GluonOps (St S) T, !IndexOps (St S) T,
      !ContribOps (St S) T, !TrainOps (St S) I Tr T}
    (net : T → M S I T T) (loss : T → T → M S I T T)
    (train_iter test_iter : I) num_epochs batch_size params lr
    (trainer : option Tr) (w w' : world S I T) (s : S) (test_acc : Q) :
  iterate train_iter (lib w) = (s, Ok []) →
  evaluate_accuracy test_iter net
    (World s (trace w ++ [Yield train_iter []])) = (w', Ok test_acc) →
  train_ch3 net train_iter test_iter loss (Datatypes.S num_epochs)
    batch_size params lr trainer w
  = (w', Raise ZeroDivisionError).
Proof.
  intros Hiter Heval. unfold train_ch3.
  change (range (Datatypes.S num_epochs)) with (0%nat :: seq 1 num_epochs).
  cbn [foldR]. apply M_bind_raise.
  unfold train_ch3_epoch. cbv beta iota.
  erewrite M_bind_ok; [|by apply logged_iter_ok].
  cbn [foldR fmap list_fmap]. erewrite M_bind_ok; [|reflexivity].
  cbv beta iota. erewrite M_bind_ok; [|exact Heval].
  apply M_bind_raise. reflexivity.
Qed.

Lemma train_ch3_empty_pass_example :
  (iterate (m:=St ()) (T:=list Z) 0%nat (lib ShapeLibrary.start)
   = ((), Ok []) ∧
   ∃ w' test_acc,
     evaluate_accuracy 1%nat (logged_net ShapeLibrary.net)
       (World () (trace ShapeLibrary.start ++ [Yield 0%nat []]))
     = (w', Ok test_acc)) ∧
  ∃ w', train_ch3 (logged_net ShapeLibrary.net) 0%nat 1%nat
          (logged_loss ShapeLibrary.loss) 5 256 None None None
          ShapeLibrary.start
        = (w', Raise ZeroDivisionError).
Proof.
  assert (∃ w' test_acc,
     evaluate_accuracy 1%nat (logged_net ShapeLibrary.net)
       (World () (trace ShapeLibrary.start ++ [Yield 0%nat []]))
     = (w', Ok test_acc)) as (w' & test_acc & Heval).
  { do 2 eexists. vm_compute. reflexivity. }
  split; [split; [reflexivity|by exists w', test_acc]|].
  exists w'.
  apply (train_ch3_empty_pass (S:=()) (I:=nat) (Tr:=()) (T:=list Z)
           (logged_net ShapeLibrary.net) (logged_loss ShapeLibrary.loss)
           0%nat 1%nat 4%nat 256 None None None ShapeLibrary.start w' ()
           test_acc); [reflexivity|exact Heval].
Defined.

Section ssd_empty_pass.
Context {S I Tr T : Type}.
Context `{!NDArrayOps (St S) T, !GluonOps (St S) T, !IndexOps (St S) T,
          !ContribOps (St S) T, !TrainOps (St S) I Tr T}.
Context (net : TinySSD) (train_iter : I) (trainer : Tr) (batch_size : Z).
Context (Hreset : ∀ s, ∃ s', iter_reset train_iter s = (s', Ok ())).
Context (Htime : ∀ s, ∃ s' t, time s = (s', Ok t)).
Context (Hiter : ∀ s, ∃ s', iterate_batches train_iter s = (s', Ok [])).

(** What an epoch without batches logs. *)
Definition empty_epoch_events : list (event I T) :=
  [Call "reset" [] None; Call "time" [] None; Yield train_iter []].

Lemma ssd_train_epoch_no_batch epoch (w : world S I T) :
  ∃ w', trace w' = trace w ++ empty_epoch_events ∧
    ssd_train_epoch (m:=M S I T) net train_iter trainer batch_size epoch w
    = (w', if decide ((Z.of_nat epoch + 1) `mod` 5 = 0)
           then Raise ZeroDivisionError else Ok ()).
Proof.
  unfold ssd_train_epoch. cbv beta iota.
  destruct (Hreset (lib w)) as [s1 H1].
  erewrite M_bind_ok; [|by apply logged_ok].
  destruct (Htime s1) as (s2 & start & H2).
  erewrite M_bind_ok; [|by apply logged_ok].
  destruct (Hiter s2) as [s3 H3].
  erewrite M_bind_ok; [|by apply logged_iter_ok].
  cbn [foldR fmap list_fmap]. erewrite M_bind_ok; [|reflexivity].
  cbv beta iota. eexists. split; [|by case_decide].
  cbn [trace]. by rewrite <- !app_assoc.
Qed.
End ssd_empty_pass.

(** X16: when the training iterator yields no batch, the training cell of
    the detector runs four epochs without a sign of it and raises
    [ZeroDivisionError] in the fifth, the first one that computes the
    statistics: it has reset the iterator, read the time and passed over
    the iterator five times, and called nothing else. *)
Theorem ssd_train_empty_pass {S I Tr T : Type}
    `{!NDArrayOps (St S) T, !GluonOps (St S) T, !IndexOps (St S) T,
      !ContribOps (St S) T, !TrainOps (St S) I Tr T}
    (net : TinySSD) (train_iter : I) (trainer : Tr) (batch_size : Z)
    (w : world S I T) :
  (∀ s, ∃ s', iter_reset train_iter s = (s', Ok ())) →
  (∀ s, ∃ s' t, time s = (s', Ok t)) →
  (∀ s, ∃ s', iterate_batches train_iter s = (s', Ok [])) →
  ∃ w', ssd_train (m:=M S I T) net train_iter trainer batch_size w
        = (w', Raise ZeroDivisionError) ∧
    trace w'
    = trace w ++ flat_map (λ _, empty_epoch_events train_iter) (range 5).
Proof.
  intros Hreset Htime Hiter. unfold ssd_train.
  change (range 20) with ([0; 1; 2; 3; 4] ++ seq 5 15)%nat.
  cbn [app foldR].
  pose proof (ssd_train_epoch_no_batch net train_iter trainer batch_size
                Hreset Htime Hiter) as Hepoch.
  destruct (Hepoch 0%nat w) as (w1 & Ht1 & H1).
  erewrite M_bind_ok; [|exact H1].
  destruct (Hepoch 1%nat w1) as (w2 & Ht2 & H2).
  erewrite M_bind_ok; [|exact H2].
  destruct (Hepoch 2%nat w2) as (w3 & Ht3 & H3).
  erewrite M_bind_ok; [|exact H3].
  destruct (Hepoch 3%nat w3) as (w4 & Ht4 & H4).
  erewrite M_bind_ok; [|exact H4].
  destruct (Hepoch 4%nat w4) as (w5 & Ht5 & H5).
  exists w5. split; [by apply M_bind_raise|].
  rewrite Ht5, Ht4, Ht3, Ht2, Ht1. cbn [range seq flat_map].
  by rewrite <- !app_assoc.
Qed.

Lemma ssd_train_empty_pass_example :
  ((∀ s, ∃ s', iter_reset (m:=St ()) (T:=list Z) 0%nat s = (s', Ok ())) ∧
   (∀ s, ∃ s' t, time (m:=St ()) (I:=nat) (T:=list Z) s = (s', Ok t)) ∧
   (∀ s, ∃ s', iterate_batches (m:=St ()) (T:=list Z) 0%nat s
               = (s', Ok []))) ∧
  ∃ w', ssd_train (m:=M () nat (list Z)) (TinySSD_init 1) 0%nat () 32
          ShapeLibrary.start
        = (w', Raise ZeroDivisionError).
Proof.
  assert (∀ s, ∃ s', iter_reset (m:=St ()) (T:=list Z) 0%nat s = (s', Ok ()))
    as Hreset by (intros s; eexists; reflexivity).
  assert (∀ s, ∃ s' t, time (m:=St ()) (I:=nat) (T:=list Z) s = (s', Ok t))
    as Htime by (intros s; do 2 eexists; reflexivity).
  assert (∀ s, ∃ s', iterate_batches (m:=St ()) (T:=list Z) 0%nat s
                     = (s', Ok [])) as Hiter by (intros s; eexists; reflexivity).
  split; [by split_and!|].
  destruct (ssd_train_empty_pass (S:=()) (I:=nat) (Tr:=()) (T:=list Z)
              (TinySSD_init 1) 0%nat () 32 ShapeLibrary.start
              Hreset Htime Hiter) as (w' & Hrun & _).
  by exists w'.
Defined.

(** ** softmax-regression-scratch.ipynb: what [evaluate_accuracy] returns *)

Section batch_hits.
Context {m : Type → Type} `{!MRet m, !MBind m, !MRaise m}.
Context {I Tr T : Type} `{!IndexOps m T, !TrainOps m I Tr T}.

(** What the body of the loop of [evaluate_accuracy] adds to [acc_sum] and
    to [n] for the batch [(X, y)]. *)
Definition batch_hits (net : T → m T) (batch : T * T) : m (Q * Z)%type :=
  let '(X, y) := batch in
  y ← astype y "float32";
  y_hat ← net X;
  p ← nd_argmax y_hat 1;
  e ← nd_equal p y;
  s ← nd_sum e;
  acc ← asscalar s;
  n1 ← nd_size y;
  mret (acc, n1).

Lemma foldR_ext {A B} (f g : B → A → m B) l b :
  (∀ b a, f b a = g b a) → foldR f l b = foldR g l b.
Proof.
  intros Hfg. revert b. induction l as [|a l IH]; intros b; [done|].
  cbn [foldR]. rewrite Hfg. by apply mbind_ext.
Qed.

Lemma evaluate_accuracy_by_batch_hits `{!MonadLaws m} data_iter net :
  evaluate_accuracy data_iter net
  = (batches ← iterate data_iter;
     '(acc_sum, n) ← foldR (λ '(acc_sum, n) batch,
         '(acc, n1) ← batch_hits net batch;
         mret ((acc_sum + acc)%Q, n + n1)) batches (0%Q, 0);
     py_div acc_sum n).
Proof.
  unfold evaluate_accuracy. cbv beta iota zeta.
  apply mbind_ext. intros batches. f_equal.
  apply foldR_ext. intros [acc_sum n] [X y]. unfold batch_hits.
  repeat (rewrite mbind_assoc; apply mbind_ext; intros ?).
  by rewrite mbind_ret_l.
Qed.
End batch_hits.

Section evaluate_accuracy_ratio.
Context {S I Tr T : Type} `{!IndexOps (St S) T, !TrainOps (St S) I Tr T}.

Lemma St_bind_ok {A B} (c : St S A) (f : A → St S B) s s' a :
  c s = (s', Ok a) → (c ≫= f) s = f a s'.
Proof. intros Hc. unfold mbind, St_bind. by rewrite Hc. Qed.

Lemma St_bind_inv {A B} (c : St S A) (f : A → St S B) s s2 b :
  (c ≫= f) s = (s2, Ok b) →
  ∃ s1 a, c s = (s1, Ok a) ∧ f a s1 = (s2, Ok b).
Proof.
  unfold mbind, St_bind. destruct (c s) as [s1 [a|e]]; [|done].
  intros Hf. by exists s1, a.
Qed.

(** The loop adds the statistics of the batches up. *)
Lemma fold_batch_hits (net : T → St S T) batches (s s2 : S) stats a n :
  mapR (batch_hits net) batches s = (s2, Ok stats) →
  ∃ a', foldR (λ '(acc_sum, n) batch,
           '(acc, n1) ← batch_hits net batch;
           mret ((acc_sum + acc)%Q, n + n1)) batches (a, n) s
        = (s2, Ok (a', n + sumZ (snd <$> stats))) ∧
    (a' == a + Qsum (fst <$> stats))%Q.
Proof.
  revert s stats a n. induction batches as [|batch batches IH];
    intros s stats a n Hmap.
  - injection Hmap as <- <-. exists a. cbn. rewrite Z.add_0_r.
    split; [done|]. by rewrite Qplus_0_r.
  - cbn [mapR] in Hmap.
    apply St_bind_inv in Hmap as (s1 & [acc n1] & Hhits & Hmap).
    apply St_bind_inv in Hmap as (s2' & stats' & Hrest & Hret).
    injection Hret as <- <-.
    destruct (IH s1 stats' (a + acc)%Q (n + n1) Hrest) as (a' & Hfold & Ha').
    exists a'. split.
    + cbn [foldR].
      erewrite St_bind_ok;
        [|erewrite St_bind_ok; [|exact Hhits]; reflexivity].
      rewrite Hfold. do 3 f_equal. cbn. unfold sumZ. lia.
    + rewrite Ha'. cbn. by rewrite Qplus_assoc.
Qed.
End evaluate_accuracy_ratio.

(** X17: [evaluate_accuracy] returns the sum of the numbers of hits of the
    batches over the sum of their sizes, as the library computes them for
    each batch: the accuracy over all examples of the pass, not the mean of
    the accuracies of the batches.  When the sizes add up to 0 it raises
    [ZeroDivisionError]. *)
Theorem evaluate_accuracy_is_ratio_of_sums {S I Tr T : Type}
    `{!IndexOps (St S) T, !TrainOps (St S) I Tr T}
    (data_iter : I) (net : T → St S T) (s s1 s2 : S)
    (batches : list (T * T)) (stats : list (Q * Z)) :
  iterate data_iter s = (s1, Ok batches) →
  mapR (batch_hits net) batches s1 = (s2, Ok stats) →
  (sumZ (snd <$> stats) = 0 →
   evaluate_accuracy data_iter net s = (s2, Raise ZeroDivisionError)) ∧
  (sumZ (snd <$> stats) ≠ 0 →
   ∃ v, evaluate_accuracy data_iter net s = (s2, Ok v) ∧
     (v == Qsum (fst <$> stats) / inject_Z (sumZ (snd <$> stats)))%Q).
Proof.
  intros Hiter Hstats. rewrite evaluate_accuracy_by_batch_hits.
  erewrite St_bind_ok; [|exact Hiter].
  destruct (fold_batch_hits net batches s1 s2 stats 0%Q 0 Hstats)
    as (a' & Hfold & Ha').
  erewrite St_bind_ok; [|exact Hfold]. rewrite Z.add_0_l.
  unfold py_div. split; intros Hn.
  - by rewrite decide_True.
  - rewrite decide_False by done. eexists. split; [done|].
    by rewrite Ha', Qplus_0_l.
Qed.

(** The statistics of two batches of 256 examples in the example
    library, whose [asscalar] returns 0. *)
Definition example_stats : list (Q * Z) := [(0%Q, 256); (0%Q, 256)].

Lemma evaluate_accuracy_is_ratio_of_sums_example :
  (iterate (m:=St ()) (T:=list Z) 2%nat ()
   = ((), Ok [([256; 1; 28; 28], [256]); ([256; 1; 28; 28], [256])]) ∧
   mapR (batch_hits ShapeLibrary.net)
     [([256; 1; 28; 28], [256]); ([256; 1; 28; 28], [256])] ()
   = ((), Ok example_stats) ∧
   sumZ (snd <$> example_stats) ≠ 0) ∧
  ∃ v, evaluate_accuracy 2%nat ShapeLibrary.net () = ((), Ok v) ∧
    (v == Qsum (fst <$> example_stats)
          / inject_Z (sumZ (snd <$> example_stats)))%Q.
Proof.
  split; [split_and!; [reflexivity|reflexivity|discriminate]|].
  destruct (evaluate_accuracy_is_ratio_of_sums (S:=()) (I:=nat) (Tr:=())
              (T:=list Z) 2%nat ShapeLibrary.net () () ()
              [([256; 1; 28; 28], [256]); ([256; 1; 28; 28], [256])]
              example_stats) as [_ Hratio]; [reflexivity..|].
  apply Hratio. discriminate.
Defined.

(** ** A library for [display], on arrays with contents *)

(** The items of an array with one axis. *)
Definition to_list1 {A} (x : ndarray A) : list A :=
  (λ j, item x [Z.of_nat j]) <$> seq 0 (Z.to_nat (shape_of x !!! 0%nat)).

Module ValueDisplay.

(** The bound [i] of a slice of an axis of extent [d]: a negative bound
    counts from the end, and bounds are clipped to the axis. *)
Definition slice_bound (d i : Z) : Z :=
  let i := if decide (i < 0) then i + d else i in
  Z.max 0 (Z.min i d).

(** [x[start:stop]], along the first axis.  A slice without items is an
    array that MXNet 1.x does not have; what it does instead is not
    modelled. *)
Definition slice {A} (x : ndarray A) (start stop : Z) : result (ndarray A) :=
  match shape_of x with
  | [] => Raise IndexError
  | d :: rest =>
      let a := slice_bound d start in
      let b := slice_bound d stop in
      Ok (NDArray (Z.max 0 (b - a) :: rest) (λ idx,
            match idx with
            | i :: idx => item x (i + a :: idx)
            | [] => item x []
            end))
  end.

(** [nd.array(values)] of a tuple of integers. *)
Definition array (values : list Z) : result (ndarray Q) :=
  Ok (NDArray [Z.of_nat (length values)] (λ idx,
        inject_Z (values !!! Z.to_nat (default 0 (head idx))))).

(** The extent of the result of an operation with broadcasting, from the
    extents of its arguments along one axis. *)
Definition broadcast_dim (d1 d2 : Z) : result Z :=
  if decide (d1 = d2) then Ok d1
  else if decide (d1 = 1) then Ok d2
  else if decide (d2 = 1) then Ok d1
  else Raise (MXNetError "broadcast")%string.

(** Shapes are aligned at their last axis; missing axes have extent 1. *)
Definition broadcast_shape (s1 s2 : list Z) : result (list Z) :=
  let n := (length s1 `max` length s2)%nat in
  mapR (λ '(d1, d2), broadcast_dim d1 d2)
    (zip (replicate (n - length s1) 1 ++ s1)
         (replicate (n - length s2) 1 ++ s2)).

(** The multi-index in an argument of shape [s] for the multi-index [idx]
    of the result. *)
Definition project (s idx : list Z) : list Z :=
  zip_with (λ d i, if decide (d = 1) then 0 else i) s
    (drop (length idx - length s) idx).

(** [x * y], item by item. *)
Definition multiply (x y : ndarray Q) : result (ndarray Q) :=
  s ← broadcast_shape (shape_of x) (shape_of y);
  Ok (NDArray s (λ idx,
        (item x (project (shape_of x) idx)
         * item y (project (shape_of y) idx))%Q)).

(** What a figure shows, for each call of [show_bboxes]: the bounding
    boxes, the score of the label and the color. *)
Definition figure : Type := list (list (list Q) * Q * string).

(** The shapes of the arrays that [imshow] takes for an image: (M, N),
    (M, N, 3) and (M, N, 4).  For another shape it raises [TypeError]. *)
Definition image_shape (s : list Z) : Prop :=
  match s with
  | [_; _] => True
  | [_; _; c] => c = 3 ∨ c = 4
  | _ => False
  end.

#[global] Instance image_shape_dec s : Decision (image_shape s).
Proof. destruct s as [|? [|? [|? [|]]]]; cbn; apply _. Defined.

Definition lift {A} (r : result A) : St figure A := λ fig, (fig, r).

#[global] Instance figure_index_ops : IndexOps (St figure) (ndarray Q) := {
  nd_getitem x i := lift (ValueIndex.getitem x i);
  nd_iter x := lift (ValueIndex.iter x);
  asscalar x := lift (ValueIndex.asscalar x);
  nd_take x i idx := lift (ValueIndex.take x i idx);
  nd_size x := lift (ValueIndex.size x);
}.

#[global] Instance figure_display_ops :
    DisplayOps (St figure) (ndarray Q) unit := {
  asnumpy x := lift (Ok x);
  imshow x :=
    lift (if decide (image_shape (shape_of x)) then Ok () else Raise TypeError);
  nd_shape := shape_of;
  nd_slice x start stop := lift (slice x start stop);
  nd_array values := lift (array values);
  nd_multiply x y := lift (multiply x y);
  show_bboxes _ bboxes score color := λ fig,
    (fig ++ [(to_list1 <$> bboxes, score, color)], Ok ());
}.

End ValueDisplay.

(** ** What [display] draws *)

(** The score of a detection [row]: its item 1. *)
Definition score_of (row : list Q) : Q := row !!! 1%nat.

(** [display] shows the rows whose score is not below the threshold. *)
Definition shown (threshold : Q) (row : list Q) : bool :=
  if Qlt_le_dec (score_of row) threshold then false else true.

(** What [display] draws for a detection [row] on an image of height [h]
    and width [w]: the corners of the bounding box (the items 2 to 5),
    scaled by the width and the height, with the score as the label, in
    white. *)
Definition drawing_of (h w : Z) (row : list Q) :
    list (list Q) * Q * string :=
  ([zip_with Qmult (take 4 (drop 2 row)) (inject_Z <$> [w; h; w; h])],
   score_of row, "w"%string).

Section display_rows.
Import ValueIndex ValueDisplay.
Implicit Types x : ndarray Q.

Lemma row_of_items x d (i : nat) :
  6 ≤ d →
  ∃ tl : list Q, row_of x d i
        = [item x [Z.of_nat i; 0]; item x [Z.of_nat i; 1];
           item x [Z.of_nat i; 2]; item x [Z.of_nat i; 3];
           item x [Z.of_nat i; 4]; item x [Z.of_nat i; 5]] ++ tl.
Proof.
  intros Hd. unfold row_of.
  replace (Z.to_nat d) with (6 + (Z.to_nat d - 6))%nat by lia.
  rewrite seq_app, fmap_app. by eexists.
Qed.

Lemma display_row_draws (img output : ndarray Q) threshold d h w rest
    (i : nat) (fig : figure) :
  6 ≤ d → shape_of img = h :: w :: rest →
  display_row (m:=St figure) img () threshold
    (NDArray [d] (λ idx, item output (Z.of_nat i :: idx))) fig
  = (if shown threshold (row_of output d i)
     then fig ++ [drawing_of h w (row_of output d i)] else fig, Ok ()).
Proof.
  intros Hd Himg. unfold display_row.
  destruct (row_of_items output d i Hd) as [tl Hrow].
  assert (score_of (row_of output d i) = item output [Z.of_nat i; 1])
    as Hscore by by rewrite Hrow.
  erewrite St_bind_ok.
  2:{ cbn [nd_getitem figure_index_ops]. unfold lift, getitem.
      cbn [shape_of]. cbv zeta.
      rewrite (decide_False (P := 1 < 0)) by lia.
      by rewrite decide_True by lia. }
  erewrite St_bind_ok; [|reflexivity]. cbn [item shape_of replicate length].
  unfold shown. rewrite Hscore.
  destruct (Qlt_le_dec (item output [Z.of_nat i; 1]) threshold); [done|].
  cbn [nd_shape figure_display_ops]. rewrite Himg. cbn [list.take unpack2].
  erewrite St_bind_ok; [|reflexivity]. cbv beta iota.
  erewrite St_bind_ok.
  2:{ cbn [nd_slice figure_display_ops]. unfold lift, slice.
      cbn [shape_of]. cbv zeta. unfold slice_bound.
      rewrite !(decide_False (P := _ < 0)) by lia.
      rewrite (Z.min_l 2 d), (Z.min_l 6 d) by lia. done. }
  erewrite St_bind_ok; [|reflexivity].
  erewrite St_bind_ok; [|reflexivity].
  cbn [show_bboxes figure_display_ops]. f_equal. f_equal.
  unfold drawing_of. rewrite Hscore, Hrow. reflexivity.
Qed.

Lemma display_rows_draw (img output : ndarray Q) threshold d h w rest
    (l : list nat) (fig : figure) :
  6 ≤ d → shape_of img = h :: w :: rest →
  foldR (λ _ row, display_row (m:=St figure) img () threshold row)
    ((λ i, NDArray [d] (λ idx, item output (Z.of_nat i :: idx))) <$> l) () fig
  = (fig ++ (drawing_of h w
               <$> filter (λ row, shown threshold row) (row_of output d <$> l)),
     Ok ()).
Proof.
  intros Hd Himg. revert fig. induction l as [|i l IH]; intros fig.
  - cbn. by rewrite app_nil_r.
  - rewrite !fmap_cons. cbn [foldR].
    erewrite St_bind_ok; [|by eapply display_row_draws].
    rewrite IH. destruct (shown threshold (row_of output d i)) eqn:Hshown.
    + rewrite filter_cons_True by by rewrite Hshown.
      by rewrite fmap_cons, <- app_assoc.
    + rewrite filter_cons_False; [done|]. rewrite Hshown. by intros [].
Qed.
End display_rows.



(** ** How often the training loops print *)

(** The log entry of a call of [print] that returned. *)
Definition is_print {I T} (ev : event I T) : bool :=
  match ev with
  | Call "print" _ None => true
  | _ => false
  end%string.

Section prints.
Context {S I T : Type}.

(** When [c] returns, it has printed [n] times. *)
Definition prints {A} (c : M S I T A) (n : nat) : Prop :=
  ∀ w w' a, c w = (w', Ok a) →
    ∃ evs, trace w' = trace w ++ evs ∧ length (filter is_print evs) = n.

Lemma prints_eq {A} (c : M S I T A) n n' : prints c n → n = n' → prints c n'.
Proof. by intros ? <-. Qed.

Lemma prints_ret {A} (a : A) : prints (mret a) 0.
Proof.
  intros w w' a' Hrun. injection Hrun as <- <-.
  exists []. by rewrite app_nil_r.
Qed.

Lemma prints_raise {A} (e : exn) n : prints (mraise (A:=A) e) n.
Proof. by intros w w' a'. Qed.

Lemma prints_logged {A} name args (op : St S A) b :
  is_print (Call (I:=I) name args None) = b →
  prints (logged name args op) (if b then 1 else 0).
Proof.
  intros <- w w' a. unfold logged. destruct (op (lib w)) as [s [a'|e]]; [|done].
  intros [= <- <-]. exists [Call name args None]. split; [done|].
  rewrite filter_cons, filter_nil. by destruct (is_print _).
Qed.

Lemma prints_logged_iter {B} it flat (op : St S (list B)) :
  prints (logged_iter it flat op) 0.
Proof.
  intros w w' a. unfold logged_iter.
  destruct (op (lib w)) as [s [bs|e]]; [|done].
  intros [= <- <-]. by exists [Yield it (flat <$> bs)].
Qed.

Lemma prints_bind {A B} (c : M S I T A) (f : A → M S I T B) n1 n2 :
  prints c n1 → (∀ a, prints (f a) n2) → prints (c ≫= f) (n1 + n2).
Proof.
  intros Hc Hf w w' b. unfold mbind, M_bind.
  destruct (c w) as [w1 [a|e]] eqn:Hcw; [|done]. intros Hrun.
  destruct (Hc w w1 a Hcw) as (evs1 & Htr1 & Hn1).
  destruct (Hf a w1 w' b Hrun) as (evs2 & Htr2 & Hn2).
  exists (evs1 ++ evs2). split; [by rewrite Htr2, Htr1, app_assoc|].
  rewrite filter_app, length_app. lia.
Qed.

(** A [with] block that returns has printed what entering the scope, the
    body and leaving the scope have printed. *)
Lemma prints_with {A} (enter exit_ : M S I T unit) (body : M S I T A)
    n1 n2 n3 :
  prints enter n1 → prints body n2 → prints exit_ n3 →
  prints (with_ enter exit_ body) (n1 + n2 + n3).
Proof.
  intros Henter Hbody Hexit w w' a.
  unfold with_, mbind, M_bind, mtry, M_try.
  destruct (enter w) as [w1 [[]|e]] eqn:Hw1; [|done].
  destruct (body w1) as [w2 [a'|e]] eqn:Hw2; cbn.
  - destruct (exit_ w2) as [w3 [[]|e]] eqn:Hw3; [|done].
    intros [= <- <-].
    destruct (Henter _ _ _ Hw1) as (evs1 & Htr1 & Hn1).
    destruct (Hbody _ _ _ Hw2) as (evs2 & Htr2 & Hn2).
    destruct (Hexit _ _ _ Hw3) as (evs3 & Htr3 & Hn3).
    exists (evs1 ++ evs2 ++ evs3).
    split; [by rewrite Htr3, Htr2, Htr1, <- !app_assoc|].
    rewrite !filter_app, !length_app. lia.
  - by destruct (exit_ w2) as [w3 [[]|e']].
Qed.

(** A loop prints what its iterations print. *)
Lemma prints_foldR {A B} (f : B → A → M S I T B) (g : A → nat) l b :
  (∀ b a, prints (f b a) (g a)) →
  prints (foldR f l b) (sum_list (g <$> l)).
Proof.
  intros Hf. revert b. induction l as [|a l IH]; intros b; cbn [foldR].
  - apply prints_ret.
  - rewrite fmap_cons. cbn [sum_list sum_list_with]. by apply prints_bind.
Qed.

Lemma prints_foldR_silent {A B} (f : B → A → M S I T B) l b :
  (∀ b a, prints (f b a) 0) → prints (foldR f l b) 0.
Proof.
  intros Hf. eapply prints_eq; [by apply (prints_foldR f (λ _, 0%nat))|].
  induction l; [done|]. by rewrite fmap_cons.
Qed.

Lemma prints_mapR {A B} (f : A → M S I T B) l :
  (∀ a, prints (f a) 0) → prints (mapR f l) 0.
Proof.
  intros Hf. induction l as [|a l IH]; cbn [mapR].
  - apply prints_ret.
  - apply (prints_bind _ _ 0 0); [done|]. intros b.
    apply (prints_bind _ _ 0 0); [done|]. intros bs. apply prints_ret.
Qed.

Lemma prints_getattr self name : prints (getattr (m:=M S I T) self name) 0.
Proof.
  unfold getattr. destruct (attrs self !! name);
    [apply prints_ret|apply prints_raise].
Qed.

Lemma prints_subscript {A} (l : list A) i :
  prints (subscript (m:=M S I T) l i) 0.
Proof.
  unfold subscript. destruct (l !! i); [apply prints_ret|apply prints_raise].
Qed.

Lemma prints_setitem {A} (l : list A) i v :
  prints (setitem (m:=M S I T) l i v) 0.
Proof.
  unfold setitem. case_decide; [apply prints_ret|apply prints_raise].
Qed.

Lemma prints_star {A} (l : list (option A)) :
  prints (star (m:=M S I T) l) 0.
Proof.
  apply prints_mapR. intros [a|]; [apply prints_ret|apply prints_raise].
Qed.

Lemma prints_py_div x n : prints (py_div (m:=M S I T) x n) 0.
Proof.
  unfold py_div. case_decide; [apply prints_raise|apply prints_ret].
Qed.
End prints.

(** The steps of a proof of how often straight-line code prints. *)
Ltac prints_step :=
  first
    [ apply prints_ret
    | apply prints_raise
    | eapply prints_logged; cbv; reflexivity
    | apply prints_logged_iter
    | apply prints_getattr
    | apply prints_subscript
    | apply prints_setitem
    | apply prints_star
    | apply prints_py_div
    | eapply prints_with
    | eapply prints_bind; [|intros]
    | progress cbv beta iota
    | match goal with
      | |- prints (match ?x with _ => _ end) _ => destruct x
      | |- prints ((match ?x with _ => _ end) _) _ => destruct x
      end ].

Ltac prints_straight_line := eapply prints_eq; [repeat prints_step|].

Section training_prints.
Context {S I Tr T : Type}.
Context `{!NDArrayOps (St S) T, !GluonOps (St S) T, !IndexOps (St S) T,
          !ContribOps (St S) T, !TrainOps (St S) I Tr T}.
Context (net : T → St S T) (loss : T → T → St S T).

Lemma prints_train_ch3_batch batch_size params lr (trainer : option Tr)
    st batch :
  prints
    (train_ch3_batch (logged_net net) (logged_loss loss) batch_size params
       lr trainer st batch) 0.
Proof.
  destruct st as [[train_l_sum train_acc_sum] n], batch as [X y].
  unfold train_ch3_batch, logged_net, logged_loss.
  destruct trainer; (prints_straight_line; reflexivity).
Qed.

Lemma prints_evaluate_accuracy (data_iter : I) :
  prints (evaluate_accuracy data_iter (logged_net net)) 0.
Proof.
  unfold evaluate_accuracy. cbv beta iota.
  apply (prints_bind _ _ 0 0); [apply prints_logged_iter|]. intros batches.
  apply (prints_bind _ _ 0 0).
  - apply prints_foldR_silent. intros [acc_sum n] [X y].
    unfold logged_net. prints_straight_line. reflexivity.
  - intros [acc_sum n]. apply prints_py_div.
Qed.

Lemma prints_train_ch3_epoch train_iter test_iter batch_size params lr
    (trainer : option Tr) epoch :
  prints
    (train_ch3_epoch (logged_net net) train_iter test_iter (logged_loss loss)
       batch_size params lr trainer epoch) 1.
Proof.
  unfold train_ch3_epoch. cbv beta iota.
  apply (prints_bind _ _ 0 1); [apply prints_logged_iter|]. intros batches.
  apply (prints_bind _ _ 0 1).
  { apply prints_foldR_silent. intros. apply prints_train_ch3_batch. }
  intros [[train_l_sum train_acc_sum] n].
  apply (prints_bind _ _ 0 1); [apply prints_evaluate_accuracy|].
  intros test_acc. prints_straight_line. reflexivity.
Qed.

Lemma prints_concat_preds (preds : list T) :
  prints (concat_preds (m:=M S I T) preds) 0.
Proof.
  unfold concat_preds, flatten_pred.
  apply (prints_bind _ _ 0 0).
  - apply prints_mapR. intros pred. prints_straight_line. reflexivity.
  - intros flat. prints_straight_line. reflexivity.
Qed.

Lemma prints_forward self (X : T) : prints (forward (m:=M S I T) self X) 0.
Proof.
  unfold forward, forward_outputs.
  apply (prints_bind _ _ 0 0).
  - apply prints_foldR_silent.
    intros [[[X' anchors] cls_preds] bbox_preds] i.
    unfold forward_step, blk_forward. prints_straight_line. reflexivity.
  - intros [[[X' anchors] cls_preds] bbox_preds].
    eapply prints_eq;
      [repeat first [apply prints_concat_preds | prints_step]|reflexivity].
Qed.

Lemma prints_ssd_train_batch self (trainer : Tr) batch_size st batch :
  prints (ssd_train_batch (m:=M S I T) self trainer batch_size st batch) 0.
Proof.
  destruct st as [[[acc_sum mae_sum] n] m'].
  unfold ssd_train_batch, calc_loss, cls_eval, bbox_eval.
  eapply prints_eq;
    [repeat first [apply prints_forward | prints_step]|reflexivity].
Qed.

(** An epoch of the training cell prints when its number is a multiple
    of 5. *)
Definition ssd_epoch_prints (epoch : nat) : nat :=
  if decide ((Z.of_nat epoch + 1) `mod` 5 = 0) then 1 else 0.

Lemma prints_ssd_train_epoch self (train_iter : I) (trainer : Tr) batch_size
    epoch :
  prints (ssd_train_epoch (m:=M S I T) self train_iter trainer batch_size
            epoch) (ssd_epoch_prints epoch).
Proof.
  unfold ssd_train_epoch, ssd_epoch_prints. cbv beta iota.
  apply (prints_bind _ _ 0); [by apply (prints_logged _ _ _ false)|].
  intros _.
  apply (prints_bind _ _ 0); [by apply (prints_logged _ _ _ false)|].
  intros start.
  apply (prints_bind _ _ 0); [apply prints_logged_iter|]. intros batches.
  apply (prints_bind _ _ 0).
  { apply prints_foldR_silent. intros. apply prints_ssd_train_batch. }
  intros [[[acc_sum mae_sum] n] m']. case_decide.
  - prints_straight_line. reflexivity.
  - apply prints_ret.
Qed.
End training_prints.

(** X19: a run of [train_ch3] that returns has printed once for each
    epoch; a run of the training cell of the detector that returns has
    printed four times, once after each of the epochs 5, 10, 15 and 20.
    [net] and [loss] are any callables of the library. *)
Theorem training_loops_print {S I Tr T : Type}
    `{!NDArrayOps (St S) T, !GluonOps (St S) T, !IndexOps (St S) T,
      !ContribOps (St S) T, !TrainOps (St S) I Tr T} :
  (∀ (net : T → St S T) (loss : T → T → St S T) train_iter test_iter
     num_epochs batch_size params lr (trainer : option Tr),
     prints (train_ch3 (logged_net net) train_iter test_iter
               (logged_loss loss) num_epochs batch_size params lr trainer)
       num_epochs) ∧
  (∀ self (train_iter : I) (trainer : Tr) batch_size,
     (∀ epoch,
        prints (ssd_train_epoch (m:=M S I T) self train_iter trainer
                  batch_size epoch)
          (if decide ((Z.of_nat epoch + 1) `mod` 5 = 0) then 1 else 0)) ∧
     prints (ssd_train (m:=M S I T) self train_iter trainer batch_size) 4).
Proof.
  split.
  - intros. unfold train_ch3. eapply prints_eq.
    + apply (prints_foldR _ (λ _, 1%nat)). intros _ epoch.
      apply prints_train_ch3_epoch.
    + assert (∀ n k, sum_list ((λ _, 1%nat) <$> seq k n) = n) as Hsum.
      { induction n as [|n IH]; intros k; [done|].
        cbn [seq fmap list_fmap sum_list sum_list_with]. by rewrite IH. }
      apply Hsum.
  - intros. split; [intros; apply prints_ssd_train_epoch|].
    unfold ssd_train. eapply prints_eq.
    + apply (prints_foldR _ ssd_epoch_prints). intros _ epoch.
      apply prints_ssd_train_epoch.
    + reflexivity.
Qed.

Lemma training_loops_print_example :
  (∃ w', train_ch3 (logged_net ShapeLibrary.net) 2%nat 1%nat
           (logged_loss ShapeLibrary.loss) 2 256 None None None
           ShapeLibrary.start = (w', Ok ()) ∧
     ∃ evs, trace w' = trace ShapeLibrary.start ++ evs ∧
       length (filter is_print evs) = 2%nat) ∧
  (∃ w', ssd_train (m:=M () nat (list Z)) (TinySSD_init 1) 1%nat () 32
           ShapeLibrary.start = (w', Ok ()) ∧
     ∃ evs, trace w' = trace ShapeLibrary.start ++ evs ∧
       length (filter is_print evs) = 4%nat).
Proof.
  split.
  - eexists. split; [vm_compute; reflexivity|].
    apply (proj1 (training_loops_print (S:=()) (I:=nat) (Tr:=())
                    (T:=list Z))
             ShapeLibrary.net ShapeLibrary.loss 2%nat 1%nat 2%nat 256
             None None None ShapeLibrary.start _ ()).
    vm_compute. reflexivity.
  - eexists. split; [vm_compute; reflexivity|].
    apply (proj2 (proj2 (training_loops_print (S:=()) (I:=nat) (Tr:=())
                           (T:=list Z)) (TinySSD_init 1) 1%nat () 32)
             ShapeLibrary.start _ ()).
    vm_compute. reflexivity.
Defined.
